(** * compress_with_world: a dictionary-assisted chunk codec

    A shallow embedding of [compress_with_world.py] and the properties of its
    bit-level container format.

    Conventions of the embedding:
    - a Python [bytes]/[bytearray] is a [list byte]; a file is its contents;
    - Python integers that take part in shifts and masks ([bitbuf], [bitlen],
      field values, counts read from the header) are [Z]; list indices and
      lengths ([pos], [len(restored)]) are [nat];
    - [SystemExit] and the other exceptions are the constructors of [error],
      threaded through a small result monad;
    - [hashlib.sha256] is the function [SHA256.sha256] (FIPS 180-4);
      [gzip.compress]/[gzip.decompress] are the two fields of a [Gzip] codec
      the codec functions are parameterised by;
    - a [while] loop is a [Fixpoint] on a bound that its doc comment
      justifies; the decoder's loops answer [OutOfFuel] at the bound, which
      [decompress_in_bound] shows is never reached;
    - two loops carry a log the source does not have: the encoder records
      the branch each sub-run took ([emitted]), the decoder the [(t, run)]
      pairs it read. *)

From Stdlib Require Import ZArith List Lia ZifyNat Bool.
From Stdlib.Strings Require Import Byte.
From stdpp Require Import base option list countable gmap.
Import ListNotations.

Local Open Scope Z_scope.

(** ** Bytes *)

Definition byte_to_Z (b : byte) : Z := Z.of_N (Byte.to_N b).

(** [bytes([z])] for [0 <= z < 256]; the codec only builds bytes from values
    it has masked with [0xFF]. *)
Definition byte_of_Z (z : Z) : byte :=
  match Byte.of_N (Z.to_N z) with
  | Some b => b
  | None => x00
  end.

#[global] Instance byte_eq_dec : EqDecision byte := Byte.byte_eq_dec.

#[global] Program Instance byte_countable : Countable byte :=
  inj_countable Byte.to_N Byte.of_N _.
Next Obligation. intros b. apply Byte.of_to_N. Qed.

(** [b"\x00" * n] *)
Definition zeros (n : nat) : list byte := replicate n x00.

(** [d[a:b]] for [0 <= a <= b]: Python clamps the slice at the end of [d]. *)
Definition slice {A} (d : list A) (a b : nat) : list A :=
  take (b - a)%nat (drop a d).

(** [int.from_bytes(bs, 'little')] *)
Fixpoint le_val (bs : list byte) : Z :=
  match bs with
  | [] => 0
  | b :: bs' => byte_to_Z b + 256 * le_val bs'
  end.

(** The [n] little-endian bytes of [v], low byte first. *)
Fixpoint le_bytes (n : nat) (v : Z) : list byte :=
  match n with
  | O => []
  | S n' => byte_of_Z (v mod 256) :: le_bytes n' (v / 256)
  end.

(** ** Errors *)

Inductive error : Type :=
| WorldTooShort        (* SystemExit('world_package.bin must be at least 32 bytes') *)
| InputTooShort        (* SystemExit('input too short') *)
| TruncatedBitstream   (* SystemExit('truncated bitstream') *)
| MissingExtrasLength  (* SystemExit('missing extras length') *)
| PackOverflow         (* struct.error / OverflowError: value does not fit the field *)
| IndexError           (* home[t] out of range *)
| GzipError            (* any exception raised by gzip.decompress *)
| OutOfFuel.           (* the model's loop bound was reached; shown unreachable *)

Inductive result (A : Type) : Type :=
| Ok (a : A)
| Err (e : error).
Arguments Ok {A} a.
Arguments Err {A} e.

Definition bind {A B} (r : result A) (k : A -> result B) : result B :=
  match r with
  | Ok a => k a
  | Err e => Err e
  end.

Notation "'let*' x := r 'in' k" := (bind r (fun x => k))
  (at level 10, x pattern, r at level 100, k at level 200).

(** [struct.pack('<I', v)], [struct.pack('<Q', v)], [v.to_bytes(n, 'little')]:
    all raise when [v] does not fit in [n] bytes. *)
Definition pack_le (n : nat) (v : Z) : result (list byte) :=
  if (0 <=? v) && (v <? 256 ^ Z.of_nat n) then Ok (le_bytes n v)
  else Err PackOverflow.

(** ** SHA-256, as [hashlib.sha256(m).digest()] *)

Module SHA256.

Definition mask32 : Z := 0xFFFFFFFF.
Definition add32 (a b : Z) : Z := Z.land (a + b) mask32.
Definition rotr (n x : Z) : Z :=
  Z.lor (Z.shiftr x n) (Z.land (Z.shiftl x (32 - n)) mask32).
Definition shr (n x : Z) : Z := Z.shiftr x n.
Definition xor3 (a b c : Z) : Z := Z.lxor (Z.lxor a b) c.

Definition Ch (x y z : Z) : Z :=
  Z.lxor (Z.land x y) (Z.land (Z.lxor x mask32) z).
Definition Maj (x y z : Z) : Z :=
  xor3 (Z.land x y) (Z.land x z) (Z.land y z).
Definition bsig0 (x : Z) : Z := xor3 (rotr 2 x) (rotr 13 x) (rotr 22 x).
Definition bsig1 (x : Z) : Z := xor3 (rotr 6 x) (rotr 11 x) (rotr 25 x).
Definition ssig0 (x : Z) : Z := xor3 (rotr 7 x) (rotr 18 x) (shr 3 x).
Definition ssig1 (x : Z) : Z := xor3 (rotr 17 x) (rotr 19 x) (shr 10 x).

(** The round constants and the initial hash value are the first 32 bits of
    the fractional parts of the cube roots, resp. square roots, of the first
    primes: [floor(root(p) * 2^32) mod 2^32], computed on integers. *)
Definition primes : list Z :=
  [ 2; 3; 5; 7; 11; 13; 17; 19; 23; 29; 31; 37; 41; 43; 47; 53; 59; 61; 67; 71;
    73; 79; 83; 89; 97; 101; 103; 107; 109; 113; 127; 131; 137; 139; 149; 151;
    157; 163; 167; 173; 179; 181; 191; 193; 197; 199; 211; 223; 227; 229; 233;
    239; 241; 251; 257; 263; 269; 271; 277; 281; 283; 293; 307; 311 ].

(** The integer cube root of [n < 2 ^ (3 * bits)], one bit at a time. *)
Fixpoint icbrt (bits : nat) (n r : Z) : Z :=
  match bits with
  | O => r
  | S bits' =>
      let r' := r + 2 ^ Z.of_nat bits' in
      icbrt bits' n (if r' * r' * r' <=? n then r' else r)
  end.

Definition frac_cbrt (p : Z) : Z := Z.land (icbrt 36 (p * 2 ^ 96) 0) mask32.
Definition frac_sqrt (p : Z) : Z := Z.land (Z.sqrt (p * 2 ^ 64)) mask32.

Definition K : list Z := Eval vm_compute in map frac_cbrt primes.

Record state : Type := mkState {
  sa : Z; sb : Z; sc : Z; sd : Z; se : Z; sf : Z; sg : Z; sh : Z }.

Definition H0 : state :=
  Eval vm_compute in
    mkState (frac_sqrt 2) (frac_sqrt 3) (frac_sqrt 5) (frac_sqrt 7)
            (frac_sqrt 11) (frac_sqrt 13) (frac_sqrt 17) (frac_sqrt 19).

(** Big-endian 32-bit words of a block, and back. *)
Fixpoint be_words (bs : list byte) (n : nat) : list Z :=
  match n, bs with
  | S n', b0 :: b1 :: b2 :: b3 :: bs' =>
      (((byte_to_Z b0 * 256 + byte_to_Z b1) * 256 + byte_to_Z b2) * 256
       + byte_to_Z b3) :: be_words bs' n'
  | _, _ => []
  end.

Definition be32 (x : Z) : list byte :=
  [ byte_of_Z (Z.land (Z.shiftr x 24) 255); byte_of_Z (Z.land (Z.shiftr x 16) 255);
    byte_of_Z (Z.land (Z.shiftr x 8) 255); byte_of_Z (Z.land x 255) ].

(** Message schedule: [w] holds the last sixteen words, oldest first. *)
Fixpoint schedule (n : nat) (w : list Z) : list Z :=
  match n with
  | O => []
  | S n' =>
      let x := add32 (add32 (ssig1 (nth 14 w 0)) (nth 9 w 0))
                     (add32 (ssig0 (nth 1 w 0)) (nth 0 w 0)) in
      x :: schedule n' (tl w ++ [x])
  end.

Definition round (s : state) (kw : Z * Z) : state :=
  let t1 := add32 (add32 (add32 (sh s) (bsig1 (se s)))
                         (add32 (Ch (se s) (sf s) (sg s)) (fst kw))) (snd kw) in
  let t2 := add32 (bsig0 (sa s)) (Maj (sa s) (sb s) (sc s)) in
  mkState (add32 t1 t2) (sa s) (sb s) (sc s) (add32 (sd s) t1) (se s) (sf s) (sg s).

Definition compress_block (s : state) (block : list byte) : state :=
  let w16 := be_words block 16 in
  let w := w16 ++ schedule 48 w16 in
  let r := fold_left round (combine K w) s in
  mkState (add32 (sa s) (sa r)) (add32 (sb s) (sb r)) (add32 (sc s) (sc r))
          (add32 (sd s) (sd r)) (add32 (se s) (se r)) (add32 (sf s) (sf r))
          (add32 (sg s) (sg r)) (add32 (sh s) (sh r)).

(** [0x80], zero fill to 56 mod 64, then the bit length on eight bytes. *)
Definition pad (m : list byte) : list byte :=
  let l := Z.of_nat (length m) in
  let k := Z.to_nat ((55 - l) mod 64) in
  m ++ [x80] ++ zeros k ++ rev (le_bytes 8 (8 * l)).

Fixpoint blocks (n : nat) (bs : list byte) (s : state) : state :=
  match n with
  | O => s
  | S n' => blocks n' (drop 64 bs) (compress_block s (take 64 bs))
  end.

Definition sha256 (m : list byte) : list byte :=
  let p := pad m in
  let s := blocks (length p / 64)%nat p H0 in
  be32 (sa s) ++ be32 (sb s) ++ be32 (sc s) ++ be32 (sd s) ++
  be32 (se s) ++ be32 (sf s) ++ be32 (sg s) ++ be32 (sh s).

End SHA256.

(** ** The world file and the home table *)

Definition CHUNK_SIZE : nat := 18.

(** [load_world]: the mapping table and the key, bytes 0..15 and 16..31. *)
Definition load_world (b : list byte) : result (list byte * list byte) :=
  if (length b <? 32)%nat then Err WorldTooShort
  else
    let mapping := slice b 0 16 in
    let key := slice b 16 32 in
    Ok (mapping, key).

(** [gen_home_from_key]: sixteen chunks, [SHA256(key || i)[:CHUNK_SIZE]]. *)
Definition gen_home_from_key (key : list byte) : list (list byte) :=
  map (fun i => take CHUNK_SIZE (SHA256.sha256 (key ++ [byte_of_Z (Z.of_nat i)])))
      (seq 0 16).

(** ** Chunker *)

(** [range(0, stop, step)] *)
Definition range_step (stop step : nat) : list nat :=
  map (fun k => (k * step)%nat) (seq 0 ((stop + step - 1) / step)%nat).

(** [[d[i:i+CHUNK_SIZE] for i in range(0, len(d), CHUNK_SIZE)]] *)
Definition chunks_of (d : list byte) : list (list byte) :=
  map (fun i => slice d i (i + CHUNK_SIZE)) (range_step (length d) CHUNK_SIZE).

(** [chunk_file], on the contents [d] of the file. *)
Definition chunk_file (d : list byte) : list (list byte) * nat :=
  let orig_len := length d in
  let pad := Z.to_nat ((- Z.of_nat orig_len) mod Z.of_nat CHUNK_SIZE) in
  let d := if (0 <? pad)%nat then d ++ zeros pad else d in
  (chunks_of d, orig_len).

(** ** Chunk classification *)

(** [enumerate(home)] *)
Definition enumerate {A} (l : list A) : list (nat * A) :=
  combine (seq 0 (length l)) l.

(** [{h: i for i, h in enumerate(home)}]: a later entry with the same bytes
    replaces an earlier one. *)
Definition home_index (home : list (list byte)) : gmap (list byte) Z :=
  fold_left (fun (m : gmap (list byte) Z) ih => <[ snd ih := Z.of_nat (fst ih) ]> m)
            (enumerate home) ∅.

(** One turn of the loop [for c in chunks] of [compress]. *)
Definition classify_step (index : gmap (list byte) Z)
    (acc : list Z * list (list byte)) (c : list byte) : list Z * list (list byte) :=
  let '(types, extras) := acc in
  match index !! c with
  | Some i => (types ++ [i], extras)
  | None => (types ++ [15], extras ++ [c])   (* reserved type for extras *)
  end.

Definition classify (index : gmap (list byte) Z) (chunks : list (list byte))
  : list Z * list (list byte) :=
  fold_left (classify_step index) chunks ([], []).

(** ** BitWriter *)

(** The writer's state: the bytes flushed so far ([out_bits]) and the pending
    bits ([bitbuf], [bitlen]). *)
Record BitWriter : Type := mkWriter {
  buf_bytes : list byte;
  w_bitbuf : Z;
  w_bitlen : Z }.

(** [while bitlen >= 8: buf_bytes.append(bitbuf & 0xFF); bitbuf >>= 8; bitlen -= 8] *)
Fixpoint flush_bytes (fuel : nat) (w : BitWriter) : BitWriter :=
  match fuel with
  | O => w
  | S fuel' =>
      if 8 <=? w_bitlen w then
        flush_bytes fuel'
          (mkWriter (buf_bytes w ++ [byte_of_Z (Z.land (w_bitbuf w) 0xFF)])
                    (Z.shiftr (w_bitbuf w) 8) (w_bitlen w - 8))
      else w
  end.

(** [write_bits(buf_bytes, bitbuf, bitlen, value, bits)]. The flush loop runs
    at most [bitlen / 8] times, which is the bound given to [flush_bytes]. *)
Definition write_bits (w : BitWriter) (value bits : Z) : BitWriter :=
  let bitbuf := Z.lor (w_bitbuf w)
                  (Z.shiftl (Z.land value (Z.shiftl 1 bits - 1)) (w_bitlen w)) in
  let bitlen := w_bitlen w + bits in
  flush_bytes (Z.to_nat (bitlen / 8)) (mkWriter (buf_bytes w) bitbuf bitlen).

(** [if bitlen > 0: out_bits.append(bitbuf & 0xFF)] *)
Definition flush_final (w : BitWriter) : list byte :=
  if 0 <? w_bitlen w then buf_bytes w ++ [byte_of_Z (Z.land (w_bitbuf w) 0xFF)]
  else buf_bytes w.

Definition writer_init : BitWriter := mkWriter [] 0 0.

(** ** Run-length encoder *)

(** What one turn of the loop [while rem > 0] emits; the constructors are the
    three branches of the loop body, with the field values written. *)
Inductive emitted : Type :=
| ShortForm (t run_minus1 : Z)        (* rem <= 8 *)
| Fallback (t small_run : Z)          (* rem > 8 and M < 0 *)
| Extended (t small_run M : Z).       (* rem > 8 and M >= 0 *)

(** The number of chunks a sub-run stands for. *)
Definition consumed (e : emitted) : Z :=
  match e with
  | ShortForm _ run_minus1 => run_minus1 + 1
  | Fallback _ small_run => small_run
  | Extended _ small_run M => small_run * (M + 1)
  end.

Definition type_of (e : emitted) : Z :=
  match e with
  | ShortForm t _ | Fallback t _ | Extended t _ _ => t
  end.

(** The loop [while rem > 0] of [compress] for one run of type [t]. It
    returns the writer and the log of what it emitted (the log is not in the
    source: it records which branch each turn took). *)
Fixpoint encode_run (fuel : nat) (w : BitWriter) (t rem : Z) (log : list emitted)
  : BitWriter * list emitted :=
  match fuel with
  | O => (w, log)
  | S fuel' =>
      if 0 <? rem then
        if rem <=? 8 then
          let F := 0 in
          let run_minus1 := rem - 1 in
          let w := write_bits w t 4 in
          let w := write_bits w F 1 in
          let w := write_bits w run_minus1 3 in
          encode_run fuel' w t 0 (log ++ [ShortForm t run_minus1])
        else
          let small_run := 8 in
          let small_run := if rem <? small_run then rem else small_run in
          let M := Z.min 31 (rem / small_run - 1) in
          if M <? 0 then
            let small_run := rem in
            let w := write_bits w t 4 in
            let w := write_bits w 0 1 in
            let w := write_bits w (small_run - 1) 3 in
            encode_run fuel' w t 0 (log ++ [Fallback t small_run])
          else
            let F := 1 in
            let w := write_bits w t 4 in
            let w := write_bits w F 1 in
            let w := write_bits w (small_run - 1) 3 in
            let w := write_bits w M 5 in
            let used := small_run * (M + 1) in
            encode_run fuel' w t (rem - used) (log ++ [Extended t small_run M])
      else (w, log)
  end.

(** [j = i + 1; while j < n and types[j] == t: j += 1], started at [j]. *)
Fixpoint scan_run (fuel : nat) (types : list Z) (t : Z) (j : nat) : nat :=
  match fuel with
  | O => j
  | S fuel' =>
      match types !! j with
      | Some t' => if t' =? t then scan_run fuel' types t (S j) else j
      | None => j
      end
  end.

(** The loop [while i < n] of [compress]. Each turn moves [i] forward by at
    least one, so [n - i] turns are enough; a run of length [run] needs at
    most [run] turns of its inner loop. *)
Fixpoint encode_loop (fuel : nat) (types : list Z) (i : nat) (w : BitWriter)
    (log : list emitted) : BitWriter * list emitted :=
  match fuel with
  | O => (w, log)
  | S fuel' =>
      match types !! i with
      | None => (w, log)
      | Some t =>
          let j := scan_run (length types - S i) types t (S i) in
          let run := Z.of_nat (j - i) in
          let '(w, log) := encode_run (S (Z.to_nat run)) w t run log in
          encode_loop fuel' types j w log
      end
  end.

(** Lines 80-134 of [compress]: the runs, the nine-bit marker, the final
    flush. *)
Definition encode_types (types : list Z) : list byte * list emitted :=
  let '(w, log) := encode_loop (length types) types 0 writer_init [] in
  let w := write_bits w (Z.shiftl 1 9 - 1) 9 in
  (flush_final w, log).

Definition encode_bitstream (types : list Z) : list byte := fst (encode_types types).
Definition emitted_runs (types : list Z) : list emitted := snd (encode_types types).

(** ** BitReader *)

Record BitReader : Type := mkReader {
  data : list byte;
  pos : nat;
  bitbuf : Z;
  bitlen : Z }.

(** The loop [while self.bitlen < n] of [read_bits], over the bytes
    [rest = data[pos:]] not read yet. The reader is an object the loop
    updates in place, so the state reached is returned on failure too. *)
Fixpoint fill (rest : list byte) (pos : nat) (bitbuf bitlen n : Z)
  : bool * (nat * Z * Z) :=
  if bitlen <? n then
    match rest with
    | [] => (false, (pos, bitbuf, bitlen))       (* self.pos >= len(self.data) *)
    | b :: rest' =>
        fill rest' (S pos) (Z.lor bitbuf (Z.shiftl (byte_to_Z b) bitlen)) (bitlen + 8) n
    end
  else (true, (pos, bitbuf, bitlen)).

(** [BitReader.read_bits]: the value read, or [truncated bitstream], and the
    reader afterwards. *)
Definition read_bits (br : BitReader) (n : Z) : result Z * BitReader :=
  match fill (drop (pos br) (data br)) (pos br) (bitbuf br) (bitlen br) n with
  | (false, (pos', bitbuf', bitlen')) =>
      (Err TruncatedBitstream, mkReader (data br) pos' bitbuf' bitlen')
  | (true, (pos', bitbuf', bitlen')) =>
      let val := Z.land bitbuf' (Z.shiftl 1 n - 1) in
      (Ok val, mkReader (data br) pos' (Z.shiftr bitbuf' n) (bitlen' - n))
  end.

(** Reading as a computation on the reader: an error stops it. *)
Definition reading (A : Type) : Type := BitReader -> result A * BitReader.

Definition rbind {A B} (m : reading A) (k : A -> reading B) : reading B :=
  fun br =>
    match m br with
    | (Ok a, br') => k a br'
    | (Err e, br') => (Err e, br')
    end.

Definition rret {A} (a : A) : reading A := fun br => (Ok a, br).

Notation "'read*' x := m 'in' k" := (rbind m (fun x => k))
  (at level 10, x pattern, m at level 100, k at level 200).

Definition get_bits (n : Z) : reading Z := fun br => read_bits br n.

(** ** Run-length decoder *)

(** Lines 186-194 of [decompress]: the fields of one run, giving its type
    and its length. *)
Definition read_run : reading (Z * Z) :=
  read* t := get_bits 4 in
  read* F := get_bits 1 in
  if F =? 0 then
    read* run_minus1 := get_bits 3 in
    rret (t, run_minus1 + 1)
  else
    read* small_run_minus1 := get_bits 3 in
    read* M := get_bits 5 in
    rret (t, (small_run_minus1 + 1) * (M + 1)).

(** The accumulators of the expansion loop. *)
Record expansion : Type := mkExpansion {
  restored : list byte;
  extras_positions : list nat;
  expanded : Z }.

Definition expansion_init : expansion := mkExpansion [] [] 0.

(** [for _ in range(run): extras_positions.append(len(restored));
    restored += zeros] *)
Fixpoint expand_extras (run : nat) (restored : list byte) (positions : list nat)
  : list byte * list nat :=
  match run with
  | O => (restored, positions)
  | S run' =>
      expand_extras run' (restored ++ zeros CHUNK_SIZE) (positions ++ [length restored])
  end.

(** [for _ in range(run): restored += home[t]] *)
Fixpoint expand_home (run : nat) (restored : list byte) (h : list byte) : list byte :=
  match run with
  | O => restored
  | S run' => expand_home run' (restored ++ h) h
  end.

(** Lines 196-203 of [decompress]. *)
Definition expand_run (home : list (list byte)) (st : expansion) (t run : Z)
  : result expansion :=
  if t =? 15 then
    let '(r, ps) := expand_extras (Z.to_nat run) (restored st) (extras_positions st) in
    Ok (mkExpansion r ps (expanded st + run))
  else
    match home !! Z.to_nat t with
    | Some h => Ok (mkExpansion (expand_home (Z.to_nat run) (restored st) h)
                                (extras_positions st) (expanded st + run))
    | None => Err IndexError
    end.

(** The loop [while expanded < chunks_count]. [runs] logs the [(t, run)]
    pairs decoded, in order (not in the source). A turn that does not fail
    takes at least eight bits from the reader, which bounds the turns by the
    bytes of [data]. *)
Fixpoint decode_runs (fuel : nat) (home : list (list byte)) (chunks_count : Z)
    (br : BitReader) (st : expansion) (runs : list (Z * Z))
  : result (BitReader * expansion * list (Z * Z)) :=
  if expanded st <? chunks_count then
    match fuel with
    | O => Err OutOfFuel
    | S fuel' =>
        match read_run br with
        | (Err e, _) => Err e
        | (Ok (t, run), br') =>
            let* st' := expand_run home st t run in
            decode_runs fuel' home chunks_count br' st' (runs ++ [(t, run)])
        end
    end
  else Ok (br, st, runs).

(** Lines 206-216: the scan for nine one-bits in a row. The flag tells how
    the scan ended: [true] when the loop saw nine ones, [false] when
    [read_bits] raised and the [except] clause swallowed it. [None] stands
    for the model's bound being reached; a turn either fails, and the scan
    ends, or takes one bit. *)
Fixpoint scan_marker (fuel : nat) (br : BitReader) (ones : Z)
  : option (bool * BitReader) :=
  if ones <? 9 then
    match fuel with
    | O => None
    | S fuel' =>
        match read_bits br 1 with
        | (Ok b, br') => scan_marker fuel' br' (if b =? 1 then ones + 1 else 0)
        | (Err _, br') => Some (false, br')      (* except SystemExit: pass *)
        end
    end
  else Some (true, br).

(** The bits the reader can still deliver. *)
Definition avail (br : BitReader) : Z :=
  bitlen br + 8 * Z.of_nat (length (data br) - pos br).

(** ** Extras pool *)

(** [out_bytes[a:b] = v] for [a <= b] *)
Definition slice_assign (out_bytes : list byte) (a b : nat) (v : list byte) : list byte :=
  take a out_bytes ++ v ++ drop b out_bytes.

(** Lines 232-237: [ex_iter] is what the iterator has not yielded yet. *)
Fixpoint patch_extras (positions : list nat) (ex_iter : list (list byte))
    (out_bytes : list byte) : list byte :=
  match positions with
  | [] => out_bytes
  | p :: positions' =>
      let '(chunk, ex_iter') :=
        match ex_iter with
        | c :: rest => (c, rest)
        | [] => (zeros CHUNK_SIZE, [])           (* except StopIteration *)
        end in
      patch_extras positions' ex_iter' (slice_assign out_bytes p (p + CHUNK_SIZE) chunk)
  end.

(** ** The secondary compressor *)

(** [gzip.compress] and [gzip.decompress]; the latter raises on a blob that
    is not a gzip stream. *)
Record Gzip : Type := mkGzip {
  gzip_compress : list byte -> list byte;
  gzip_decompress : list byte -> option (list byte) }.

(** What the codec relies on: [gzip.decompress] undoes [gzip.compress], and a
    gzip stream is never empty (it starts with a ten-byte header). *)
Definition GzipLawful (gz : Gzip) : Prop :=
  forall d, gzip_decompress gz (gzip_compress gz d) = Some d
            /\ gzip_compress gz d <> [].

(** ** compress and decompress *)

Definition is_empty {A} (l : list A) : bool :=
  match l with [] => true | _ => false end.

(** [compress] from line 52 on, once the home table is there. *)
Definition compress_with (gz : Gzip) (home : list (list byte)) (infile : list byte)
  : result (list byte) :=
  let '(chunks, orig_len) := chunk_file infile in
  let '(types, extras) := classify (home_index home) chunks in
  let out_bits := encode_bitstream types in
  let extras_blob :=
    if is_empty extras then [] else gzip_compress gz (concat extras) in
  let* count := pack_le 4 (Z.of_nat (length chunks)) in
  let* olen := pack_le 8 (Z.of_nat orig_len) in
  let* elen := pack_le 4 (Z.of_nat (length extras_blob)) in
  Ok (count ++ olen ++ out_bits ++ elen ++ extras_blob).

(** [compress(infile, out, world)]: the bytes written to [out]. *)
Definition compress (gz : Gzip) (infile world : list byte) : result (list byte) :=
  let* (mapping, key) := load_world world in
  let home := gen_home_from_key key in
  compress_with gz home infile.

(** Lines 157-203 of [decompress]: the header and the expansion of the runs. *)
Definition decode_container (home : list (list byte)) (data : list byte)
  : result (BitReader * expansion * list (Z * Z)) :=
  if (length data <? 12)%nat then Err InputTooShort
  else
    let chunks_count := le_val (slice data 0 4) in
    let pos := 12%nat in
    let br := mkReader data pos 0 0 in
    decode_runs (length data) home chunks_count br expansion_init [].

(** Lines 205-227: the marker, the byte alignment, the extras blob. *)
Definition read_extras (gz : Gzip) (br : BitReader) : result (list byte) :=
  match scan_marker (Z.to_nat (avail br) + 1) br 0 with
  | None => Err OutOfFuel
  | Some (_, br) =>
      let data := data br in
      let pos := pos br in
      if (length data <? pos + 4)%nat then Err MissingExtrasLength
      else
        let extras_len := Z.to_nat (le_val (slice data pos (pos + 4))) in
        let pos := (pos + 4)%nat in
        let extras_blob :=
          if (0 <? extras_len)%nat then slice data pos (pos + extras_len) else [] in
        if is_empty extras_blob then Ok []
        else match gzip_decompress gz extras_blob with
             | Some extras => Ok extras
             | None => Err GzipError
             end
  end.

(** Lines 229-241: patching the literal chunks in and trimming. *)
Definition finish (st : expansion) (extras : list byte) (orig_len : nat) : list byte :=
  let restored :=
    if is_empty (extras_positions st) then restored st
    else patch_extras (extras_positions st) (chunks_of extras) (restored st) in
  take orig_len restored.

(** [decompress] from line 154 on, once the home table is there. *)
Definition decompress_with (gz : Gzip) (home : list (list byte)) (data : list byte)
  : result (list byte) :=
  let* (br, st, _) := decode_container home data in
  let orig_len := Z.to_nat (le_val (slice data 4 12)) in
  let* extras := read_extras gz br in
  Ok (finish st extras orig_len).

(** [decompress(infile, out, world)]: the bytes written to [out]. *)
Definition decompress (gz : Gzip) (infile world : list byte) : result (list byte) :=
  let* (mapping, key) := load_world world in
  let home := gen_home_from_key key in
  decompress_with gz home infile.

(** * Vocabulary of the specification

    The numbers, predicates and sample data the properties below are stated
    with. None of it is in the source: each definition says what it stands
    for. *)

(** ** Bit streams as numbers *)

(** The writer's stream so far, flushed bytes and pending bits together, as
    one little-endian number on [wbits w] bits. *)
Definition wval (w : BitWriter) : Z :=
  le_val (buf_bytes w) + 2 ^ (8 * Z.of_nat (length (buf_bytes w))) * w_bitbuf w.

Definition wbits (w : BitWriter) : Z :=
  8 * Z.of_nat (length (buf_bytes w)) + w_bitlen w.

(** What [write_bits] leaves behind: fewer than eight pending bits, and
    nothing above them. *)
Definition writer_ok (w : BitWriter) : Prop :=
  0 <= w_bitlen w < 8 /\ 0 <= w_bitbuf w < 2 ^ w_bitlen w.

(** The fields [(value, width)] of a list, packed from the least significant
    bit upwards. *)
Fixpoint pack (fs : list (Z * Z)) : Z :=
  match fs with
  | [] => 0
  | (v, n) :: fs' => v mod 2 ^ n + 2 ^ n * pack fs'
  end.

Definition total_bits (fs : list (Z * Z)) : Z :=
  fold_right (fun f acc => snd f + acc) 0 fs.

(** Widths are not negative ([1 << bits] raises otherwise). *)
Definition widths_ok (fs : list (Z * Z)) : Prop := Forall (fun f => 0 <= snd f) fs.

(** [write_bits] for each field of a list, in order. *)
Definition write_all (w : BitWriter) (fs : list (Z * Z)) : BitWriter :=
  fold_left (fun w f => write_bits w (fst f) (snd f)) fs w.

(** The pending bits of the reader and the bytes it has not read yet, as one
    little-endian number. *)
Definition rval (br : BitReader) : Z :=
  bitbuf br + 2 ^ bitlen br * le_val (drop (pos br) (data br)).

(** What [read_bits] keeps true of the reader. *)
Definition reader_ok (br : BitReader) : Prop :=
  (pos br <= length (data br))%nat
  /\ 0 <= bitlen br < 8
  /\ 0 <= bitbuf br < 2 ^ bitlen br.

(** Reading back a list of fields, given their widths. *)
Fixpoint read_all (widths : list Z) : reading (list Z) :=
  match widths with
  | [] => rret []
  | n :: widths' =>
      read* v := get_bits n in
      read* vs := read_all widths' in
      rret (v :: vs)
  end.

(** The reader [br] over the first [c] bytes of its data. *)
Definition truncate (c : nat) (br : BitReader) : BitReader :=
  mkReader (take c (data br)) (pos br) (bitbuf br) (bitlen br).

(** A reading that, run on a prefix of the data, gives the same result as
    on the whole data when it stays inside the prefix, and fails with the
    truncated-stream error when it does not. *)
Definition prefix_sound {A} (m : reading A) : Prop :=
  forall (br : BitReader) (c : nat) (a : A) (br' : BitReader),
    reader_ok br -> (pos br <= c)%nat -> m br = (Ok a, br') ->
    reader_ok br' /\ (pos br <= pos br')%nat
    /\ ((pos br' <= c)%nat -> m (truncate c br) = (Ok a, truncate c br'))
    /\ ((c < pos br')%nat -> fst (m (truncate c br)) = Err TruncatedBitstream).

(** ** Sub-runs and types *)

(** A Type is a four-bit value. *)
Definition type_ok (t : Z) : Prop := 0 <= t <= 15.

(** The bit fields of a sub-run, in the order they are written. *)
Definition fields (e : emitted) : list (Z * Z) :=
  match e with
  | ShortForm t run_minus1 => [(t, 4); (0, 1); (run_minus1, 3)]
  | Fallback t small_run => [(t, 4); (0, 1); (small_run - 1, 3)]
  | Extended t small_run M => [(t, 4); (1, 1); (small_run - 1, 3); (M, 5)]
  end.

(** The forms the loop really emits: a short form for 1 to 8 chunks, or an
    extended form with [small_run = 8] and [M] in 0..31; never the fallback. *)
Definition well_formed (e : emitted) : Prop :=
  match e with
  | ShortForm _ run_minus1 => 0 <= run_minus1 <= 7
  | Fallback _ _ => False
  | Extended _ small_run M => small_run = 8 /\ 0 <= M <= 31
  end.

(** The chunks a list of sub-runs stands for, all together. *)
Definition sum_consumed (es : list emitted) : Z :=
  fold_right (fun e acc => consumed e + acc) 0 es.

(** The Type-per-position sequence a list of sub-runs stands for. *)
Definition expand_types (es : list emitted) : list Z :=
  flat_map (fun e => replicate (Z.to_nat (consumed e)) (type_of e)) es.

(** The [(t, run)] pair the decoder reads for a sub-run. *)
Definition decoded_run (e : emitted) : Z * Z := (type_of e, consumed e).

(** The type sequence a list of decoded [(t, run)] pairs stands for. *)
Definition decoded_types (runs : list (Z * Z)) : list Z :=
  flat_map (fun r => replicate (Z.to_nat (snd r)) (fst r)) runs.

(** ** Home table, classification, expansion *)

(** A home table as [gen_home_from_key] builds it. *)
Definition home_ok (home : list (list byte)) : Prop :=
  length home = 16%nat /\ Forall (fun h => length h = CHUNK_SIZE) home.

(** The type [classify] gives a chunk, and whether it keeps the chunk as a
    literal, read off the index. *)
Definition chunk_type (index : gmap (list byte) Z) (c : list byte) : Z :=
  match index !! c with
  | Some i => i
  | None => 15
  end.

Definition literal (index : gmap (list byte) Z) (c : list byte) : bool :=
  match index !! c with
  | Some _ => false
  | None => true
  end.

(** [expand_run] as a total step, for a sub-run of the encoder. *)
Definition expand_emitted (home : list (list byte)) (st : expansion) (e : emitted)
  : expansion :=
  match expand_run home st (type_of e) (consumed e) with
  | Ok st' => st'
  | Err _ => st
  end.

(** What the expansion appends for a chunk of type [t]. *)
Definition placeholder (home : list (list byte)) (t : Z) : list byte :=
  if t =? 15 then zeros CHUNK_SIZE else nth (Z.to_nat t) home [].

(** The offsets of the Type-15 chunks of a type sequence that starts at
    offset [base]. *)
Fixpoint positions_from (base : nat) (types : list Z) : list nat :=
  match types with
  | [] => []
  | t :: types' =>
      (if t =? 15 then [base] else []) ++ positions_from (base + CHUNK_SIZE) types'
  end.



(** The accumulators that go with a log of decoded runs. *)
Definition expansion_of (home : list (list byte)) (runs : list (Z * Z)) (st : expansion)
  : Prop :=
  restored st = flat_map (placeholder home) (decoded_types runs)
  /\ extras_positions st = positions_from 0 (decoded_types runs)
  /\ expanded st = Z.of_nat (length (decoded_types runs))
  /\ Forall type_ok (decoded_types runs).


(** ** Concrete instances

    A world file (sixteen mapping bytes, then the key 00 01 .. 0f), a
    stand-in for gzip that stores the data behind the two magic bytes of a
    gzip stream, and the gzip members that hold their data in one stored
    block, which [gzip.decompress] reads; they serve to run the codec on
    concrete inputs. *)

Definition key0 : list byte := map (fun i => byte_of_Z (Z.of_nat i)) (seq 0 16).
Definition world0 : list byte := zeros 16 ++ key0.
Definition home0 : list (list byte) := gen_home_from_key key0.

Definition stored_gzip : Gzip :=
  mkGzip (fun d => x1f :: x8b :: d)
         (fun blob => match blob with
                      | x1f :: x8b :: d => Some d
                      | _ => None
                      end).

(** The container [compress] writes for the 18-byte input [HomeTable[15]]:
    one chunk, length 18, the run [(15, 1)], the marker, no extras. It does
    not depend on the key. *)
Definition home15_container : list byte :=
  map byte_of_Z [1; 0; 0; 0; 18; 0; 0; 0; 0; 0; 0; 0; 15; 255; 1; 0; 0; 0; 0].

(** The same container cut inside its marker: the one run is decoded, the
    scan reads the eight one-bits of the last byte and runs out of input. *)
Definition cut_in_marker : list byte :=
  map byte_of_Z [1; 0; 0; 0; 18; 0; 0; 0; 0; 0; 0; 0; 15; 255].

(** The container of the 36-byte input made of [HomeTable[3]] twice: two
    chunks, length 36, the run [(3, 2)], the marker, no extras. *)
Definition home3x2_container : list byte :=
  map byte_of_Z [2; 0; 0; 0; 36; 0; 0; 0; 0; 0; 0; 0; 35; 255; 1; 0; 0; 0; 0].

(** CRC-32 as gzip has it (polynomial [0xEDB88320], reflected), bit by bit. *)
Fixpoint crc32_bits (n : nat) (c : Z) : Z :=
  match n with
  | O => c
  | S n' =>
      crc32_bits n' (if Z.testbit c 0 then Z.lxor (Z.shiftr c 1) 0xEDB88320
                     else Z.shiftr c 1)
  end.

Definition crc32 (d : list byte) : Z :=
  Z.lxor (fold_left (fun c b => crc32_bits 8 (Z.lxor c (byte_to_Z b))) d 0xFFFFFFFF)
         0xFFFFFFFF.

(** A gzip member that holds its data in one stored deflate block: the
    ten-byte header (no flags, no time stamp), the block byte 01, the
    length and its complement on two bytes each, the data, the CRC-32 and
    the length on four bytes each, for data of fewer than 65536 bytes.
    [gzip.decompress] accepts such a member and returns the data. *)
Definition gzip_stored (d : list byte) : list byte :=
  map byte_of_Z [31; 139; 8; 0; 0; 0; 0; 0; 0; 255; 1]
  ++ le_bytes 2 (Z.of_nat (length d)) ++ le_bytes 2 (65535 - Z.of_nat (length d))
  ++ d ++ le_bytes 4 (crc32 d) ++ le_bytes 4 (Z.of_nat (length d)).

(** [gzip.decompress] on the members of that form; every other blob is
    refused (the real function accepts more). *)
Definition gunzip_stored (blob : list byte) : option (list byte) :=
  let head := slice blob 0 4 in
  let block := slice blob 10 11 in
  let len := Z.to_nat (le_val (slice blob 11 13)) in
  let nlen := le_val (slice blob 13 15) in
  let d := slice blob 15 (15 + len) in
  let crc := le_val (slice blob (15 + len) (19 + len)) in
  let isize := le_val (slice blob (19 + len) (23 + len)) in
  if bool_decide (head = map byte_of_Z [31; 139; 8; 0]) && bool_decide (block = [x01])
     && (length blob =? 23 + len)%nat && (nlen =? 65535 - Z.of_nat len)
     && (crc =? crc32 d) && (isize =? Z.of_nat len)
  then Some d else None.



(** Extras of one whole chunk, and extras of one chunk and two bytes more. *)
Definition one_chunk_extras : list byte := map byte_of_Z (repeat 65 18).

(** Two literal chunks around a chunk that straddles [home0[2]]: 39 bytes,
    three chunks, all of them extras. *)
Definition sample_input : list byte :=
  [x01; x02] ++ nth 2 home0 [] ++ zeros 19.

(** A chunk equal to the fourth home entry, a chunk equal to the last one,
    and one more byte: 37 bytes, three chunks. *)
Definition mixed_input : list byte :=
  nth 3 home0 [] ++ nth 15 home0 [] ++ [x2a].

(** * Properties *)

(** ** SHA-256 test vectors *)

(** The test vectors of FIPS 180-4 for the empty message and for ["abc"]. *)
Lemma sha256_empty :
  map byte_to_Z (SHA256.sha256 []) =
  [ 0xe3; 0xb0; 0xc4; 0x42; 0x98; 0xfc; 0x1c; 0x14; 0x9a; 0xfb; 0xf4; 0xc8;
    0x99; 0x6f; 0xb9; 0x24; 0x27; 0xae; 0x41; 0xe4; 0x64; 0x9b; 0x93; 0x4c;
    0xa4; 0x95; 0x99; 0x1b; 0x78; 0x52; 0xb8; 0x55 ].
Proof. vm_compute. reflexivity. Qed.

Lemma sha256_abc :
  map byte_to_Z (SHA256.sha256 [x61; x62; x63]) =
  [ 0xba; 0x78; 0x16; 0xbf; 0x8f; 0x01; 0xcf; 0xea; 0x41; 0x41; 0x40; 0xde;
    0x5d; 0xae; 0x22; 0x23; 0xb0; 0x03; 0x61; 0xa3; 0x96; 0x17; 0x7a; 0x9c;
    0xb4; 0x10; 0xff; 0x61; 0xf2; 0x00; 0x15; 0xad ].
Proof. vm_compute. reflexivity. Qed.

Lemma sha256_length (m : list byte) : length (SHA256.sha256 m) = 32%nat.
Proof. reflexivity. Qed.

(** Linear arithmetic with division and remainder by constants. *)
Ltac div_lia := zify; Z.div_mod_to_equations; lia.

(** The check value of CRC-32, and a stored member read back. *)
Lemma crc32_check : crc32 (map byte_of_Z [49; 50; 51; 52; 53; 54; 55; 56; 57]) = 0xCBF43926.
Proof. vm_compute. reflexivity. Qed.

Lemma gunzip_stored_one_chunk :
  gunzip_stored (gzip_stored one_chunk_extras) = Some one_chunk_extras.
Proof. vm_compute. reflexivity. Qed.

(** ** Bytes and little-endian numbers *)

Lemma byte_to_Z_range (b : byte) : 0 <= byte_to_Z b < 256.
Proof.
  unfold byte_to_Z. pose proof (Byte.to_N_bounded b) as H.
  apply N2Z.inj_le in H. simpl in H. lia.
Qed.

Lemma byte_of_to_Z (b : byte) : byte_of_Z (byte_to_Z b) = b.
Proof.
  unfold byte_of_Z, byte_to_Z. rewrite N2Z.id, Byte.of_to_N. reflexivity.
Qed.

Lemma byte_to_of_Z (z : Z) : 0 <= z < 256 -> byte_to_Z (byte_of_Z z) = z.
Proof.
  intros Hz. unfold byte_of_Z, byte_to_Z.
  destruct (Byte.of_N (Z.to_N z)) as [b|] eqn:E.
  - apply Byte.to_of_N in E. rewrite E. apply Z2N.id. lia.
  - apply Byte.of_N_None_iff in E. lia.
Qed.

Lemma le_val_nonneg (bs : list byte) : 0 <= le_val bs.
Proof.
  induction bs as [|b bs IH]; simpl; [lia|].
  pose proof (byte_to_Z_range b). lia.
Qed.

Lemma le_val_bound (bs : list byte) : le_val bs < 2 ^ (8 * Z.of_nat (length bs)).
Proof.
  induction bs as [|b bs IH]; [simpl; lia|].
  cbn [le_val length]. pose proof (byte_to_Z_range b).
  replace (8 * Z.of_nat (S (length bs))) with (8 + 8 * Z.of_nat (length bs)) by lia.
  rewrite Z.pow_add_r by lia. change (2 ^ 8) with 256. lia.
Qed.

Lemma le_val_app (xs ys : list byte) :
  le_val (xs ++ ys) = le_val xs + 2 ^ (8 * Z.of_nat (length xs)) * le_val ys.
Proof.
  induction xs as [|x xs IH]; [simpl; lia|].
  cbn [app le_val length]. rewrite IH.
  replace (8 * Z.of_nat (S (length xs))) with (8 + 8 * Z.of_nat (length xs)) by lia.
  rewrite Z.pow_add_r by lia. change (2 ^ 8) with 256. ring.
Qed.

Lemma le_val_zeros (n : nat) : le_val (zeros n) = 0.
Proof. induction n as [|n IH]; simpl; [reflexivity|]. unfold zeros in IH. rewrite IH. reflexivity. Qed.

Lemma le_bytes_length (n : nat) (v : Z) : length (le_bytes n v) = n.
Proof. revert v. induction n as [|n IH]; intros v; simpl; [reflexivity|]. now rewrite IH. Qed.

Lemma le_val_le_bytes (n : nat) (v : Z) :
  0 <= v < 256 ^ Z.of_nat n -> le_val (le_bytes n v) = v.
Proof.
  revert v. induction n as [|n IH]; intros v Hv.
  - simpl in *. lia.
  - cbn [le_bytes le_val].
    rewrite byte_to_of_Z by (apply Z.mod_pos_bound; lia).
    rewrite IH.
    + pose proof (Z.div_mod v 256). lia.
    + rewrite Nat2Z.inj_succ, Z.pow_succ_r in Hv by lia.
      split; [apply Z.div_pos; lia|].
      apply Z.div_lt_upper_bound; lia.
Qed.

Lemma pack_le_ok (n : nat) (v : Z) :
  0 <= v < 256 ^ Z.of_nat n -> pack_le n v = Ok (le_bytes n v).
Proof.
  intros [H1 H2]. unfold pack_le.
  apply Z.leb_le in H1. apply Z.ltb_lt in H2. now rewrite H1, H2.
Qed.

(** ** Bit arithmetic *)

Lemma mask_mod (v n : Z) : 0 <= n -> Z.land v (Z.shiftl 1 n - 1) = v mod 2 ^ n.
Proof.
  intros Hn. change (Z.shiftl 1 n - 1) with (Z.ones n). now apply Z.land_ones.
Qed.

Lemma testbit_above (a k i : Z) :
  0 <= a < 2 ^ k -> k <= i -> Z.testbit a i = false.
Proof.
  intros Ha Hi.
  destruct (Z.eq_dec a 0) as [->|Hne]; [apply Z.bits_0|].
  apply Z.bits_above_log2; [lia|].
  assert (0 <= k) by (destruct (Z.lt_ge_cases k 0) as [Hk|Hk]; [|exact Hk];
                      rewrite Z.pow_neg_r in Ha by exact Hk; lia).
  assert (Z.log2 a < k) by (apply Z.log2_lt_pow2; lia). lia.
Qed.

Lemma land_shiftl_disjoint (a b k : Z) :
  0 <= k -> 0 <= a < 2 ^ k -> Z.land a (Z.shiftl b k) = 0.
Proof.
  intros Hk Ha. apply Z.bits_inj'. intros i Hi.
  rewrite Z.land_spec, Z.bits_0.
  destruct (Z.lt_ge_cases i k) as [Hlt|Hge].
  - rewrite Z.shiftl_spec_low by lia. apply andb_false_r.
  - rewrite (testbit_above a k i) by lia. reflexivity.
Qed.

Lemma lor_shiftl_add (a b k : Z) :
  0 <= k -> 0 <= a < 2 ^ k -> Z.lor a (Z.shiftl b k) = a + b * 2 ^ k.
Proof.
  intros Hk Ha.
  pose proof (land_shiftl_disjoint a b k Hk Ha) as Hd.
  rewrite <- Z.lxor_lor by exact Hd.
  rewrite <- Z.add_nocarry_lxor by exact Hd.
  now rewrite Z.shiftl_mul_pow2.
Qed.

(** ** The writer, read as one little-endian number

    The bytes flushed and the pending bits together are the number [wval w]
    on [wbits w] bits; writing a field adds it above the bits already there. *)

Lemma writer_init_ok : writer_ok writer_init.
Proof. unfold writer_ok, writer_init; simpl; lia. Qed.

Lemma flush_bytes_spec (fuel : nat) (w : BitWriter) :
  0 <= w_bitlen w -> 0 <= w_bitbuf w < 2 ^ w_bitlen w ->
  w_bitlen w / 8 <= Z.of_nat fuel ->
  writer_ok (flush_bytes fuel w)
  /\ wval (flush_bytes fuel w) = wval w
  /\ wbits (flush_bytes fuel w) = wbits w.
Proof.
  revert w. induction fuel as [|fuel IH]; intros [buf bb bl]; cbn [w_bitlen w_bitbuf];
    intros Hbl Hbb Hfuel.
  - assert (bl < 8).
    { destruct (Z.lt_ge_cases bl 8) as [?|Hge]; [assumption|].
      assert (1 <= bl / 8) by (apply Z.div_le_lower_bound; lia). lia. }
    simpl. unfold writer_ok. simpl. repeat split; lia.
  - cbn [flush_bytes w_bitlen w_bitbuf buf_bytes].
    destruct (8 <=? bl) eqn:E.
    + apply Z.leb_le in E.
      assert (Hdiv : bl / 8 = (bl - 8) / 8 + 1).
      { replace bl with ((bl - 8) + 1 * 8) at 1 by lia.
        now rewrite Z.div_add by lia. }
      assert (Hsplit : 2 ^ bl = 2 ^ 8 * 2 ^ (bl - 8)).
      { rewrite <- Z.pow_add_r by lia. f_equal. lia. }
      specialize (IH (mkWriter (buf ++ [byte_of_Z (Z.land bb 255)])
                               (Z.shiftr bb 8) (bl - 8))).
      cbn [w_bitlen w_bitbuf] in IH.
      destruct IH as (Hok & Hval & Hbits).
      * lia.
      * rewrite Z.shiftr_div_pow2 by lia. split.
        -- apply Z.div_pos; lia.
        -- apply Z.div_lt_upper_bound; lia.
      * lia.
      * split; [exact Hok|]. split.
        -- rewrite Hval. unfold wval. cbn [buf_bytes w_bitbuf].
           rewrite le_val_app, length_app. cbn [length le_val].
           change 255 with (Z.ones 8). rewrite Z.land_ones by lia.
           rewrite byte_to_of_Z by (apply Z.mod_pos_bound; lia).
           rewrite Z.shiftr_div_pow2 by lia.
           replace (8 * Z.of_nat (length buf + 1)) with (8 * Z.of_nat (length buf) + 8) by lia.
           rewrite Z.pow_add_r by lia.
           pose proof (Z.div_mod bb (2 ^ 8)) as Hdm. change (2 ^ 8) with 256 in *.
           nia.
        -- rewrite Hbits. unfold wbits. cbn [buf_bytes w_bitlen].
           rewrite length_app. cbn [length]. lia.
    + apply Z.leb_gt in E. unfold writer_ok. simpl. repeat split; lia.
Qed.

Lemma write_bits_spec (w : BitWriter) (value bits : Z) :
  writer_ok w -> 0 <= bits ->
  writer_ok (write_bits w value bits)
  /\ wval (write_bits w value bits) = wval w + 2 ^ wbits w * (value mod 2 ^ bits)
  /\ wbits (write_bits w value bits) = wbits w + bits.
Proof.
  intros [Hbl Hbb] Hbits. unfold write_bits.
  rewrite mask_mod by exact Hbits.
  rewrite lor_shiftl_add by lia.
  pose proof (Z.mod_pos_bound value (2 ^ bits) ltac:(lia)) as Hm.
  set (bb' := w_bitbuf w + value mod 2 ^ bits * 2 ^ w_bitlen w).
  assert (Hbb' : 0 <= bb' < 2 ^ (w_bitlen w + bits)).
  { unfold bb'. rewrite Z.pow_add_r by lia. nia. }
  destruct (flush_bytes_spec (Z.to_nat ((w_bitlen w + bits) / 8))
              (mkWriter (buf_bytes w) bb' (w_bitlen w + bits))) as (Hok & Hval & Hb).
  - simpl. lia.
  - simpl. exact Hbb'.
  - simpl. rewrite Z2Nat.id; [lia|]. apply Z.div_pos; lia.
  - split; [exact Hok|]. split.
    + rewrite Hval. unfold wval, wbits, bb'. cbn [buf_bytes w_bitbuf].
      rewrite Z.pow_add_r by lia. ring.
    + rewrite Hb. unfold wbits. simpl. lia.
Qed.

Lemma pack_nonneg (fs : list (Z * Z)) : widths_ok fs -> 0 <= pack fs.
Proof.
  induction 1 as [|[v n] fs Hn _ IH]; simpl in *; [lia|].
  pose proof (Z.mod_pos_bound v (2 ^ n) ltac:(lia)). nia.
Qed.

Lemma total_bits_nonneg (fs : list (Z * Z)) : widths_ok fs -> 0 <= total_bits fs.
Proof. induction 1 as [|[v n] fs Hn _ IH]; simpl in *; lia. Qed.

Lemma pack_bound (fs : list (Z * Z)) : widths_ok fs -> pack fs < 2 ^ total_bits fs.
Proof.
  induction 1 as [|[v n] fs Hn Hfs IH]; simpl in *; [lia|].
  pose proof (total_bits_nonneg fs Hfs).
  pose proof (Z.mod_pos_bound v (2 ^ n) ltac:(lia)).
  rewrite Z.pow_add_r by lia. nia.
Qed.

Lemma pack_app (fs gs : list (Z * Z)) :
  widths_ok fs -> pack (fs ++ gs) = pack fs + 2 ^ total_bits fs * pack gs.
Proof.
  induction 1 as [|[v n] fs Hn Hfs IH]; simpl in *; [lia|].
  pose proof (total_bits_nonneg fs Hfs).
  rewrite IH, Z.pow_add_r by lia. ring.
Qed.

Lemma total_bits_app (fs gs : list (Z * Z)) :
  total_bits (fs ++ gs) = total_bits fs + total_bits gs.
Proof. induction fs as [|f fs IH]; simpl; lia. Qed.

Lemma widths_ok_app (fs gs : list (Z * Z)) :
  widths_ok fs -> widths_ok gs -> widths_ok (fs ++ gs).
Proof. unfold widths_ok. intros. apply Forall_app. now split. Qed.

Lemma write_all_spec (fs : list (Z * Z)) (w : BitWriter) :
  writer_ok w -> widths_ok fs ->
  writer_ok (write_all w fs)
  /\ wval (write_all w fs) = wval w + 2 ^ wbits w * pack fs
  /\ wbits (write_all w fs) = wbits w + total_bits fs.
Proof.
  intros Hw Hfs. revert w Hw.
  induction Hfs as [|[v n] fs Hn Hfs IH]; intros w Hw.
  - cbn [write_all fold_left pack total_bits fold_right].
    split; [exact Hw|]. split; lia.
  - cbn [write_all fold_left fst snd]. simpl in Hn.
    destruct (write_bits_spec w v n Hw Hn) as (Hok & Hval & Hb).
    destruct (IH _ Hok) as (Hok' & Hval' & Hb').
    unfold write_all in *. split; [exact Hok'|]. split.
    + rewrite Hval', Hval, Hb.
      assert (0 <= wbits w) by (unfold wbits; destruct Hw; lia).
      cbn [pack]. rewrite Z.pow_add_r by lia. ring.
    + rewrite Hb', Hb. unfold total_bits. simpl. lia.
Qed.

Lemma write_all_app (w : BitWriter) (fs gs : list (Z * Z)) :
  write_all w (fs ++ gs) = write_all (write_all w fs) gs.
Proof. unfold write_all. apply fold_left_app. Qed.

Lemma flush_final_spec (w : BitWriter) :
  writer_ok w ->
  le_val (flush_final w) = wval w
  /\ Z.of_nat (length (flush_final w)) = (wbits w + 7) / 8.
Proof.
  intros [Hbl Hbb]. unfold flush_final, wval, wbits.
  destruct (0 <? w_bitlen w) eqn:E.
  - apply Z.ltb_lt in E. split.
    + rewrite le_val_app. cbn [le_val].
      change 255 with (Z.ones 8). rewrite Z.land_ones by lia.
      assert (w_bitbuf w < 2 ^ 8).
      { apply Z.lt_le_trans with (2 ^ w_bitlen w); [lia|].
        apply Z.pow_le_mono_r; lia. }
      rewrite Z.mod_small by lia.
      rewrite byte_to_of_Z by (change 256 with (2 ^ 8); lia). lia.
    + rewrite length_app. cbn [length].
      replace (8 * Z.of_nat (length (buf_bytes w)) + w_bitlen w + 7)
        with ((w_bitlen w + 7) + Z.of_nat (length (buf_bytes w)) * 8) by lia.
      rewrite Z.div_add by lia.
      assert ((w_bitlen w + 7) / 8 = 1).
      { symmetry. apply Z.div_unique with (w_bitlen w - 1); lia. }
      lia.
  - apply Z.ltb_ge in E. assert (w_bitlen w = 0) as Hz by lia.
    rewrite Hz in *. assert (w_bitbuf w = 0) as -> by (simpl in Hbb; lia). split.
    + lia.
    + replace (8 * Z.of_nat (length (buf_bytes w)) + 0 + 7)
        with (7 + Z.of_nat (length (buf_bytes w)) * 8) by lia.
      rewrite Z.div_add by lia. reflexivity.
Qed.

(** ** The reader, read as one little-endian number

    The pending bits and the bytes not read yet are the number [rval br];
    reading [n] bits takes its low [n] bits away. *)

Lemma fill_enough (rest : list byte) (p : nat) (bb bl n : Z) :
  0 <= bl -> 0 <= bb < 2 ^ bl -> n <= bl + 8 * Z.of_nat (length rest) ->
  exists (k : nat) (bb' : Z),
    fill rest p bb bl n = (true, ((p + k)%nat, bb', bl + 8 * Z.of_nat k))
    /\ (k <= length rest)%nat
    /\ bb' + 2 ^ (bl + 8 * Z.of_nat k) * le_val (drop k rest) = bb + 2 ^ bl * le_val rest
    /\ 0 <= bb' < 2 ^ (bl + 8 * Z.of_nat k)
    /\ n <= bl + 8 * Z.of_nat k
    /\ (bl + 8 * Z.of_nat k < n + 8 \/ k = 0%nat).
Proof.
  revert p bb bl. induction rest as [|b rest IH]; intros p bb bl Hbl Hbb Hn.
  - exists 0%nat, bb. cbn [fill length] in *.
    assert ((bl <? n) = false) as -> by (apply Z.ltb_ge; lia).
    rewrite Nat.add_0_r, Z.add_0_r. cbn [drop]. repeat split; lia.
  - cbn [fill]. destruct (bl <? n) eqn:E.
    + apply Z.ltb_lt in E.
      pose proof (byte_to_Z_range b) as Hb.
      rewrite lor_shiftl_add by lia.
      destruct (IH (S p) (bb + byte_to_Z b * 2 ^ bl) (bl + 8)) as (k & bb' & Hf & Hk & Hv & Hr & Hge & Hlt).
      * lia.
      * rewrite Z.pow_add_r by lia. change (2 ^ 8) with 256. nia.
      * cbn [length] in Hn. lia.
      * exists (S k), bb'.
        replace (bl + 8 * Z.of_nat (S k)) with (bl + 8 + 8 * Z.of_nat k) by lia.
        replace (p + S k)%nat with (S p + k)%nat by lia.
        split; [exact Hf|]. split; [cbn [length]; lia|]. split.
        { cbn [drop]. rewrite Hv. cbn [le_val].
          rewrite Z.pow_add_r by lia. change (2 ^ 8) with 256. ring. }
        split; [exact Hr|]. split; [exact Hge|].
        left. destruct Hlt as [Hlt| ->]; lia.
    + apply Z.ltb_ge in E. exists 0%nat, bb.
      rewrite Nat.add_0_r, Z.add_0_r. cbn [drop]. repeat split; lia.
Qed.

Lemma fill_short (rest : list byte) (p : nat) (bb bl n : Z) :
  bl + 8 * Z.of_nat (length rest) < n ->
  exists bb' bl', fill rest p bb bl n = (false, ((p + length rest)%nat, bb', bl')).
Proof.
  revert p bb bl. induction rest as [|b rest IH]; intros p bb bl Hn.
  - cbn [fill length] in *.
    assert ((bl <? n) = true) as -> by (apply Z.ltb_lt; lia).
    rewrite Nat.add_0_r. eauto.
  - cbn [fill length] in *.
    assert ((bl <? n) = true) as -> by (apply Z.ltb_lt; lia).
    destruct (IH (S p) (Z.lor bb (Z.shiftl (byte_to_Z b) bl)) (bl + 8)) as (bb' & bl' & Hf);
      [lia|].
    rewrite Hf. replace (S p + length rest)%nat with (p + S (length rest))%nat by lia.
    eauto.
Qed.

Lemma read_bits_enough (br : BitReader) (n : Z) :
  reader_ok br -> 0 <= n <= avail br ->
  exists br',
    read_bits br n = (Ok (rval br mod 2 ^ n), br')
    /\ reader_ok br'
    /\ data br' = data br
    /\ rval br' = rval br / 2 ^ n
    /\ avail br' = avail br - n
    /\ (pos br <= pos br')%nat.
Proof.
  intros (Hpos & Hbl & Hbb) Hn. unfold avail in Hn.
  destruct (fill_enough (drop (pos br) (data br)) (pos br) (bitbuf br) (bitlen br) n)
    as (k & bb' & Hf & Hk & Hv & Hr & Hge & Hlt).
  - lia.
  - exact Hbb.
  - rewrite length_drop. lia.
  - rewrite length_drop in Hk.
    unfold read_bits. rewrite Hf.
    set (bl' := bitlen br + 8 * Z.of_nat k) in *.
    set (L := le_val (drop k (drop (pos br) (data br)))) in *.
    assert (HL : 0 <= L) by apply le_val_nonneg.
    assert (Hsplit : 2 ^ bl' = 2 ^ n * 2 ^ (bl' - n)).
    { rewrite <- Z.pow_add_r by lia. f_equal. lia. }
    assert (Hrv : rval br = bb' + 2 ^ n * (2 ^ (bl' - n) * L)).
    { unfold rval. rewrite <- Hv, Hsplit. ring. }
    eexists. split.
    { f_equal. f_equal. rewrite mask_mod by lia. rewrite Hrv.
      rewrite Z.mul_comm, Z.mod_add by lia. reflexivity. }
    unfold reader_ok, rval, avail. cbn [data pos bitbuf bitlen].
    rewrite <- drop_drop. fold L.
    split.
    { split; [lia|]. split; [lia|].
      rewrite Z.shiftr_div_pow2 by lia. split.
      - apply Z.div_pos; lia.
      - apply Z.div_lt_upper_bound; lia. }
    split; [reflexivity|]. split.
    { rewrite Z.shiftr_div_pow2 by lia.
      unfold rval in Hrv. rewrite Hrv.
      rewrite (Z.mul_comm (2 ^ n)), Z.div_add by lia. reflexivity. }
    split; [|lia].
    unfold bl'. lia.
Qed.

Lemma read_bits_short (br : BitReader) (n : Z) :
  avail br < n ->
  exists br',
    read_bits br n = (Err TruncatedBitstream, br')
    /\ data br' = data br
    /\ pos br' = (pos br + length (drop (pos br) (data br)))%nat.
Proof.
  intros Hn. unfold avail in Hn.
  destruct (fill_short (drop (pos br) (data br)) (pos br) (bitbuf br) (bitlen br) n)
    as (bb' & bl' & Hf).
  - rewrite length_drop. exact Hn.
  - unfold read_bits. rewrite Hf. eexists. split; [reflexivity|]. split; reflexivity.
Qed.

(** A reader whose number starts with the field [(v, n)] reads it, and is
    left with the rest [y]. *)
Lemma read_field (br : BitReader) (v n y : Z) :
  reader_ok br -> 0 <= n <= avail br -> 0 <= y ->
  rval br = v mod 2 ^ n + 2 ^ n * y ->
  exists br',
    read_bits br n = (Ok (v mod 2 ^ n), br')
    /\ reader_ok br' /\ data br' = data br /\ rval br' = y
    /\ avail br' = avail br - n /\ (pos br <= pos br')%nat.
Proof.
  intros Hok Hn Hy Hv.
  destruct (read_bits_enough br n Hok Hn) as (br' & Hr & Hok' & Hd & Hv' & Ha & Hp).
  pose proof (Z.mod_pos_bound v (2 ^ n) ltac:(lia)) as Hm.
  assert (Hmod : rval br mod 2 ^ n = v mod 2 ^ n).
  { rewrite Hv, (Z.mul_comm (2 ^ n)), Z.mod_add by lia. apply Z.mod_mod. lia. }
  assert (Hdiv : rval br / 2 ^ n = y).
  { rewrite Hv, (Z.mul_comm (2 ^ n)), Z.div_add by lia.
    rewrite Z.div_small by lia. lia. }
  exists br'. rewrite Hr, Hmod, Hv', Hdiv.
  split; [reflexivity|]. split; [assumption|]. split; [assumption|].
  split; [reflexivity|]. split; assumption.
Qed.

Lemma read_all_spec (fs : list (Z * Z)) (br : BitReader) (y : Z) :
  reader_ok br -> widths_ok fs -> 0 <= y ->
  total_bits fs <= avail br ->
  rval br = pack fs + 2 ^ total_bits fs * y ->
  exists br',
    read_all (map snd fs) br = (Ok (map (fun f => fst f mod 2 ^ snd f) fs), br')
    /\ reader_ok br' /\ data br' = data br /\ rval br' = y
    /\ avail br' = avail br - total_bits fs.
Proof.
  intros Hok Hfs Hy. revert br Hok.
  induction Hfs as [|[v n] fs Hn Hfs IH]; intros br Hok Hav Hv.
  - exists br. cbn [map read_all rret total_bits fold_right pack] in *.
    rewrite Z.pow_0_r in Hv.
    split; [reflexivity|]. split; [assumption|]. split; [reflexivity|]. split; lia.
  - cbn [snd] in Hn. cbn [map fst snd read_all].
    pose proof (total_bits_nonneg fs Hfs) as Ht.
    pose proof (pack_nonneg fs Hfs) as Hp.
    assert (Htot : total_bits ((v, n) :: fs) = n + total_bits fs) by reflexivity.
    rewrite Htot in *.
    destruct (read_field br v n (pack fs + 2 ^ total_bits fs * y))
      as (br1 & Hr & Hok1 & Hd1 & Hv1 & Ha1 & _); [assumption|lia|nia| |].
    { rewrite Hv. cbn [pack]. rewrite Z.pow_add_r by lia. ring. }
    destruct (IH br1 Hok1) as (br2 & Hr2 & Hok2 & Hd2 & Hv2 & Ha2); [lia|exact Hv1|].
    exists br2. unfold rbind, get_bits. rewrite Hr, Hr2. unfold rret.
    split; [reflexivity|]. split; [assumption|]. split; [congruence|].
    split; [assumption|lia].
Qed.

(** A stream placed after [pre] and before [post], read from its start. *)
Lemma reader_at_stream (pre stream post : list byte) :
  let br := mkReader (pre ++ stream ++ post) (length pre) 0 0 in
  reader_ok br
  /\ rval br = le_val stream + 2 ^ (8 * Z.of_nat (length stream)) * le_val post
  /\ avail br = 8 * Z.of_nat (length stream + length post).
Proof.
  cbn zeta. unfold reader_ok, rval, avail. cbn [data pos bitbuf bitlen].
  rewrite drop_app_length, le_val_app, !length_app.
  replace (length pre + (length stream + length post) - length pre)%nat
    with (length stream + length post)%nat by lia.
  cbn [Z.pow]. repeat split; try lia.
Qed.

(** C4: fields written with [write_bits] and flushed are read back by
    [read_bits], with the same widths in the same order, as the values
    written, each masked to its width; the stream holds the fields from the
    least significant bit of its first byte upwards; and [read_bits] fails
    with the truncated-stream error when fewer than [n] bits are left. *)
Theorem write_read_bits_roundtrip (fs : list (Z * Z)) (pre post : list byte) :
  widths_ok fs ->
  let stream := flush_final (write_all writer_init fs) in
  le_val stream = pack fs
  /\ fst (read_all (map snd fs) (mkReader (pre ++ stream ++ post) (length pre) 0 0))
     = Ok (map (fun f => Z.land (fst f) (Z.ones (snd f))) fs)
  /\ (forall br n, avail br < n -> fst (read_bits br n) = Err TruncatedBitstream).
Proof.
  intros Hfs stream.
  destruct (write_all_spec fs writer_init writer_init_ok Hfs) as (Hok & Hval & Hbits).
  destruct (flush_final_spec _ Hok) as (Hle & Hlen). fold stream in Hle, Hlen.
  change (wval writer_init) with 0 in Hval. change (wbits writer_init) with 0 in *.
  rewrite Z.pow_0_r in Hval.
  assert (Hpack : le_val stream = pack fs) by lia.
  split; [exact Hpack|]. split.
  - destruct (reader_at_stream pre stream post) as (Hrok & Hrv & Hav).
    pose proof (total_bits_nonneg fs Hfs) as Ht.
    assert (Hb : total_bits fs <= 8 * Z.of_nat (length stream)).
    { rewrite Hlen, Hbits.
      pose proof (Z.div_mod (0 + total_bits fs + 7) 8 ltac:(lia)).
      pose proof (Z.mod_pos_bound (0 + total_bits fs + 7) 8 ltac:(lia)). lia. }
    destruct (read_all_spec fs _
                (2 ^ (8 * Z.of_nat (length stream) - total_bits fs) * le_val post) Hrok Hfs)
      as (br' & Hr & _).
    + pose proof (le_val_nonneg post). nia.
    + rewrite Hav. lia.
    + rewrite Hrv, Hpack, Z.mul_assoc, <- Z.pow_add_r by lia.
      do 3 f_equal. lia.
    + rewrite Hr. cbn [fst]. f_equal. apply map_ext_Forall.
      eapply Forall_impl; [exact Hfs|]. intros [v n] Hn. cbn [fst snd] in *.
      now rewrite Z.land_ones.
  - intros br n Hn. destruct (read_bits_short br n Hn) as (br' & -> & _). reflexivity.
Qed.

Lemma write_read_bits_roundtrip_witness :
  fst (read_all [4; 1; 3; 5; 9]
         (mkReader (flush_final (write_all writer_init
                      [(3, 4); (1, 1); (7, 3); (31, 5); (1023, 9)])) 0 0 0))
  = Ok [3; 1; 7; 31; 511].
Proof.
  apply (write_read_bits_roundtrip [(3, 4); (1, 1); (7, 3); (31, 5); (1023, 9)] [] []).
  repeat constructor; simpl; lia.
Defined.

(** ** Chunker *)

Lemma chunks_of_nil : chunks_of [] = [].
Proof. reflexivity. Qed.

Lemma chunks_of_step (d : list byte) :
  d <> [] -> chunks_of d = take CHUNK_SIZE d :: chunks_of (drop CHUNK_SIZE d).
Proof.
  intros Hd. unfold chunks_of, range_step, CHUNK_SIZE.
  assert (Hlen : (0 < length d)%nat) by (destruct d; [congruence|simpl; lia]).
  rewrite length_drop.
  replace ((length d + 18 - 1) / 18)%nat with (S ((length d - 18 + 18 - 1) / 18))%nat
    by div_lia.
  rewrite !map_map. cbn [seq map].
  apply (f_equal2 cons); [reflexivity|].
  rewrite <- seq_shift, map_map. apply map_ext. intros k.
  unfold slice. rewrite drop_drop.
  replace (S k * 18 + 18 - S k * 18)%nat with 18%nat by lia.
  replace (k * 18 + 18 - k * 18)%nat with 18%nat by lia.
  replace (S k * 18)%nat with (18 + k * 18)%nat by lia. reflexivity.
Qed.

Lemma chunks_of_ind (P : list byte -> Prop) :
  P [] -> (forall d, d <> [] -> P (drop CHUNK_SIZE d) -> P d) -> forall d, P d.
Proof.
  intros Hnil Hstep d.
  remember (length d) as n eqn:Hn. revert d Hn.
  induction n as [n IH] using lt_wf_ind. intros d Hn.
  destruct d as [|b d']; [exact Hnil|].
  apply Hstep; [congruence|].
  apply (IH (length (drop CHUNK_SIZE (b :: d')))); [|reflexivity].
  rewrite length_drop. subst n. unfold CHUNK_SIZE. simpl. lia.
Qed.

Lemma concat_chunks_of (d : list byte) : concat (chunks_of d) = d.
Proof.
  induction d as [|d Hd IH] using chunks_of_ind; [reflexivity|].
  rewrite chunks_of_step by exact Hd. cbn [concat]. rewrite IH. apply take_drop.
Qed.

Lemma length_chunks_of (d : list byte) :
  length (chunks_of d) = ((length d + 17) / 18)%nat.
Proof.
  unfold chunks_of, range_step, CHUNK_SIZE. rewrite !length_map, length_seq.
  f_equal. lia.
Qed.

Lemma chunks_of_full (d : list byte) :
  (length d mod 18 = 0)%nat -> Forall (fun c => length c = CHUNK_SIZE) (chunks_of d).
Proof.
  induction d as [|d Hd IH] using chunks_of_ind; intros Hm; [constructor|].
  rewrite chunks_of_step by exact Hd.
  assert (18 <= length d)%nat.
  { destruct d; [congruence|]. cbn [length] in *. div_lia. }
  constructor.
  - rewrite length_take. unfold CHUNK_SIZE. lia.
  - apply IH. rewrite length_drop. unfold CHUNK_SIZE. div_lia.
Qed.

(** [chunk_file] splits the input followed by [pad] zero bytes, whose length
    is a multiple of [CHUNK_SIZE]. *)
Lemma chunk_file_padded (d : list byte) :
  let pad := Z.to_nat ((- Z.of_nat (length d)) mod 18) in
  chunk_file d = (chunks_of (d ++ zeros pad), length d)
  /\ length (d ++ zeros pad) = (length d + pad)%nat
  /\ ((length d + pad) mod 18 = 0)%nat.
Proof.
  intros pad. unfold chunk_file.
  change (Z.of_nat CHUNK_SIZE) with 18. fold pad.
  assert (Hd : (if (0 <? pad)%nat then d ++ zeros pad else d) = d ++ zeros pad).
  { destruct (0 <? pad)%nat eqn:E; [reflexivity|].
    apply Nat.ltb_ge in E. assert (pad = 0%nat) as -> by lia.
    cbn. now rewrite app_nil_r. }
  rewrite Hd. split; [reflexivity|]. split.
  - rewrite length_app. unfold zeros. now rewrite length_replicate.
  - unfold pad. div_lia.
Qed.

(** The chunks of a file: full chunks that spell out the file and its
    padding. *)
Lemma chunk_file_chunks (d : list byte) :
  let pad := Z.to_nat ((- Z.of_nat (length d)) mod 18) in
  snd (chunk_file d) = length d
  /\ concat (fst (chunk_file d)) = d ++ zeros pad
  /\ Forall (fun c => length c = CHUNK_SIZE) (fst (chunk_file d))
  /\ (length (fst (chunk_file d)) * CHUNK_SIZE = length d + pad)%nat.
Proof.
  intros pad. destruct (chunk_file_padded d) as (Hcf & Hlen & Hmod).
  cbv zeta in Hcf, Hlen, Hmod. fold pad in Hcf, Hlen, Hmod. rewrite Hcf.
  cbn [fst snd]. split; [reflexivity|]. split; [apply concat_chunks_of|].
  split; [apply chunks_of_full; now rewrite Hlen|].
  rewrite length_chunks_of, Hlen. unfold CHUNK_SIZE. div_lia.
Qed.

(** C9: for an input of length [L] the chunker appends exactly
    [pad = (-L) mod CHUNK_SIZE] zero bytes and splits the result into chunks
    of exactly [CHUNK_SIZE] bytes, which it returns together with [L]; an
    empty input gives no chunk, and [pad] is 0 exactly when [L] is a multiple
    of [CHUNK_SIZE]. *)
Theorem chunk_file_spec (d : list byte) :
  let L := length d in
  let pad := Z.to_nat ((- Z.of_nat L) mod 18) in
  snd (chunk_file d) = L
  /\ concat (fst (chunk_file d)) = d ++ zeros pad
  /\ Forall (fun c => length c = CHUNK_SIZE) (fst (chunk_file d))
  /\ (length (fst (chunk_file d)) * CHUNK_SIZE = L + pad)%nat
  /\ (L = 0%nat -> fst (chunk_file d) = [])
  /\ (pad = 0%nat <-> (L mod CHUNK_SIZE = 0)%nat)
  /\ (pad < CHUNK_SIZE)%nat.
Proof.
  intros L pad.
  destruct (chunk_file_padded d) as (Hcf & Hlen & Hmod).
  cbv zeta in Hcf, Hlen, Hmod. fold L in Hcf, Hlen, Hmod. fold pad in Hcf, Hlen, Hmod.
  rewrite Hcf. cbn [fst snd].
  split; [reflexivity|]. split; [apply concat_chunks_of|].
  split; [apply chunks_of_full; now rewrite Hlen|].
  split; [rewrite length_chunks_of, Hlen; unfold CHUNK_SIZE; div_lia|].
  split.
  - intros HL. assert (pad = 0%nat) as Hp by (unfold pad; rewrite HL; reflexivity).
    rewrite Hp. destruct d; [reflexivity|]. unfold L in HL. discriminate.
  - unfold CHUNK_SIZE. split; unfold pad; div_lia.
Qed.

(** ** Run-length encoder *)

Lemma well_formed_consumed (e : emitted) : well_formed e -> 1 <= consumed e <= 256.
Proof. destruct e; simpl; lia. Qed.

Lemma fields_widths_ok (e : emitted) : widths_ok (fields e).
Proof. destruct e; repeat constructor; simpl; lia. Qed.

Lemma flat_fields_widths_ok (es : list emitted) : widths_ok (flat_map fields es).
Proof.
  induction es as [|e es IH]; [constructor|].
  cbn [flat_map]. apply widths_ok_app; [apply fields_widths_ok|exact IH].
Qed.

Lemma sum_consumed_app (es fs : list emitted) :
  sum_consumed (es ++ fs) = sum_consumed es + sum_consumed fs.
Proof. induction es as [|e es IH]; simpl; [reflexivity|]. unfold sum_consumed in *. lia. Qed.

Lemma encode_run_done (fuel : nat) (w : BitWriter) (t : Z) (log : list emitted) :
  encode_run fuel w t 0 log = (w, log).
Proof. destruct fuel; reflexivity. Qed.

(** In the branch for [rem > 8] the source's [small_run] is 8 and its [M] is
    not negative. *)
Lemma extended_choice (rem : Z) :
  8 < rem ->
  (if rem <? 8 then rem else 8) = 8
  /\ 0 <= Z.min 31 (rem / 8 - 1) <= 31
  /\ 8 <= 8 * (Z.min 31 (rem / 8 - 1) + 1) <= rem.
Proof.
  intros Hrem. assert ((rem <? 8) = false) as -> by (apply Z.ltb_ge; lia).
  split; [reflexivity|]. div_lia.
Qed.

Lemma encode_run_spec (fuel : nat) (w : BitWriter) (t rem : Z) (log : list emitted) :
  0 <= rem < Z.of_nat fuel ->
  exists es,
    encode_run fuel w t rem log = (write_all w (flat_map fields es), log ++ es)
    /\ Forall (fun e => type_of e = t /\ well_formed e) es
    /\ sum_consumed es = rem.
Proof.
  revert w rem log. induction fuel as [|fuel IH]; intros w rem log Hrem; [lia|].
  cbn [encode_run]. destruct (0 <? rem) eqn:E0.
  - apply Z.ltb_lt in E0. destruct (rem <=? 8) eqn:E8.
    + apply Z.leb_le in E8. exists [ShortForm t (rem - 1)].
      rewrite encode_run_done. split; [reflexivity|]. split.
      * repeat constructor; simpl; lia.
      * simpl. lia.
    + apply Z.leb_gt in E8.
      destruct (extended_choice rem E8) as (Hs & HM & Hused).
      cbv zeta. rewrite Hs.
      set (M := Z.min 31 (rem / 8 - 1)) in *.
      assert ((M <? 0) = false) as -> by (apply Z.ltb_ge; lia).
      destruct (IH (write_bits (write_bits (write_bits (write_bits w t 4) 1 1) (8 - 1) 3) M 5)
                   (rem - 8 * (M + 1)) (log ++ [Extended t 8 M]))
        as (es & Hrun & Hwf & Hsum); [lia|].
      exists (Extended t 8 M :: es). rewrite Hrun. split.
      * rewrite <- app_assoc. reflexivity.
      * split.
        -- constructor; [|exact Hwf]. simpl. lia.
        -- cbn [sum_consumed fold_right consumed]. unfold sum_consumed in Hsum. lia.
  - apply Z.ltb_ge in E0. exists []. rewrite app_nil_r.
    split; [reflexivity|]. split; [constructor|]. simpl. lia.
Qed.

Lemma scan_run_spec (fuel : nat) (types : list Z) (t : Z) (j : nat) :
  (j <= length types)%nat ->
  let j' := scan_run fuel types t j in
  (j <= j' <= length types)%nat
  /\ forall k, (j <= k < j')%nat -> types !! k = Some t.
Proof.
  revert j. induction fuel as [|fuel IH]; intros j Hj; cbn [scan_run].
  - split; [lia|]. intros k Hk. lia.
  - destruct (types !! j) as [t'|] eqn:El.
    + destruct (t' =? t) eqn:Et.
      * apply Z.eqb_eq in Et. subst t'.
        apply lookup_lt_Some in El as Hlt.
        destruct (IH (S j)) as (Hr & Hall); [lia|].
        split; [lia|]. intros k Hk.
        destruct (Nat.eq_dec k j) as [->|Hne]; [exact El|]. apply Hall. lia.
      * split; [lia|]. intros k Hk. lia.
    + split; [lia|]. intros k Hk. lia.
Qed.

Lemma drop_run (types : list Z) (t : Z) (i j : nat) :
  (i <= j <= length types)%nat ->
  (forall k, (i <= k < j)%nat -> types !! k = Some t) ->
  drop i types = replicate (j - i) t ++ drop j types.
Proof.
  intros Hij Hall.
  rewrite <- (take_drop (j - i) (drop i types)), drop_drop.
  replace (i + (j - i))%nat with j by lia. f_equal.
  apply list_eq. intros k.
  destruct (Nat.lt_ge_cases k (j - i)) as [Hlt|Hge].
  - rewrite lookup_take_lt, lookup_drop, lookup_replicate_2 by lia. apply Hall. lia.
  - rewrite lookup_take_ge by lia. symmetry. apply lookup_replicate_None. lia.
Qed.

Lemma sum_consumed_nonneg (es : list emitted) :
  Forall well_formed es -> 0 <= sum_consumed es.
Proof.
  induction 1 as [|e es He _ IH]; simpl; [lia|].
  pose proof (well_formed_consumed e He). lia.
Qed.

Lemma expand_same_type (es : list emitted) (t : Z) (n : nat) :
  Forall (fun e => type_of e = t /\ well_formed e) es ->
  sum_consumed es = Z.of_nat n ->
  expand_types es = replicate n t.
Proof.
  intros Hwf. revert n. induction Hwf as [|e es [Ht He] Hes IH]; intros n Hn.
  - simpl in Hn. assert (n = 0%nat) as -> by lia. reflexivity.
  - cbn [expand_types flat_map]. change (sum_consumed (e :: es))
      with (consumed e + sum_consumed es) in Hn.
    pose proof (well_formed_consumed e He) as Hc.
    assert (0 <= sum_consumed es).
    { apply sum_consumed_nonneg. eapply Forall_impl; [exact Hes|]. now intros ? [_ ?]. }
    fold (expand_types es).
    rewrite (IH (n - Z.to_nat (consumed e))%nat) by lia.
    rewrite Ht, <- replicate_add. f_equal. lia.
Qed.

Lemma encode_loop_spec (fuel : nat) (types : list Z) (i : nat) (w : BitWriter)
    (log : list emitted) :
  (length types - i <= fuel)%nat ->
  exists es,
    encode_loop fuel types i w log = (write_all w (flat_map fields es), log ++ es)
    /\ Forall (fun e => In (type_of e) types /\ well_formed e) es
    /\ expand_types es = drop i types.
Proof.
  revert i w log. induction fuel as [|fuel IH]; intros i w log Hfuel.
  - exists []. cbn [encode_loop]. rewrite app_nil_r.
    split; [reflexivity|]. split; [constructor|].
    rewrite drop_ge by lia. reflexivity.
  - cbn [encode_loop]. destruct (types !! i) as [t|] eqn:El.
    + apply lookup_lt_Some in El as Hlt.
      destruct (scan_run_spec (length types - S i) types t (S i) ltac:(lia)) as (Hj & Hall).
      set (j := scan_run (length types - S i) types t (S i)) in *.
      destruct (encode_run_spec (S (Z.to_nat (Z.of_nat (j - i)))) w t (Z.of_nat (j - i)) log)
        as (es1 & Hrun & Hwf1 & Hsum1); [lia|].
      rewrite Hrun.
      destruct (IH j (write_all w (flat_map fields es1)) (log ++ es1)) as (es2 & Hloop & Hwf2 & Hex2);
        [lia|].
      exists (es1 ++ es2). rewrite Hloop. split.
      * rewrite flat_map_app, write_all_app, app_assoc. reflexivity.
      * split.
        -- apply Forall_app. split; [|exact Hwf2].
           eapply Forall_impl; [exact Hwf1|]. intros e [Ht He]. split; [|exact He].
           rewrite Ht. apply list_elem_of_In. eapply list_elem_of_lookup_2. exact El.
        -- unfold expand_types in *. rewrite flat_map_app, Hex2.
           rewrite (drop_run types t i j); [|lia|].
           ++ f_equal. apply (expand_same_type es1 t (j - i) Hwf1 Hsum1).
           ++ intros k Hk. destruct (Nat.eq_dec k i) as [->|Hne]; [exact El|].
              apply Hall. lia.
    + exists []. rewrite app_nil_r. split; [reflexivity|]. split; [constructor|].
      apply lookup_ge_None in El. rewrite drop_ge by lia. reflexivity.
Qed.

Lemma encode_types_spec (types : list Z) :
  exists es,
    encode_types types
    = (flush_final (write_all writer_init (flat_map fields es ++ [(511, 9)])), es)
    /\ Forall (fun e => In (type_of e) types /\ well_formed e) es
    /\ expand_types es = types.
Proof.
  destruct (encode_loop_spec (length types) types 0 writer_init []) as (es & Hl & Hwf & Hex);
    [lia|].
  exists es. unfold encode_types. rewrite Hl. cbn [app].
  rewrite write_all_app. split; [reflexivity|]. split; [exact Hwf|exact Hex].
Qed.

(** C10: whatever the Type sequence, every sub-run the run-splitting loop
    emits is a short form for 1 to 8 chunks or an extended form with
    [small_run = 8] and [0 <= M <= 31]; the fallback branch is never taken;
    and every sub-run stands for between 1 and 256 chunks. The arithmetic
    behind it: for [rem > 8] the source's [small_run] is 8 and its
    [M = min(31, rem // small_run - 1)] is not negative. *)
Theorem fallback_unreachable (types : list Z) :
  Forall (fun e => well_formed e /\ 1 <= consumed e <= 256) (emitted_runs types)
  /\ (forall rem, 8 < rem ->
        (if rem <? 8 then rem else 8) = 8 /\ 0 <= Z.min 31 (rem / 8 - 1)).
Proof.
  split.
  - destruct (encode_types_spec types) as (es & Hen & Hwf & _).
    unfold emitted_runs. rewrite Hen. cbn [snd].
    eapply Forall_impl; [exact Hwf|]. intros e [_ He].
    split; [exact He|]. now apply well_formed_consumed.
  - intros rem Hrem. destruct (extended_choice rem Hrem) as (Hs & HM & _).
    split; [exact Hs|lia].
Qed.

(** ** Run-length decoder *)

Lemma read_run_spec (br : BitReader) (e : emitted) (y : Z) :
  reader_ok br -> well_formed e -> type_ok (type_of e) -> 0 <= y ->
  total_bits (fields e) <= avail br ->
  rval br = pack (fields e) + 2 ^ total_bits (fields e) * y ->
  exists br',
    read_run br = (Ok (type_of e, consumed e), br')
    /\ reader_ok br' /\ data br' = data br /\ rval br' = y
    /\ avail br' = avail br - total_bits (fields e).
Proof.
  intros Hok He Ht Hy Hav Hv. unfold type_ok in Ht.
  destruct e as [t r|t s|t s M]; cbn [well_formed type_of consumed fields] in *;
    [|contradiction|].
  - change (total_bits [(t, 4); (0, 1); (r, 3)]) with 8 in *.
    cbn [pack] in Hv.
    destruct (read_field br t 4 (0 mod 2 ^ 1 + 2 ^ 1 * (r mod 2 ^ 3 + 2 ^ 3 * y)))
      as (br1 & Hr1 & Hok1 & Hd1 & Hv1 & Ha1 & _); [assumption|lia|div_lia| |].
    { rewrite Hv. change (2 ^ 8) with (2 ^ 4 * (2 ^ 1 * 2 ^ 3)). ring. }
    destruct (read_field br1 0 1 (r mod 2 ^ 3 + 2 ^ 3 * y))
      as (br2 & Hr2 & Hok2 & Hd2 & Hv2 & Ha2 & _); [assumption|lia|div_lia|exact Hv1|].
    destruct (read_field br2 r 3 y)
      as (br3 & Hr3 & Hok3 & Hd3 & Hv3 & Ha3 & _); [assumption|lia|lia|exact Hv2|].
    exists br3. unfold read_run, rbind, get_bits, rret.
    rewrite Hr1, Hr2. change (0 mod 2 ^ 1 =? 0) with true. cbv beta iota. rewrite Hr3.
    rewrite (Z.mod_small t) by (change (2 ^ 4) with 16; lia).
    rewrite (Z.mod_small r) by (change (2 ^ 3) with 8; lia).
    split; [reflexivity|]. split; [assumption|]. split; [congruence|].
    split; [assumption|lia].
  - destruct He as [-> HM].
    change (total_bits [(t, 4); (1, 1); (8 - 1, 3); (M, 5)]) with 13 in *.
    cbn [pack] in Hv.
    destruct (read_field br t 4
                (1 mod 2 ^ 1 + 2 ^ 1 * ((8 - 1) mod 2 ^ 3 + 2 ^ 3 * (M mod 2 ^ 5 + 2 ^ 5 * y))))
      as (br1 & Hr1 & Hok1 & Hd1 & Hv1 & Ha1 & _); [assumption|lia|div_lia| |].
    { rewrite Hv. change (2 ^ 13) with (2 ^ 4 * (2 ^ 1 * (2 ^ 3 * 2 ^ 5))). ring. }
    destruct (read_field br1 1 1 ((8 - 1) mod 2 ^ 3 + 2 ^ 3 * (M mod 2 ^ 5 + 2 ^ 5 * y)))
      as (br2 & Hr2 & Hok2 & Hd2 & Hv2 & Ha2 & _); [assumption|lia|div_lia|exact Hv1|].
    destruct (read_field br2 (8 - 1) 3 (M mod 2 ^ 5 + 2 ^ 5 * y))
      as (br3 & Hr3 & Hok3 & Hd3 & Hv3 & Ha3 & _); [assumption|lia|div_lia|exact Hv2|].
    destruct (read_field br3 M 5 y)
      as (br4 & Hr4 & Hok4 & Hd4 & Hv4 & Ha4 & _); [assumption|lia|lia|exact Hv3|].
    exists br4. unfold read_run, rbind, get_bits, rret.
    rewrite Hr1, Hr2. change (1 mod 2 ^ 1 =? 0) with false. cbv beta iota. rewrite Hr3, Hr4.
    rewrite (Z.mod_small t) by (change (2 ^ 4) with 16; lia).
    rewrite (Z.mod_small M) by (change (2 ^ 5) with 32; lia).
    change ((8 - 1) mod 2 ^ 3 + 1) with 8.
    split; [reflexivity|]. split; [assumption|]. split; [congruence|].
    split; [assumption|lia].
Qed.

Lemma gen_home_ok (key : list byte) : home_ok (gen_home_from_key key).
Proof.
  split; [reflexivity|]. unfold gen_home_from_key.
  apply Forall_map. apply Forall_forall. intros i _.
  rewrite length_take, sha256_length. reflexivity.
Qed.

Lemma expand_run_ok (home : list (list byte)) (st : expansion) (t run : Z) :
  home_ok home -> type_ok t ->
  exists st', expand_run home st t run = Ok st' /\ expanded st' = expanded st + run.
Proof.
  intros [Hlen _] Ht. unfold expand_run, type_ok in *.
  destruct (t =? 15) eqn:E.
  - destruct (expand_extras _ _ _) as [r ps]. eexists. split; reflexivity.
  - apply Z.eqb_neq in E.
    destruct (lookup_lt_is_Some_2 home (Z.to_nat t)) as [h Hh]; [lia|].
    rewrite Hh. eexists. split; reflexivity.
Qed.

Lemma decode_runs_spec (es : list emitted) :
  forall (fuel : nat) (home : list (list byte)) (chunks_count : Z) (br : BitReader)
         (st : expansion) (runs : list (Z * Z)) (y : Z),
    home_ok home -> reader_ok br ->
    Forall (fun e => type_ok (type_of e) /\ well_formed e) es ->
    0 <= y ->
    total_bits (flat_map fields es) <= avail br ->
    rval br = pack (flat_map fields es) + 2 ^ total_bits (flat_map fields es) * y ->
    expanded st + sum_consumed es = chunks_count ->
    (length es <= fuel)%nat ->
    exists br',
      decode_runs fuel home chunks_count br st runs
      = Ok (br', fold_left (expand_emitted home) es st, runs ++ map decoded_run es)
      /\ reader_ok br' /\ data br' = data br /\ rval br' = y
      /\ avail br' = avail br - total_bits (flat_map fields es).
Proof.
  induction es as [|e es IH]; intros fuel home cnt br st runs y Hhome Hok Hes Hy Hav Hv Hcnt Hfuel.
  - cbn [flat_map pack total_bits fold_right sum_consumed fold_left map] in *.
    exists br. rewrite app_nil_r.
    assert (decode_runs fuel home cnt br st runs = Ok (br, st, runs)) as ->.
    { destruct fuel; cbn [decode_runs];
        (assert ((expanded st <? cnt) = false) as -> by (apply Z.ltb_ge; lia)); reflexivity. }
    rewrite Z.pow_0_r in Hv.
    split; [reflexivity|]. split; [assumption|]. split; [reflexivity|]. split; lia.
  - pose proof (Forall_inv Hes) as [Ht He].
    pose proof (Forall_inv_tail Hes) as Hes'.
    cbn [flat_map] in *.
    pose proof (fields_widths_ok e) as Hwe.
    pose proof (flat_fields_widths_ok es) as Hwes.
    pose proof (total_bits_nonneg _ Hwe) as Hte.
    pose proof (total_bits_nonneg _ Hwes) as Htes.
    pose proof (pack_nonneg _ Hwes) as Hpes.
    rewrite total_bits_app in *. rewrite pack_app in Hv by exact Hwe.
    pose proof (well_formed_consumed e He) as Hc.
    assert (Hsum : 0 <= sum_consumed es).
    { apply sum_consumed_nonneg. eapply Forall_impl; [exact Hes'|]. now intros ? [_ ?]. }
    change (sum_consumed (e :: es)) with (consumed e + sum_consumed es) in Hcnt.
    destruct fuel as [|fuel]; [cbn [length] in Hfuel; lia|].
    cbn [decode_runs length] in *.
    assert ((expanded st <? cnt) = true) as -> by (apply Z.ltb_lt; lia).
    destruct (read_run_spec br e
                (pack (flat_map fields es) + 2 ^ total_bits (flat_map fields es) * y))
      as (br1 & Hr1 & Hok1 & Hd1 & Hv1 & Ha1); [assumption|assumption|assumption|nia|lia| |].
    { rewrite Hv, Z.pow_add_r by lia. ring. }
    rewrite Hr1.
    destruct (expand_run_ok home st (type_of e) (consumed e) Hhome Ht) as (st1 & Hex & Hexp).
    unfold bind. rewrite Hex.
    destruct (IH fuel home cnt br1 st1 (runs ++ [(type_of e, consumed e)]) y)
      as (br2 & Hr2 & Hok2 & Hd2 & Hv2 & Ha2); try assumption; try lia.
    exists br2. rewrite Hr2. cbn [fold_left map].
    assert (expand_emitted home st e = st1) as ->
      by (unfold expand_emitted; now rewrite Hex).
    rewrite <- app_assoc. cbn [app]. unfold decoded_run at 2.
    split; [reflexivity|]. split; [assumption|]. split; [congruence|].
    split; [assumption|lia].
Qed.

Lemma total_bits_fields_ge (es : list emitted) :
  Forall well_formed es -> 8 * Z.of_nat (length es) <= total_bits (flat_map fields es).
Proof.
  induction 1 as [|e es He _ IH]; [simpl; lia|].
  cbn [flat_map length]. rewrite total_bits_app.
  assert (8 <= total_bits (fields e)) by (destruct e; simpl in *; [lia|contradiction|lia]).
  lia.
Qed.

Lemma length_expand_types (es : list emitted) :
  Forall well_formed es -> Z.of_nat (length (expand_types es)) = sum_consumed es.
Proof.
  induction 1 as [|e es He _ IH]; [reflexivity|].
  cbn [expand_types flat_map]. fold (expand_types es).
  rewrite length_app, length_replicate.
  change (sum_consumed (e :: es)) with (consumed e + sum_consumed es).
  pose proof (well_formed_consumed e He). lia.
Qed.

Lemma decoded_types_emitted (es : list emitted) :
  decoded_types (map decoded_run es) = expand_types es.
Proof.
  unfold decoded_types, expand_types. induction es as [|e es IH]; [reflexivity|].
  cbn [map flat_map]. now rewrite IH.
Qed.

(** The bitstream of [types], placed after [pre] and before [post], decodes
    to the sub-runs the encoder emitted, and leaves the reader in front of
    the marker. *)
Lemma decode_encoded_stream (home : list (list byte)) (types : list Z)
    (pre post : list byte) (fuel : nat) :
  home_ok home -> Forall type_ok types ->
  let stream := encode_bitstream types in
  let es := emitted_runs types in
  let T := total_bits (flat_map fields es) in
  (length stream <= fuel)%nat ->
  exists br',
    decode_runs fuel home (Z.of_nat (length types))
      (mkReader (pre ++ stream ++ post) (length pre) 0 0) expansion_init []
    = Ok (br', fold_left (expand_emitted home) es expansion_init, map decoded_run es)
    /\ expand_types es = types
    /\ Forall (fun e => type_ok (type_of e) /\ well_formed e) es
    /\ reader_ok br' /\ data br' = pre ++ stream ++ post
    /\ rval br' = 511 + 2 ^ 9 * (2 ^ (8 * Z.of_nat (length stream) - T - 9) * le_val post)
    /\ avail br' = 8 * Z.of_nat (length stream + length post) - T
    /\ Z.of_nat (length stream) = (T + 16) / 8.
Proof.
  intros Hhome Htypes stream es T Hfuel.
  destruct (encode_types_spec types) as (es' & Hen & Hwf & Hex).
  assert (Hes : es = es') by (unfold es, emitted_runs; now rewrite Hen).
  assert (Hstream : stream
                    = flush_final (write_all writer_init (flat_map fields es ++ [(511, 9)]))).
  { unfold stream, encode_bitstream. rewrite Hen, Hes. reflexivity. }
  rewrite <- Hes in Hwf, Hex. clear Hen Hes es'.
  assert (Hwf' : Forall (fun e => type_ok (type_of e) /\ well_formed e) es).
  { eapply Forall_impl; [exact Hwf|]. intros e [Hin He]. split; [|exact He].
    rewrite Forall_forall in Htypes. apply Htypes. now apply list_elem_of_In. }
  assert (Hwf0 : Forall well_formed es).
  { eapply Forall_impl; [exact Hwf|]. now intros ? [_ ?]. }
  pose proof (flat_fields_widths_ok es) as HwF.
  assert (HwM : widths_ok [(511, 9)]) by (repeat constructor; simpl; lia).
  pose proof (total_bits_nonneg _ HwF) as HT. fold T in HT.
  destruct (write_all_spec _ writer_init writer_init_ok (widths_ok_app _ _ HwF HwM))
    as (Hok & Hval & Hbits).
  destruct (flush_final_spec _ Hok) as (Hle & Hlen). rewrite <- Hstream in Hle, Hlen.
  change (wval writer_init) with 0 in Hval. change (wbits writer_init) with 0 in *.
  rewrite Z.pow_0_r, pack_app in Hval by exact HwF.
  rewrite total_bits_app in Hbits. fold T in Hval, Hbits.
  change (total_bits [(511, 9)]) with 9 in Hbits.
  change (pack [(511, 9)]) with 511 in Hval.
  assert (Hlen' : Z.of_nat (length stream) = (T + 16) / 8).
  { rewrite Hlen, Hbits. f_equal. lia. }
  assert (Hgap : 0 <= 8 * Z.of_nat (length stream) - T - 9) by (rewrite Hlen'; div_lia).
  destruct (reader_at_stream pre stream post) as (Hrok & Hrv & Hav).
  pose proof (le_val_nonneg post) as Hpost.
  destruct (decode_runs_spec es fuel home (Z.of_nat (length types)) _ expansion_init []
              (511 + 2 ^ 9 * (2 ^ (8 * Z.of_nat (length stream) - T - 9) * le_val post))
              Hhome Hrok Hwf') as (br' & Hr & Hok' & Hd' & Hv' & Ha').
  - nia.
  - rewrite Hav. fold T. lia.
  - rewrite Hrv, Hle, Hval. fold T.
    replace (8 * Z.of_nat (length stream))
      with (T + (9 + (8 * Z.of_nat (length stream) - T - 9))) at 1 by lia.
    rewrite !Z.pow_add_r by lia. ring.
  - cbn [expanded expansion_init]. rewrite <- length_expand_types by exact Hwf0.
    now rewrite Hex.
  - pose proof (total_bits_fields_ge es Hwf0). fold T in H. lia.
  - exists br'. rewrite Hr. cbn [app].
    split; [reflexivity|]. split; [exact Hex|]. split; [exact Hwf'|].
    split; [exact Hok'|]. split; [exact Hd'|]. split; [exact Hv'|].
    split; [rewrite Ha', Hav; reflexivity|exact Hlen'].
Qed.

Ltac each_type Ht :=
  unfold type_ok in Ht;
  match type of Ht with
  | 0 <= ?t <= 15 =>
      assert (t = 0 \/ t = 1 \/ t = 2 \/ t = 3 \/ t = 4 \/ t = 5 \/ t = 6 \/ t = 7
              \/ t = 8 \/ t = 9 \/ t = 10 \/ t = 11 \/ t = 12 \/ t = 13 \/ t = 14 \/ t = 15)
        as Hcases by lia;
      clear Ht;
      repeat (destruct Hcases as [->|Hcases]); [..|subst t]
  end.

(** ** What a successful read tells *)

Lemma read_bits_ok_inv (br : BitReader) (n v : Z) (br' : BitReader) :
  reader_ok br -> 0 <= n -> read_bits br n = (Ok v, br') ->
  reader_ok br' /\ data br' = data br /\ avail br' = avail br - n
  /\ (pos br <= pos br')%nat /\ 0 <= v < 2 ^ n.
Proof.
  intros Hok Hn Hr.
  destruct (Z.lt_ge_cases (avail br) n) as [Hlt|Hge].
  - destruct (read_bits_short br n Hlt) as (br'' & Hr' & _). congruence.
  - destruct (read_bits_enough br n Hok (conj Hn Hge)) as (br'' & Hr' & Hok' & Hd & _ & Ha & Hp).
    rewrite Hr in Hr'. injection Hr' as Hv Hbr. subst br'' v.
    repeat split; try assumption; try (apply Z.mod_pos_bound; lia).
    all: destruct Hok' as (? & ? & ?); lia.
Qed.

Lemma read_bits_err_inv (br : BitReader) (n : Z) (e : error) (br' : BitReader) :
  reader_ok br -> 0 <= n -> read_bits br n = (Err e, br') ->
  e = TruncatedBitstream /\ data br' = data br /\ pos br' = length (data br).
Proof.
  intros Hok Hn Hr.
  destruct (Z.lt_ge_cases (avail br) n) as [Hlt|Hge].
  - destruct (read_bits_short br n Hlt) as (br'' & Hr' & Hd & Hp).
    rewrite Hr in Hr'. injection Hr' as He Hbr. subst br'' e.
    split; [reflexivity|]. split; [exact Hd|].
    rewrite Hp, length_drop. destruct Hok as (? & _). lia.
  - destruct (read_bits_enough br n Hok (conj Hn Hge)) as (br'' & Hr' & _). congruence.
Qed.

Lemma reader_ok_avail (br : BitReader) : reader_ok br -> 0 <= avail br.
Proof. intros (? & ? & ?). unfold avail. lia. Qed.

(** A run that is read takes at least eight bits and has a type in 0..15. *)
Lemma read_run_ok_inv (br : BitReader) (t run : Z) (br' : BitReader) :
  reader_ok br -> read_run br = (Ok (t, run), br') ->
  reader_ok br' /\ data br' = data br /\ avail br' <= avail br - 8
  /\ (pos br <= pos br')%nat /\ type_ok t /\ 1 <= run <= 256.
Proof.
  intros Hok. unfold read_run, rbind, get_bits, rret.
  destruct (read_bits br 4) as [[t0|e] br1] eqn:E1; [|discriminate].
  destruct (read_bits_ok_inv _ 4 _ _ Hok ltac:(lia) E1) as (Hok1 & Hd1 & Ha1 & Hp1 & Hv1).
  destruct (read_bits br1 1) as [[F|e] br2] eqn:E2; [|discriminate].
  destruct (read_bits_ok_inv _ 1 _ _ Hok1 ltac:(lia) E2) as (Hok2 & Hd2 & Ha2 & Hp2 & Hv2).
  destruct (F =? 0).
  - destruct (read_bits br2 3) as [[r|e] br3] eqn:E3; [|discriminate].
    destruct (read_bits_ok_inv _ 3 _ _ Hok2 ltac:(lia) E3) as (Hok3 & Hd3 & Ha3 & Hp3 & Hv3).
    intros H. injection H as <- <- <-.
    change (2 ^ 4) with 16 in Hv1. change (2 ^ 3) with 8 in Hv3. unfold type_ok.
    repeat split; try assumption; try congruence; try lia.
    all: destruct Hok3 as (? & ? & ?); lia.
  - destruct (read_bits br2 3) as [[a|e] br3] eqn:E3; [|discriminate].
    destruct (read_bits_ok_inv _ 3 _ _ Hok2 ltac:(lia) E3) as (Hok3 & Hd3 & Ha3 & Hp3 & Hv3).
    destruct (read_bits br3 5) as [[M|e] br4] eqn:E4; [|discriminate].
    destruct (read_bits_ok_inv _ 5 _ _ Hok3 ltac:(lia) E4) as (Hok4 & Hd4 & Ha4 & Hp4 & Hv4).
    intros H. injection H as <- <- <-.
    change (2 ^ 4) with 16 in Hv1. change (2 ^ 3) with 8 in Hv3.
    change (2 ^ 5) with 32 in Hv4. unfold type_ok.
    repeat split; try assumption; try congruence; try lia; try nia.
    all: destruct Hok4 as (? & ? & ?); lia.
Qed.

Lemma read_run_err_inv (br : BitReader) (e : error) (br' : BitReader) :
  reader_ok br -> read_run br = (Err e, br') -> e = TruncatedBitstream.
Proof.
  intros Hok. unfold read_run, rbind, get_bits, rret.
  destruct (read_bits br 4) as [[t0|e1] br1] eqn:E1.
  2:{ intros H. injection H as <- <-.
      now destruct (read_bits_err_inv _ 4 _ _ Hok ltac:(lia) E1). }
  destruct (read_bits_ok_inv _ 4 _ _ Hok ltac:(lia) E1) as (Hok1 & _).
  destruct (read_bits br1 1) as [[F|e2] br2] eqn:E2.
  2:{ intros H. injection H as <- <-.
      now destruct (read_bits_err_inv _ 1 _ _ Hok1 ltac:(lia) E2). }
  destruct (read_bits_ok_inv _ 1 _ _ Hok1 ltac:(lia) E2) as (Hok2 & _).
  destruct (F =? 0).
  - destruct (read_bits br2 3) as [[r|e3] br3] eqn:E3; [discriminate|].
    intros H. injection H as <- <-.
    now destruct (read_bits_err_inv _ 3 _ _ Hok2 ltac:(lia) E3).
  - destruct (read_bits br2 3) as [[a|e3] br3] eqn:E3.
    2:{ intros H. injection H as <- <-.
        now destruct (read_bits_err_inv _ 3 _ _ Hok2 ltac:(lia) E3). }
    destruct (read_bits_ok_inv _ 3 _ _ Hok2 ltac:(lia) E3) as (Hok3 & _).
    destruct (read_bits br3 5) as [[M|e4] br4] eqn:E4; [discriminate|].
    intros H. injection H as <- <-.
    now destruct (read_bits_err_inv _ 5 _ _ Hok3 ltac:(lia) E4).
Qed.

(** ** The run loop never leaves its bound and fails only by truncation *)

Lemma decode_runs_outcome (fuel : nat) (home : list (list byte)) (chunks_count : Z)
    (br : BitReader) (st : expansion) (runs : list (Z * Z)) :
  home_ok home -> reader_ok br -> avail br + 8 <= 8 * Z.of_nat fuel ->
  (exists br' st' runs',
     decode_runs fuel home chunks_count br st runs = Ok (br', st', runs')
     /\ reader_ok br' /\ data br' = data br /\ (pos br <= pos br')%nat
     /\ chunks_count <= expanded st')
  \/ decode_runs fuel home chunks_count br st runs = Err TruncatedBitstream.
Proof.
  intros Hhome. revert br st runs.
  induction fuel as [|fuel IH]; intros br st runs Hok Hfuel.
  - pose proof (reader_ok_avail br Hok). lia.
  - cbn [decode_runs]. destruct (expanded st <? chunks_count) eqn:E.
    + destruct (read_run br) as [[[t run]|e] br1] eqn:Er.
      * destruct (read_run_ok_inv br t run br1 Hok Er) as (Hok1 & Hd1 & Ha1 & Hp1 & Ht & Hrun).
        destruct (expand_run_ok home st t run Hhome Ht) as (st1 & Hex & _).
        unfold bind. rewrite Hex.
        destruct (IH br1 st1 (runs ++ [(t, run)]) Hok1 ltac:(lia))
          as [(br' & st' & runs' & Hr & Hok' & Hd' & Hp' & Hc)|Herr].
        -- left. exists br', st', runs'. rewrite Hr.
           split; [reflexivity|]. split; [assumption|]. split; [congruence|].
           split; [lia|assumption].
        -- right. exact Herr.
      * right. f_equal. eapply read_run_err_inv; eassumption.
    + apply Z.ltb_ge in E. left. exists br, st, runs.
      split; [reflexivity|]. split; [assumption|]. split; [reflexivity|]. split; [lia|assumption].
Qed.

(** ** Reading from a prefix of the data *)

Lemma fill_pos_le (rest : list byte) (p : nat) (bb bl n : Z) :
  (p <= fst (fst (snd (fill rest p bb bl n))))%nat.
Proof.
  revert p bb bl. induction rest as [|b rest IH]; intros p bb bl; cbn [fill];
    destruct (bl <? n); cbn [fst snd]; try lia.
  specialize (IH (S p) (Z.lor bb (Z.shiftl (byte_to_Z b) bl)) (bl + 8)). lia.
Qed.

Lemma fill_take (rest : list byte) (k p : nat) (bb bl n : Z) (p' : nat) (bb' bl' : Z) :
  fill rest p bb bl n = (true, (p', bb', bl')) ->
  ((p' <= p + k)%nat -> fill (take k rest) p bb bl n = (true, (p', bb', bl')))
  /\ ((p + k < p')%nat -> fst (fill (take k rest) p bb bl n) = false).
Proof.
  revert k p bb bl. induction rest as [|b rest IH]; intros k p bb bl.
  - rewrite take_nil. cbn [fill]. destruct (bl <? n); [discriminate|].
    intros H. injection H as <- <- <-. split; [reflexivity|lia].
  - cbn [fill]. destruct (bl <? n) eqn:E.
    + intros Hf. destruct k as [|k].
      * cbn [take fill]. rewrite E.
        pose proof (fill_pos_le rest (S p) (Z.lor bb (Z.shiftl (byte_to_Z b) bl)) (bl + 8) n) as Hp.
        rewrite Hf in Hp. cbn [fst snd] in Hp. split; [lia|reflexivity].
      * cbn [take fill]. rewrite E.
        destruct (IH k (S p) _ _ Hf) as [Ha Hb]. split; intros Hk.
        -- apply Ha. lia.
        -- apply Hb. lia.
    + intros H. injection H as <- <- <-.
      assert (fill (take k (b :: rest)) p bb bl n = (true, (p, bb, bl))) as Hk.
      { destruct (take k (b :: rest)); cbn [fill]; now rewrite E. }
      split; [intros _; exact Hk|lia].
Qed.

Lemma drop_take_pos (d : list byte) (c p : nat) :
  (p <= c)%nat -> drop p (take c d) = take (c - p) (drop p d).
Proof.
  intros Hp. rewrite take_drop_commute. do 2 f_equal. lia.
Qed.

Lemma read_bits_truncate (br : BitReader) (c : nat) (n v : Z) (br' : BitReader) :
  (pos br <= c)%nat -> read_bits br n = (Ok v, br') ->
  ((pos br' <= c)%nat -> read_bits (truncate c br) n = (Ok v, truncate c br'))
  /\ ((c < pos br')%nat -> fst (read_bits (truncate c br) n) = Err TruncatedBitstream).
Proof.
  intros Hp. unfold read_bits, truncate. cbn [data pos bitbuf bitlen].
  rewrite drop_take_pos by exact Hp.
  destruct (fill (drop (pos br) (data br)) (pos br) (bitbuf br) (bitlen br) n)
    as [[|] [[p' bb'] bl']] eqn:Ef; [|discriminate].
  intros H. injection H as <- <-. cbn [pos].
  destruct (fill_take _ (c - pos br) _ _ _ _ _ _ _ Ef) as [Ha Hb]. split; intros Hc.
  - rewrite Ha by lia. reflexivity.
  - specialize (Hb ltac:(lia)).
    destruct (fill (take (c - pos br) (drop (pos br) (data br))) (pos br) (bitbuf br) (bitlen br) n)
      as [[|] [[p2 bb2] bl2]]; [discriminate|reflexivity].
Qed.

Lemma prefix_sound_get_bits (n : Z) : 0 <= n -> prefix_sound (get_bits n).
Proof.
  intros Hn br c v br' Hok Hp Hr. unfold get_bits in *.
  destruct (read_bits_ok_inv br n v br' Hok Hn Hr) as (Hok' & _ & _ & Hp' & _).
  destruct (read_bits_truncate br c n v br' Hp Hr) as [Ha Hb].
  split; [assumption|]. split; [assumption|]. split; assumption.
Qed.

Lemma prefix_sound_rret {A} (a : A) : prefix_sound (rret a).
Proof.
  intros br c a' br' Hok Hp Hr. unfold rret in *. injection Hr as <- <-.
  split; [assumption|]. split; [lia|]. split; [reflexivity|lia].
Qed.

Lemma truncate_ok (c : nat) (br : BitReader) :
  reader_ok br -> (pos br <= c <= length (data br))%nat -> reader_ok (truncate c br).
Proof.
  intros (Hp & Hbl & Hbb) Hc. unfold reader_ok, truncate. cbn [data pos bitbuf bitlen].
  rewrite length_take. split; [lia|]. split; assumption.
Qed.

Lemma prefix_sound_rbind {A B} (m : reading A) (k : A -> reading B) :
  prefix_sound m -> (forall a, prefix_sound (k a)) -> prefix_sound (rbind m k).
Proof.
  intros Hm Hk br c b br' Hok Hp. unfold rbind.
  destruct (m br) as [[a|e] br1] eqn:Em; [|discriminate].
  intros Hkr.
  destruct (Hm br c a br1 Hok Hp Em) as (Hok1 & Hp1 & Ha1 & Hb1).
  destruct (Nat.le_gt_cases (pos br1) c) as [Hle|Hgt].
  - destruct (Hk a br1 c b br' Hok1 Hle Hkr) as (Hok2 & Hp2 & Ha2 & Hb2).
    rewrite (Ha1 Hle).
    split; [assumption|]. split; [lia|]. split; assumption.
  - destruct (Hk a br1 (pos br1) b br' Hok1 (le_n _) Hkr) as (Hok2 & Hp2 & _).
    specialize (Hb1 Hgt).
    split; [assumption|]. split; [lia|]. split; [lia|]. intros _.
    destruct (m (truncate c br)) as [[a'|e'] br1']; cbn [fst] in *; [discriminate|].
    injection Hb1 as ->. reflexivity.
Qed.

Lemma prefix_sound_read_run : prefix_sound read_run.
Proof.
  unfold read_run.
  apply prefix_sound_rbind; [apply prefix_sound_get_bits; lia|]. intros t.
  apply prefix_sound_rbind; [apply prefix_sound_get_bits; lia|]. intros F.
  destruct (F =? 0).
  - apply prefix_sound_rbind; [apply prefix_sound_get_bits; lia|]. intros r.
    apply prefix_sound_rret.
  - apply prefix_sound_rbind; [apply prefix_sound_get_bits; lia|]. intros a.
    apply prefix_sound_rbind; [apply prefix_sound_get_bits; lia|]. intros M.
    apply prefix_sound_rret.
Qed.

Lemma avail_truncate (c : nat) (br : BitReader) :
  (c <= length (data br))%nat ->
  avail (truncate c br) = bitlen br + 8 * Z.of_nat (c - pos br).
Proof.
  intros Hc. unfold avail, truncate. cbn [data pos bitlen].
  rewrite length_take. do 3 f_equal. lia.
Qed.

Lemma decode_runs_truncate (fuel : nat) :
  forall (fuel' : nat) (home : list (list byte)) (chunks_count : Z) (br : BitReader)
         (st : expansion) (runs : list (Z * Z)) (c : nat)
         (br_end : BitReader) (st_end : expansion) (runs_end : list (Z * Z)),
    home_ok home -> reader_ok br -> (pos br <= c <= length (data br))%nat ->
    avail (truncate c br) + 8 <= 8 * Z.of_nat fuel' ->
    decode_runs fuel home chunks_count br st runs = Ok (br_end, st_end, runs_end) ->
    (c < pos br_end)%nat ->
    decode_runs fuel' home chunks_count (truncate c br) st runs = Err TruncatedBitstream.
Proof.
  induction fuel as [|fuel IH];
    intros fuel' home cnt br st runs c br_end st_end runs_end Hhome Hok Hc Hfuel Hr Hend.
  - cbn [decode_runs] in Hr. destruct (expanded st <? cnt); [discriminate|].
    injection Hr as <- <- <-. lia.
  - cbn [decode_runs] in Hr. destruct (expanded st <? cnt) eqn:E.
    2:{ injection Hr as <- <- <-. lia. }
    destruct (read_run br) as [[[t run]|e] br1] eqn:Er; [|discriminate].
    destruct (read_run_ok_inv br t run br1 Hok Er) as (Hok1 & Hd1 & Ha1 & Hp1 & Ht & Hrun).
    destruct (prefix_sound_read_run br c (t, run) br1 Hok (proj1 Hc) Er) as (_ & _ & Hsame & Hfail).
    unfold bind in Hr.
    destruct (expand_run home st t run) as [st1|e] eqn:Ex; [|discriminate].
    pose proof (reader_ok_avail _ (truncate_ok c br Hok Hc)) as Hav.
    destruct fuel' as [|fuel']; [lia|].
    cbn [decode_runs]. rewrite E.
    destruct (Nat.le_gt_cases (pos br1) c) as [Hle|Hgt].
    + rewrite (Hsame Hle). unfold bind. rewrite Ex.
      apply (IH fuel' home cnt br1 st1 _ c br_end st_end runs_end); try assumption.
      * rewrite Hd1. lia.
      * rewrite avail_truncate in * by (rewrite ?Hd1; lia).
        unfold avail in Ha1. rewrite Hd1 in Ha1. lia.
    + specialize (Hfail Hgt).
      destruct (read_run (truncate c br)) as [[a|e'] br1']; cbn [fst] in Hfail;
        [discriminate|]. congruence.
Qed.

(** ** Concrete instances *)

Lemma stored_gzip_lawful : GzipLawful stored_gzip.
Proof. intros d. split; [reflexivity|discriminate]. Qed.

Lemma load_world0 : load_world world0 = Ok (zeros 16, key0).
Proof. reflexivity. Qed.

(** ** Truncated containers *)

Lemma reader_start_ok (d : list byte) :
  (12 <= length d)%nat -> reader_ok (mkReader d 12 0 0).
Proof. intros H. unfold reader_ok. cbn [data pos bitbuf bitlen]. simpl. lia. Qed.

Lemma decode_container_outcome (home : list (list byte)) (d : list byte) :
  home_ok home -> (12 <= length d)%nat ->
  (exists br st runs,
     decode_container home d = Ok (br, st, runs)
     /\ reader_ok br /\ data br = d /\ (12 <= pos br)%nat
     /\ le_val (slice d 0 4) <= expanded st)
  \/ decode_container home d = Err TruncatedBitstream.
Proof.
  intros Hhome Hlen. unfold decode_container.
  assert ((length d <? 12)%nat = false) as -> by (apply Nat.ltb_ge; lia).
  destruct (decode_runs_outcome (length d) home (le_val (slice d 0 4)) (mkReader d 12 0 0)
              expansion_init [] Hhome (reader_start_ok d Hlen))
    as [(br & st & runs & Hr & Hok & Hd & Hp & Hc)|Herr].
  - unfold avail. cbn [data pos bitlen]. lia.
  - left. exists br, st, runs. cbn [data pos] in Hd, Hp.
    split; [assumption|]. split; [assumption|]. split; [assumption|]. split; assumption.
  - right. exact Herr.
Qed.

(** C6: take any container on which the expansion of the runs succeeds,
    having read the bytes before position [pos br], and cut it at [c] bytes,
    after the header and before [pos br], so that the runs can no longer
    reach the header's chunk count: [decompress] fails with the
    truncated-stream error. More generally, on any input of twelve bytes or
    more the header-and-runs stage either completes or fails with that
    error, and with no other. *)
Theorem truncated_container_fails (gz : Gzip) (d world : list byte) (c : nat)
    (mapping key : list byte) (br : BitReader) (st : expansion) (runs : list (Z * Z)) :
  load_world world = Ok (mapping, key) ->
  decode_container (gen_home_from_key key) d = Ok (br, st, runs) ->
  (12 <= c < pos br)%nat ->
  decompress gz (take c d) world = Err TruncatedBitstream
  /\ (forall d', (12 <= length d')%nat ->
        (exists r, decode_container (gen_home_from_key key) d' = Ok r)
        \/ decode_container (gen_home_from_key key) d' = Err TruncatedBitstream).
Proof.
  intros Hw Hdec Hc. split.
  - assert (Hlen : (12 <= length d)%nat).
    { unfold decode_container in Hdec.
      destruct (length d <? 12)%nat eqn:E; [discriminate|]. now apply Nat.ltb_ge in E. }
    destruct (decode_container_outcome _ d (gen_home_ok key) Hlen)
      as [(br1 & st1 & runs1 & Hr & Hok & Hd & Hp & _)|Herr]; [|congruence].
    rewrite Hdec in Hr. injection Hr as <- <- <-.
    assert (Hposlen : (pos br <= length d)%nat) by (destruct Hok as (? & _); congruence).
    unfold decompress, decompress_with. rewrite Hw. cbn [bind].
    assert (Htrunc : decode_container (gen_home_from_key key) (take c d)
                     = Err TruncatedBitstream).
    { unfold decode_container in *.
      rewrite length_take.
      assert ((length d <? 12)%nat = false) as Hl by (apply Nat.ltb_ge; lia).
      rewrite Hl in Hdec.
      assert ((c `min` length d <? 12)%nat = false) as -> by (apply Nat.ltb_ge; lia).
      assert (slice (take c d) 0 4 = slice d 0 4) as ->.
      { unfold slice. rewrite !drop_0, take_take. f_equal. lia. }
      replace (c `min` length d)%nat with c by lia.
      apply (decode_runs_truncate (length d) c _ _ (mkReader d 12 0 0) _ _ c br st runs);
        try assumption.
      - apply gen_home_ok.
      - apply reader_start_ok. exact Hlen.
      - cbn [pos data]. lia.
      - rewrite avail_truncate by (cbn [data]; lia). cbn [bitlen pos]. lia.
      - lia. }
    rewrite Htrunc. reflexivity.
  - intros d' Hlen'.
    destruct (decode_container_outcome _ d' (gen_home_ok key) Hlen')
      as [(br1 & st1 & runs1 & Hr & _)|Herr].
    + left. eexists. exact Hr.
    + right. exact Herr.
Qed.

(** The container of the 18-byte input [home0[2]], cut after its header. *)
Lemma truncated_container_fails_witness :
  decompress stored_gzip
    (take 12 (map byte_of_Z [1; 0; 0; 0; 18; 0; 0; 0; 0; 0; 0; 0; 2; 255; 1; 0; 0; 0; 0]))
    world0
  = Err TruncatedBitstream.
Proof.
  eapply (truncated_container_fails stored_gzip
            (map byte_of_Z [1; 0; 0; 0; 18; 0; 0; 0; 0; 0; 0; 0; 2; 255; 1; 0; 0; 0; 0])
            world0 12).
  - vm_compute. reflexivity.
  - vm_compute. reflexivity.
  - vm_compute. lia.
Defined.

(** ** The end marker *)

Lemma scan_marker_ends (fuel : nat) (br : BitReader) (ones : Z) :
  reader_ok br -> avail br + 1 <= Z.of_nat fuel ->
  exists flag br',
    scan_marker fuel br ones = Some (flag, br')
    /\ data br' = data br /\ (pos br' <= length (data br))%nat /\ (pos br <= pos br')%nat.
Proof.
  revert br ones. induction fuel as [|fuel IH]; intros br ones Hok Hfuel.
  - pose proof (reader_ok_avail br Hok). lia.
  - cbn [scan_marker]. destruct (ones <? 9).
    + destruct (read_bits br 1) as [[b|e] br1] eqn:Er.
      * destruct (read_bits_ok_inv br 1 b br1 Hok ltac:(lia) Er) as (Hok1 & Hd1 & Ha1 & Hp1 & _).
        destruct (IH br1 (if b =? 1 then ones + 1 else 0) Hok1 ltac:(lia))
          as (flag & br' & Hs & Hd & Hl & Hp).
        exists flag, br'. rewrite Hs. split; [reflexivity|].
        split; [congruence|]. split; [congruence|lia].
      * destruct (read_bits_err_inv br 1 e br1 Hok ltac:(lia) Er) as (_ & Hd & Hp).
        exists false, br1. split; [reflexivity|]. split; [assumption|].
        destruct Hok as (? & _). split; lia.
    + exists true, br. destruct Hok as (? & _). repeat split; lia.
Qed.

(** C7, where no extras-length field follows the runs: when the input runs
    out during the scan for the end marker, the truncated-stream error of
    the scan is swallowed and decoding goes on to the extras-length field;
    with fewer than four bytes after the bytes the run loop has read, the
    field is not there and [decompress] fails with the
    missing-extras-length error. *)
Theorem marker_exhaustion_then_missing_length (gz : Gzip) (d world : list byte)
    (mapping key : list byte) (br : BitReader) (st : expansion) (runs : list (Z * Z))
    (br' : BitReader) :
  load_world world = Ok (mapping, key) ->
  decode_container (gen_home_from_key key) d = Ok (br, st, runs) ->
  scan_marker (Z.to_nat (avail br) + 1) br 0 = Some (false, br') ->
  (length d < pos br + 4)%nat ->
  read_extras gz br = Err MissingExtrasLength
  /\ decompress gz d world = Err MissingExtrasLength.
Proof.
  intros Hw Hdec Hscan Habsent.
  assert (Hlen : (12 <= length d)%nat).
  { unfold decode_container in Hdec.
    destruct (length d <? 12)%nat eqn:E; [discriminate|]. now apply Nat.ltb_ge in E. }
  destruct (decode_container_outcome _ d (gen_home_ok key) Hlen)
    as [(br1 & st1 & runs1 & Hr & Hok & Hd & Hp & _)|Herr]; [|congruence].
  rewrite Hdec in Hr. injection Hr as <- <- <-.
  destruct (scan_marker_ends (Z.to_nat (avail br) + 1) br 0 Hok) as (flag & br2 & Hs & Hd2 & _ & Hp2).
  { pose proof (reader_ok_avail br Hok). lia. }
  rewrite Hscan in Hs. injection Hs as <- <-.
  assert (Hex : read_extras gz br = Err MissingExtrasLength).
  { unfold read_extras. rewrite Hscan, Hd2, Hd.
    assert ((length d <? pos br' + 4)%nat = true) as -> by (apply Nat.ltb_lt; lia).
    reflexivity. }
  split; [exact Hex|].
  unfold decompress, decompress_with. rewrite Hw. cbn [bind]. rewrite Hdec. cbn [bind].
  rewrite Hex. reflexivity.
Qed.

Lemma marker_exhaustion_then_missing_length_witness :
  read_extras stored_gzip (mkReader cut_in_marker 13 0 0) = Err MissingExtrasLength
  /\ decompress stored_gzip cut_in_marker world0 = Err MissingExtrasLength.
Proof.
  eapply (marker_exhaustion_then_missing_length stored_gzip cut_in_marker world0).
  - vm_compute. reflexivity.
  - vm_compute. reflexivity.
  - vm_compute. reflexivity.
  - vm_compute. lia.
Defined.

(** C7 as stated fails: on [cut_in_marker] the runs are decoded, the input
    runs out during the scan for the marker, and decoding fails. *)
Lemma marker_exhaustion_fails :
  (exists br st runs br',
     decode_container home0 cut_in_marker = Ok (br, st, runs)
     /\ scan_marker (Z.to_nat (avail br) + 1) br 0 = Some (false, br'))
  /\ decompress stored_gzip cut_in_marker world0 = Err MissingExtrasLength.
Proof.
  split.
  - do 4 eexists. split; vm_compute; reflexivity.
  - vm_compute. reflexivity.
Qed.

(** ** Extras pool: patching *)

Lemma length_slice_assign (out : list byte) (p : nat) (v : list byte) :
  (p <= length out)%nat ->
  length (slice_assign out p (p + CHUNK_SIZE) v)
  = (p + length v + (length out - (p + CHUNK_SIZE)))%nat.
Proof.
  intros Hp. unfold slice_assign. rewrite !length_app, length_take, length_drop. lia.
Qed.

Lemma finish_patch (st : expansion) (extras : list byte) (orig_len : nat) :
  finish st extras orig_len
  = take orig_len (patch_extras (extras_positions st) (chunks_of extras) (restored st)).
Proof. unfold finish. destruct (extras_positions st); reflexivity. Qed.

Lemma filter_Forall {A} (P : A -> Prop) (f : A -> bool) (l : list A) :
  Forall P l -> Forall P (List.filter f l).
Proof.
  induction 1 as [|x l Hx _ IH]; [constructor|].
  cbn [List.filter]. destruct (f x); [constructor; assumption|assumption].
Qed.

Lemma slice_slice_assign (out : list byte) (p q : nat) (v : list byte) :
  length v = CHUNK_SIZE -> (p + CHUNK_SIZE <= length out)%nat ->
  (q + CHUNK_SIZE <= p \/ p + CHUNK_SIZE <= q)%nat ->
  slice (slice_assign out p (p + CHUNK_SIZE) v) q (q + CHUNK_SIZE)
  = slice out q (q + CHUNK_SIZE).
Proof.
  intros Hv Hp Hq. unfold slice, slice_assign.
  replace (q + CHUNK_SIZE - q)%nat with CHUNK_SIZE by lia.
  destruct Hq as [Hq|Hq].
  - rewrite drop_app_le by (rewrite length_take; lia).
    rewrite take_app_le by (rewrite length_drop, length_take; lia).
    replace p with (q + (p - q))%nat at 1 by lia.
    rewrite <- take_drop_commute, take_take. f_equal. lia.
  - rewrite app_assoc, drop_app_ge by (rewrite length_app, length_take; lia).
    rewrite length_app, length_take, Hv, drop_drop. do 2 f_equal. lia.
Qed.

Lemma patch_extras_length (ps : list nat) :
  forall (ex : list (list byte)) (out : list byte),
    Forall (fun c => length c = CHUNK_SIZE) ex ->
    Forall (fun p => (p + CHUNK_SIZE <= length out)%nat) ps ->
    length (patch_extras ps ex out) = length out.
Proof.
  induction ps as [|p ps IH]; intros ex out Hex Hps; [reflexivity|].
  pose proof (Forall_inv Hps) as Hp. pose proof (Forall_inv_tail Hps) as Hps'.
  cbn beta in Hp. cbn [patch_extras].
  assert (Hstep : forall v, length v = CHUNK_SIZE ->
            length (slice_assign out p (p + CHUNK_SIZE) v) = length out).
  { intros v Hv. rewrite length_slice_assign by lia. lia. }
  destruct ex as [|c ex].
  - rewrite IH; [apply Hstep; apply length_replicate|constructor|].
    rewrite Hstep by apply length_replicate. exact Hps'.
  - pose proof (Forall_inv Hex) as Hc. cbn beta in Hc.
    rewrite IH; [apply Hstep; exact Hc|exact (Forall_inv_tail Hex)|].
    rewrite Hstep by exact Hc. exact Hps'.
Qed.

(** Patching leaves the chunks at the other offsets as they were. *)
Lemma patch_extras_frame (ps : list nat) :
  forall (ex : list (list byte)) (out : list byte) (q : nat),
    Forall (fun c => length c = CHUNK_SIZE) ex ->
    Forall (fun p => (p + CHUNK_SIZE <= length out)%nat) ps ->
    Forall (fun p => (q + CHUNK_SIZE <= p \/ p + CHUNK_SIZE <= q)%nat) ps ->
    slice (patch_extras ps ex out) q (q + CHUNK_SIZE) = slice out q (q + CHUNK_SIZE).
Proof.
  induction ps as [|p ps IH]; intros ex out q Hex Hps Hq; [reflexivity|].
  pose proof (Forall_inv Hps) as Hp. pose proof (Forall_inv_tail Hps) as Hps'.
  pose proof (Forall_inv Hq) as Hpq. pose proof (Forall_inv_tail Hq) as Hq'.
  cbn beta in Hp, Hpq. cbn [patch_extras].
  assert (Hstep : forall v, length v = CHUNK_SIZE ->
            length (slice_assign out p (p + CHUNK_SIZE) v) = length out).
  { intros v Hv. rewrite length_slice_assign by lia. lia. }
  destruct ex as [|c ex].
  - rewrite IH; [|constructor| |exact Hq'].
    + apply slice_slice_assign; [apply length_replicate|exact Hp|exact Hpq].
    + rewrite Hstep by apply length_replicate. exact Hps'.
  - pose proof (Forall_inv Hex) as Hc. cbn beta in Hc.
    rewrite IH; [|exact (Forall_inv_tail Hex)| |exact Hq'].
    + apply slice_slice_assign; [exact Hc|exact Hp|exact Hpq].
    + rewrite Hstep by exact Hc. exact Hps'.
Qed.

Lemma slice_concat_chunk (l : list (list byte)) :
  forall (i : nat) (c : list byte),
    Forall (fun c => length c = CHUNK_SIZE) l -> l !! i = Some c ->
    slice (concat l) (i * CHUNK_SIZE) (i * CHUNK_SIZE + CHUNK_SIZE) = c.
Proof.
  induction l as [|x l IH]; intros i c Hl Hi; [discriminate|].
  pose proof (Forall_inv Hl) as Hx. cbn beta in Hx.
  unfold slice. replace (i * CHUNK_SIZE + CHUNK_SIZE - i * CHUNK_SIZE)%nat
    with CHUNK_SIZE by lia.
  cbn [concat]. destruct i as [|i].
  - injection Hi as ->. cbn [Nat.mul]. rewrite drop_0. now apply take_app_length'.
  - cbn [lookup list_lookup] in Hi.
    rewrite drop_app_ge by lia. rewrite Hx.
    replace (S i * CHUNK_SIZE - CHUNK_SIZE)%nat with (i * CHUNK_SIZE)%nat by lia.
    specialize (IH i c (Forall_inv_tail Hl) Hi). unfold slice in IH.
    replace (i * CHUNK_SIZE + CHUNK_SIZE - i * CHUNK_SIZE)%nat
      with CHUNK_SIZE in IH by lia.
    exact IH.
Qed.












(** ** The home index *)

Lemma combine_app_same {A B} (l1 l2 : list A) (k1 k2 : list B) :
  length l1 = length k1 ->
  combine (l1 ++ l2) (k1 ++ k2) = combine l1 k1 ++ combine l2 k2.
Proof.
  revert k1. induction l1 as [|a l1 IH]; intros [|b k1] Hlen; try discriminate.
  - reflexivity.
  - cbn [app combine]. f_equal. apply IH. now injection Hlen.
Qed.

Lemma enumerate_snoc {A} (l : list A) (x : A) :
  enumerate (l ++ [x]) = enumerate l ++ [(length l, x)].
Proof.
  unfold enumerate. rewrite length_app. cbn [length].
  rewrite seq_app. cbn [seq Nat.add].
  rewrite combine_app_same by now rewrite length_seq. reflexivity.
Qed.

Lemma home_index_snoc (home : list (list byte)) (h : list byte) :
  home_index (home ++ [h]) = <[ h := Z.of_nat (length home) ]> (home_index home).
Proof.
  unfold home_index. rewrite enumerate_snoc, fold_left_app. reflexivity.
Qed.

(** The index maps a chunk to the last position that holds it. *)
Lemma home_index_Some (home : list (list byte)) (c : list byte) (n : nat) :
  home !! n = Some c -> (forall m, (n < m)%nat -> home !! m <> Some c) ->
  home_index home !! c = Some (Z.of_nat n).
Proof.
  revert n. induction home as [|h home IH] using rev_ind; intros n Hn Hlast; [discriminate|].
  rewrite home_index_snoc.
  destruct (decide (n = length home)) as [->|Hne].
  - rewrite lookup_app_r, Nat.sub_diag in Hn by lia. injection Hn as ->.
    apply lookup_insert_eq.
  - assert (Hlt : (n < length home)%nat).
    { apply lookup_lt_Some in Hn. rewrite length_app in Hn. cbn [length] in Hn. lia. }
    rewrite lookup_app_l in Hn by exact Hlt.
    assert (h <> c).
    { intros ->. apply (Hlast (length home) Hlt).
      rewrite lookup_app_r, Nat.sub_diag by lia. reflexivity. }
    rewrite lookup_insert_ne by assumption.
    apply IH; [exact Hn|]. intros m Hm Hc. apply (Hlast m Hm).
    now apply lookup_app_l_Some.
Qed.

Lemma home_index_None (home : list (list byte)) (c : list byte) :
  ~ In c home -> home_index home !! c = None.
Proof.
  induction home as [|h home IH] using rev_ind; intros Hc; [apply lookup_empty|].
  rewrite home_index_snoc. rewrite in_app_iff in Hc.
  rewrite lookup_insert_ne.
  - apply IH. tauto.
  - intros ->. apply Hc. right. now left.
Qed.

Lemma home_index_inv (home : list (list byte)) (c : list byte) (i : Z) :
  home_index home !! c = Some i ->
  exists n, i = Z.of_nat n /\ home !! n = Some c.
Proof.
  induction home as [|h home IH] using rev_ind.
  { change (home_index []) with (∅ : gmap (list byte) Z).
    rewrite lookup_empty. discriminate. }
  rewrite home_index_snoc. destruct (decide (h = c)) as [->|Hne].
  - rewrite lookup_insert_eq. intros H. injection H as <-.
    exists (length home). split; [reflexivity|].
    rewrite lookup_app_r, Nat.sub_diag by lia. reflexivity.
  - rewrite lookup_insert_ne by assumption. intros H.
    destruct (IH H) as (n & Hi & Hn). exists n. split; [exact Hi|].
    now apply lookup_app_l_Some.
Qed.

Lemma home_lookup (key : list byte) (n : nat) :
  (n < 16)%nat ->
  gen_home_from_key key !! n = Some (nth n (gen_home_from_key key) []).
Proof.
  intros Hn. destruct (gen_home_ok key) as [Hlen _].
  destruct (nth_lookup_or_length (gen_home_from_key key) n []) as [H|H]; [exact H|lia].
Qed.

Lemma chunks_of_one (c : list byte) : length c = CHUNK_SIZE -> chunks_of c = [c].
Proof.
  intros Hc. rewrite chunks_of_step by (destruct c; [discriminate|congruence]).
  rewrite take_ge, drop_ge by lia. reflexivity.
Qed.

Lemma chunk_file_one (c : list byte) :
  length c = CHUNK_SIZE -> chunk_file c = ([c], CHUNK_SIZE).
Proof.
  intros Hc. unfold chunk_file. rewrite Hc. cbn -[chunks_of]. now rewrite chunks_of_one.
Qed.

Lemma home_entry_length (key : list byte) (n : nat) :
  (n < 16)%nat -> length (nth n (gen_home_from_key key) []) = CHUNK_SIZE.
Proof.
  intros Hn. destruct (gen_home_ok key) as [_ Hall].
  rewrite Forall_forall in Hall. apply Hall.
  eapply list_elem_of_lookup_2. apply home_lookup; lia.
Qed.

(** The last entry of the table is indexed under 15, the value that the
    bitstream reserves for chunks with no match. *)
Lemma home_index_last (key : list byte) :
  home_index (gen_home_from_key key) !! nth 15 (gen_home_from_key key) [] = Some 15.
Proof.
  apply (home_index_Some _ _ 15); [apply home_lookup; lia|].
  intros m Hm. rewrite lookup_ge_None_2; [discriminate|].
  destruct (gen_home_ok key) as [-> _]. lia.
Qed.

(** C2, at the input that breaks it: whatever the key, the chunk equal to
    [HomeTable[15]] is byte-identical to a table entry, yet it is given Type
    15, and its bytes are not appended to the extras pool. *)
Theorem home15_classified_as_extras (key : list byte) :
  let home := gen_home_from_key key in
  let c := nth 15 home [] in
  home !! 15%nat = Some c
  /\ fst (chunk_file c) = [c]
  /\ classify (home_index home) (fst (chunk_file c)) = ([15], []).
Proof.
  intros home c. split; [apply home_lookup; lia|].
  rewrite chunk_file_one by (apply home_entry_length; lia).
  split; [reflexivity|].
  unfold classify. cbn [fst fold_left classify_step].
  unfold c, home. rewrite home_index_last. reflexivity.
Qed.

(** ** The chunk equal to the last home entry *)

Lemma compress_home15 (gz : Gzip) (key : list byte) :
  compress_with gz (gen_home_from_key key) (nth 15 (gen_home_from_key key) [])
  = Ok home15_container.
Proof.
  unfold compress_with.
  rewrite chunk_file_one by (apply home_entry_length; lia).
  unfold classify. cbn [fold_left classify_step]. rewrite home_index_last.
  generalize (nth 15 (gen_home_from_key key) []). intros c.
  vm_compute. reflexivity.
Qed.

Lemma decompress_home15 (gz : Gzip) (home : list (list byte)) :
  decompress_with gz home home15_container = Ok (zeros 18).
Proof. vm_compute. reflexivity. Qed.

(** C1, at the input that breaks it: whatever the world file and the
    secondary compressor, compressing the 18 bytes of [HomeTable[15]] and
    decompressing the result gives eighteen zero bytes. *)
Theorem roundtrip_loses_home15 (gz : Gzip) (world mapping key : list byte) :
  load_world world = Ok (mapping, key) ->
  compress gz (nth 15 (gen_home_from_key key) []) world = Ok home15_container
  /\ decompress gz home15_container world = Ok (zeros 18).
Proof.
  intros Hw. unfold compress, decompress. rewrite Hw. cbn [bind].
  split; [apply compress_home15|apply decompress_home15].
Qed.

(** With the key 00 01 .. 0f, [HomeTable[15]] starts f3 cd 8d ad: the bytes
    that come back are not the bytes that went in. *)
Lemma roundtrip_loses_home15_witness :
  (compress stored_gzip (nth 15 home0 []) world0 = Ok home15_container
   /\ decompress stored_gzip home15_container world0 = Ok (zeros 18))
  /\ map byte_to_Z (take 4 (nth 15 home0 [])) = [0xf3; 0xcd; 0x8d; 0xad]
  /\ nth 15 home0 [] <> zeros 18.
Proof.
  split; [apply (roundtrip_loses_home15 stored_gzip world0 (zeros 16) key0); reflexivity|].
  split; [vm_compute; reflexivity|].
  intros H. vm_compute in H. discriminate H.
Defined.

(** ** Two chunks equal to the fourth home entry *)

Lemma chunk_file_two (c : list byte) :
  length c = CHUNK_SIZE -> chunk_file (c ++ c) = ([c; c], 36%nat).
Proof.
  intros Hc. unfold chunk_file. rewrite length_app, Hc.
  change (Z.to_nat ((- Z.of_nat (CHUNK_SIZE + CHUNK_SIZE)) mod Z.of_nat CHUNK_SIZE))
    with 0%nat.
  change (0 <? 0)%nat with false. cbv iota.
  change (CHUNK_SIZE + CHUNK_SIZE)%nat with 36%nat. f_equal.
  rewrite chunks_of_step by (destruct c; discriminate).
  rewrite take_app_length', drop_app_length' by (symmetry; exact Hc).
  now rewrite chunks_of_one.
Qed.

Lemma list_of_16 {A} (l : list A) :
  length l = 16%nat ->
  exists a0 a1 a2 a3 a4 a5 a6 a7 a8 a9 a10 a11 a12 a13 a14 a15,
    l = [a0; a1; a2; a3; a4; a5; a6; a7; a8; a9; a10; a11; a12; a13; a14; a15].
Proof.
  intros H. do 16 (destruct l as [|? l]; [discriminate H|]).
  destruct l; [|discriminate H]. do 16 eexists. reflexivity.
Qed.

Lemma decode_home3x2 (gz : Gzip) (home : list (list byte)) (h3 : list byte) :
  home_ok home -> home !! 3%nat = Some h3 ->
  decode_container home home3x2_container
  = Ok (mkReader home3x2_container 13 0 0, mkExpansion (h3 ++ h3) [] 2, [(3, 2)])
  /\ decompress_with gz home home3x2_container = Ok (h3 ++ h3).
Proof.
  intros [Hlen Hall] H3.
  assert (Hh3 : length h3 = CHUNK_SIZE).
  { rewrite Forall_forall in Hall. apply Hall. eapply list_elem_of_lookup_2. exact H3. }
  destruct (list_of_16 home Hlen)
    as (a0 & a1 & a2 & a3 & a4 & a5 & a6 & a7 & a8 & a9 & a10 & a11 & a12 & a13 & a14
        & a15 & ->).
  cbn in H3. injection H3 as ->. clear Hlen Hall.
  assert (Htake : take 36 (h3 ++ h3) = h3 ++ h3).
  { apply take_ge. rewrite length_app, Hh3. unfold CHUNK_SIZE. lia. }
  assert (Hdec : decode_container
                   [a0; a1; a2; h3; a4; a5; a6; a7; a8; a9; a10; a11; a12; a13; a14; a15]
                   home3x2_container
                 = Ok (mkReader home3x2_container 13 0 0, mkExpansion (h3 ++ h3) [] 2,
                       [(3, 2)]))
    by (vm_compute; reflexivity).
  split; [exact Hdec|].
  unfold decompress_with. rewrite Hdec. cbn [bind].
  assert (read_extras gz (mkReader home3x2_container 13 0 0) = Ok []) as ->
    by (vm_compute; reflexivity).
  cbn [bind]. unfold finish. cbn [extras_positions is_empty restored].
  change (Z.to_nat (le_val (slice home3x2_container 4 12))) with 36%nat.
  now rewrite Htake.
Qed.

(** C5: for a world whose home table has no repeated entry, the 36-byte
    input made of [HomeTable[3]] twice compresses to a container whose
    bitstream holds the single run [(3, 2)] (one short form) and whose extras
    blob is empty; the run loop decodes that run; and [decompress] gives the
    36 bytes back. *)
Theorem two_copies_of_home3 (gz : Gzip) (world mapping key : list byte) :
  load_world world = Ok (mapping, key) ->
  NoDup (gen_home_from_key key) ->
  let h3 := nth 3 (gen_home_from_key key) [] in
  compress gz (h3 ++ h3) world = Ok home3x2_container
  /\ home3x2_container
     = le_bytes 4 2 ++ le_bytes 8 36 ++ encode_bitstream [3; 3] ++ le_bytes 4 0 ++ []
  /\ emitted_runs [3; 3] = [ShortForm 3 1]
  /\ (exists br st,
        decode_container (gen_home_from_key key) home3x2_container = Ok (br, st, [(3, 2)]))
  /\ decompress gz home3x2_container world = Ok (h3 ++ h3).
Proof.
  intros Hw Hnd h3.
  assert (H3 : gen_home_from_key key !! 3%nat = Some h3) by (apply home_lookup; lia).
  assert (Hlen : length h3 = CHUNK_SIZE) by (apply home_entry_length; lia).
  clearbody h3.
  assert (Hidx : home_index (gen_home_from_key key) !! h3 = Some 3).
  { apply (home_index_Some _ _ 3 H3). intros m Hm Hm'.
    pose proof (NoDup_lookup _ _ _ _ Hnd H3 Hm'). lia. }
  destruct (decode_home3x2 gz _ h3 (gen_home_ok key) H3) as [Hdec Hdecomp].
  split.
  - unfold compress. rewrite Hw. cbn [bind]. unfold compress_with.
    rewrite chunk_file_two by exact Hlen.
    assert (classify (home_index (gen_home_from_key key)) [h3; h3] = ([3; 3], [])) as ->.
    { unfold classify. cbn [fold_left]. unfold classify_step at 2. rewrite Hidx.
      unfold classify_step. rewrite Hidx. reflexivity. }
    clear. vm_compute. reflexivity.
  - split; [vm_compute; reflexivity|]. split; [vm_compute; reflexivity|]. split.
    + eexists _, _. exact Hdec.
    + unfold decompress. rewrite Hw. cbn [bind]. exact Hdecomp.
Qed.

Lemma home0_NoDup : NoDup home0.
Proof. apply (bool_decide_unpack (NoDup home0)). vm_compute. exact I. Defined.

Lemma two_copies_of_home3_witness :
  compress stored_gzip (nth 3 home0 [] ++ nth 3 home0 []) world0 = Ok home3x2_container
  /\ decompress stored_gzip home3x2_container world0 = Ok (nth 3 home0 [] ++ nth 3 home0 []).
Proof.
  pose proof (two_copies_of_home3 stored_gzip world0 (zeros 16) key0 eq_refl home0_NoDup)
    as (Hc & _ & _ & _ & Hd).
  split; [exact Hc|exact Hd].
Defined.

(** ** Reading the marker and the extras after an encoded stream *)

Lemma scan_marker_ones (k : nat) :
  forall (fuel : nat) (br : BitReader) (ones y : Z),
    reader_ok br -> 0 <= y -> Z.of_nat k <= avail br -> (k <= fuel)%nat ->
    0 <= ones -> ones + Z.of_nat k = 9 ->
    rval br = 2 ^ Z.of_nat k - 1 + 2 ^ Z.of_nat k * y ->
    exists br',
      scan_marker fuel br ones = Some (true, br')
      /\ reader_ok br' /\ data br' = data br /\ rval br' = y
      /\ avail br' = avail br - Z.of_nat k.
Proof.
  induction k as [|k IH]; intros fuel br ones y Hok Hy Hav Hfuel Hones Hsum Hv.
  - exists br. assert (ones = 9) as -> by lia.
    assert (scan_marker fuel br 9 = Some (true, br)) as -> by (destruct fuel; reflexivity).
    cbn [Z.of_nat] in Hv. rewrite Z.pow_0_r in Hv.
    split; [reflexivity|]. split; [assumption|]. split; [reflexivity|]. split; lia.
  - destruct fuel as [|fuel]; [lia|]. cbn [scan_marker].
    assert ((ones <? 9) = true) as -> by (apply Z.ltb_lt; lia).
    assert (Hpow : 2 ^ Z.of_nat (S k) = 2 * 2 ^ Z.of_nat k).
    { rewrite Nat2Z.inj_succ, Z.pow_succ_r by lia. reflexivity. }
    assert (Hpk : 0 < 2 ^ Z.of_nat k) by (apply Z.pow_pos_nonneg; lia).
    destruct (read_field br 1 1 (2 ^ Z.of_nat k - 1 + 2 ^ Z.of_nat k * y))
      as (br1 & Hr1 & Hok1 & Hd1 & Hv1 & Ha1 & _); [assumption|lia|nia| |].
    { rewrite Hv, Hpow. change (1 mod 2 ^ 1) with 1. change (2 ^ 1) with 2. ring. }
    rewrite Hr1. change (1 mod 2 ^ 1 =? 1) with true. cbv iota.
    destruct (IH fuel br1 (ones + 1) y Hok1 Hy) as (br2 & Hr2 & Hok2 & Hd2 & Hv2 & Ha2);
      try lia; try assumption.
    exists br2. rewrite Hr2.
    split; [reflexivity|]. split; [assumption|]. split; [congruence|].
    split; [assumption|lia].
Qed.

(** After the marker the reader stands on the first byte after the stream;
    what follows the extras blob is not looked at. *)
Lemma read_extras_after_stream (gz : Gzip) (br : BitReader)
    (pre stream blob junk : list byte) (T y : Z) :
  reader_ok br ->
  data br = pre ++ stream ++ le_bytes 4 (Z.of_nat (length blob)) ++ blob ++ junk ->
  Z.of_nat (length blob) < 2 ^ 32 ->
  0 <= T -> Z.of_nat (length stream) = (T + 16) / 8 ->
  avail br = 8 * Z.of_nat (length stream + (4 + length (blob ++ junk))) - T ->
  0 <= y -> rval br = 511 + 2 ^ 9 * y ->
  read_extras gz br
  = if is_empty blob then Ok []
    else match gzip_decompress gz blob with
         | Some extras => Ok extras
         | None => Err GzipError
         end.
Proof.
  intros Hok Hd Hblob HT Hlen Hav Hy Hv.
  assert (Hav9 : 9 <= avail br) by (rewrite Hav; div_lia).
  assert (Hv9 : rval br = 2 ^ Z.of_nat 9 - 1 + 2 ^ Z.of_nat 9 * y) by (rewrite Hv; reflexivity).
  destruct (scan_marker_ones 9 (Z.to_nat (avail br) + 1) br 0 y Hok Hy
              ltac:(lia) ltac:(lia) ltac:(lia) ltac:(lia) Hv9)
    as (br' & Hs & Hok' & Hd' & _ & Ha').
  unfold read_extras. rewrite Hs.
  assert (Hdlen : length (data br')
                  = (length pre + (length stream + (4 + length (blob ++ junk))))%nat).
  { rewrite Hd', Hd, !length_app, le_bytes_length. reflexivity. }
  assert (Hpos : pos br' = (length pre + length stream)%nat).
  { destruct Hok' as (Hp & Hbl & _). rewrite Hav in Ha'. unfold avail in Ha'.
    rewrite Hdlen in *. div_lia. }
  rewrite Hpos, Hdlen.
  assert ((length pre + (length stream + (4 + length (blob ++ junk)))
           <? length pre + length stream + 4)%nat = false) as -> by (apply Nat.ltb_ge; lia).
  assert (Hdrop : drop (length pre + length stream) (data br')
                  = le_bytes 4 (Z.of_nat (length blob)) ++ blob ++ junk).
  { rewrite Hd', Hd, <- drop_drop, drop_app_length, drop_app_length. reflexivity. }
  assert (Hfield : slice (data br') (length pre + length stream)
                     (length pre + length stream + 4)
                   = le_bytes 4 (Z.of_nat (length blob))).
  { unfold slice. rewrite Hdrop.
    replace (length pre + length stream + 4 - (length pre + length stream))%nat
      with 4%nat by lia.
    apply take_app_length'. now rewrite le_bytes_length. }
  rewrite Hfield, le_val_le_bytes by (change (256 ^ Z.of_nat 4) with (2 ^ 32); lia).
  rewrite Nat2Z.id.
  destruct blob as [|b blob]; [reflexivity|].
  cbn [length]. change (0 <? S (length blob))%nat with true. cbv iota.
  assert (slice (data br') (length pre + length stream + 4)
            (length pre + length stream + 4 + S (length blob)) = b :: blob) as ->.
  { unfold slice. rewrite <- drop_drop, Hdrop.
    rewrite drop_app_length' by now rewrite le_bytes_length.
    apply take_app_length'. cbn [length]. lia. }
  reflexivity.
Qed.

(** ** The expansion, in closed form *)

Lemma expand_extras_spec (n : nat) (r : list byte) (ps : list nat) :
  expand_extras n r ps
  = (r ++ concat (replicate n (zeros CHUNK_SIZE)),
     ps ++ positions_from (length r) (replicate n 15)).
Proof.
  revert r ps. induction n as [|n IH]; intros r ps; cbn [expand_extras replicate concat].
  - cbn [positions_from]. now rewrite !app_nil_r.
  - rewrite IH. cbn [positions_from]. change (15 =? 15) with true. cbv iota.
    assert (length (r ++ zeros CHUNK_SIZE) = (length r + CHUNK_SIZE)%nat) as ->
      by (rewrite length_app; unfold zeros; now rewrite length_replicate).
    rewrite <- !app_assoc. reflexivity.
Qed.

Lemma expand_home_spec (n : nat) (r h : list byte) :
  expand_home n r h = r ++ concat (replicate n h).
Proof.
  revert r. induction n as [|n IH]; intros r; cbn [expand_home replicate concat].
  - now rewrite app_nil_r.
  - rewrite IH, <- app_assoc. reflexivity.
Qed.

Lemma flat_map_replicate {A B} (f : A -> list B) (n : nat) (x : A) :
  flat_map f (replicate n x) = concat (replicate n (f x)).
Proof. induction n as [|n IH]; cbn [replicate flat_map concat]; [reflexivity|]. now rewrite IH. Qed.

Lemma positions_from_other (base n : nat) (t : Z) :
  t <> 15 -> positions_from base (replicate n t) = [].
Proof.
  intros Ht. revert base. induction n as [|n IH]; intros base; [reflexivity|].
  cbn [replicate positions_from].
  assert ((t =? 15) = false) as -> by now apply Z.eqb_neq.
  apply IH.
Qed.

Lemma placeholder_length (home : list (list byte)) (t : Z) :
  home_ok home -> type_ok t -> length (placeholder home t) = CHUNK_SIZE.
Proof.
  intros [Hlen Hall] Ht. unfold placeholder, type_ok in *.
  destruct (t =? 15) eqn:E.
  - unfold zeros. apply length_replicate.
  - apply Z.eqb_neq in E. rewrite Forall_forall in Hall. apply Hall.
    destruct (nth_lookup_or_length home (Z.to_nat t) []) as [H|H]; [|lia].
    eapply list_elem_of_lookup_2. exact H.
Qed.

Lemma flat_placeholder_length (home : list (list byte)) (types : list Z) :
  home_ok home -> Forall type_ok types ->
  length (flat_map (placeholder home) types) = (length types * CHUNK_SIZE)%nat.
Proof.
  intros Hhome. induction 1 as [|t types Ht _ IH]; [reflexivity|].
  cbn [flat_map length]. rewrite length_app, IH, placeholder_length by assumption. lia.
Qed.

Lemma positions_from_app (base : nat) (xs ys : list Z) :
  positions_from base (xs ++ ys)
  = positions_from base xs ++ positions_from (base + length xs * CHUNK_SIZE) ys.
Proof.
  revert base. induction xs as [|x xs IH]; intros base; cbn [app positions_from length].
  - f_equal. lia.
  - rewrite IH, <- app_assoc. do 3 f_equal. lia.
Qed.

Lemma expand_run_spec (home : list (list byte)) (st : expansion) (t run : Z) :
  home_ok home -> type_ok t ->
  expand_run home st t run
  = Ok (mkExpansion
          (restored st ++ flat_map (placeholder home) (replicate (Z.to_nat run) t))
          (extras_positions st
             ++ positions_from (length (restored st)) (replicate (Z.to_nat run) t))
          (expanded st + run)).
Proof.
  intros Hhome Ht. unfold expand_run. rewrite flat_map_replicate. unfold placeholder.
  destruct (t =? 15) eqn:E.
  - apply Z.eqb_eq in E. subst t. rewrite expand_extras_spec. reflexivity.
  - apply Z.eqb_neq in E. destruct Hhome as [Hlen _]. unfold type_ok in Ht.
    destruct (nth_lookup_or_length home (Z.to_nat t) []) as [H|H]; [|lia].
    rewrite H, expand_home_spec, positions_from_other, app_nil_r by exact E.
    reflexivity.
Qed.

Lemma fold_expand_spec (home : list (list byte)) (es : list emitted) :
  home_ok home -> Forall (fun e => type_ok (type_of e) /\ well_formed e) es ->
  forall st,
    restored (fold_left (expand_emitted home) es st)
    = restored st ++ flat_map (placeholder home) (expand_types es)
    /\ extras_positions (fold_left (expand_emitted home) es st)
       = extras_positions st ++ positions_from (length (restored st)) (expand_types es).
Proof.
  intros Hhome. induction 1 as [|e es [Ht He] Hes IH]; intros st.
  - cbn. now rewrite !app_nil_r.
  - cbn [fold_left expand_types flat_map]. fold (expand_types es).
    destruct (IH (expand_emitted home st e)) as [Hr Hp]. rewrite Hr, Hp.
    unfold expand_emitted. rewrite expand_run_spec by assumption.
    cbn [restored extras_positions].
    rewrite flat_map_app, positions_from_app, length_app, <- !app_assoc.
    rewrite flat_placeholder_length.
    + rewrite length_replicate. split; reflexivity.
    + exact Hhome.
    + apply Forall_forall. intros x Hx. apply elem_of_replicate in Hx as [-> _]. exact Ht.
Qed.

(** ** Classification, and patching the literal chunks back *)

Lemma classify_spec (index : gmap (list byte) Z) (chunks : list (list byte)) :
  classify index chunks
  = (map (chunk_type index) chunks, List.filter (literal index) chunks).
Proof.
  unfold classify.
  assert (Hgen : forall ts ex,
             fold_left (classify_step index) chunks (ts, ex)
             = (ts ++ map (chunk_type index) chunks,
                ex ++ List.filter (literal index) chunks)).
  { induction chunks as [|c chunks IH]; intros ts ex.
    - cbn. now rewrite !app_nil_r.
    - cbn [fold_left map List.filter].
      assert (Hstep : classify_step index (ts, ex) c
                      = (ts ++ [chunk_type index c],
                         if literal index c then ex ++ [c] else ex)).
      { unfold classify_step, chunk_type, literal. destruct (index !! c); reflexivity. }
      rewrite Hstep, IH. destruct (literal index c); rewrite <- ?app_assoc; reflexivity. }
  apply Hgen.
Qed.

(** A chunk that the index does not send to 15 is either a literal, or the
    home entry at its type. *)
Lemma chunk_type_spec (home : list (list byte)) (c : list byte) :
  home_ok home -> home_index home !! c <> Some 15 ->
  type_ok (chunk_type (home_index home) c)
  /\ (if literal (home_index home) c
      then chunk_type (home_index home) c = 15
      else chunk_type (home_index home) c <> 15
           /\ placeholder home (chunk_type (home_index home) c) = c).
Proof.
  intros [Hlen _] Hno. unfold chunk_type, literal, type_ok.
  destruct (home_index home !! c) as [i|] eqn:E; [|split; [lia|reflexivity]].
  destruct (home_index_inv home c i E) as (n & -> & Hn).
  apply lookup_lt_Some in Hn as Hlt.
  assert (Z.of_nat n <> 15) by congruence.
  split; [lia|]. split; [assumption|].
  unfold placeholder. assert ((Z.of_nat n =? 15) = false) as -> by now apply Z.eqb_neq.
  rewrite Nat2Z.id. now apply nth_lookup_Some.
Qed.

Lemma patch_restores (home : list (list byte)) (chunks : list (list byte)) :
  home_ok home ->
  Forall (fun c => length c = CHUNK_SIZE) chunks ->
  Forall (fun c => home_index home !! c <> Some 15) chunks ->
  forall pre,
    patch_extras
      (positions_from (length pre) (map (chunk_type (home_index home)) chunks))
      (List.filter (literal (home_index home)) chunks)
      (pre ++ flat_map (placeholder home) (map (chunk_type (home_index home)) chunks))
    = pre ++ concat chunks.
Proof.
  intros Hhome Hlen Hno. induction chunks as [|c chunks IH]; intros pre; [reflexivity|].
  pose proof (Forall_inv Hlen) as Hc. pose proof (Forall_inv_tail Hlen) as Hlen'.
  pose proof (Forall_inv Hno) as Hc15. pose proof (Forall_inv_tail Hno) as Hno'.
  cbn beta in Hc, Hc15.
  destruct (chunk_type_spec home c Hhome Hc15) as [_ Hty].
  cbn [map flat_map positions_from List.filter concat].
  specialize (IH Hlen' Hno' (pre ++ c)).
  rewrite length_app, Hc in IH.
  destruct (literal (home_index home) c).
  - rewrite Hty. change (15 =? 15) with true. cbv iota.
    cbn [app patch_extras]. rewrite (app_assoc pre c (concat chunks)), <- IH. f_equal.
    unfold slice_assign, placeholder. change (15 =? 15) with true. cbv iota.
    rewrite take_app_length.
    rewrite (app_assoc pre (zeros CHUNK_SIZE)), drop_app_length'.
    + now rewrite <- app_assoc.
    + rewrite length_app. unfold zeros. now rewrite length_replicate.
  - destruct Hty as [Hne Hph]. rewrite Hph.
    assert ((chunk_type (home_index home) c =? 15) = false) as -> by now apply Z.eqb_neq.
    cbn [app]. rewrite !(app_assoc pre c). exact IH.
Qed.

Lemma chunks_of_concat (l : list (list byte)) :
  Forall (fun c => length c = CHUNK_SIZE) l -> chunks_of (concat l) = l.
Proof.
  induction 1 as [|c l Hc _ IH]; [reflexivity|].
  cbn [concat]. rewrite chunks_of_step.
  - rewrite take_app_length', drop_app_length' by (symmetry; exact Hc). now rewrite IH.
  - destruct c; [discriminate Hc|discriminate].
Qed.

(** ** The round trip, away from the last home entry *)

Lemma chunk_type_ok (home : list (list byte)) (c : list byte) :
  home_ok home -> type_ok (chunk_type (home_index home) c).
Proof.
  intros [Hlen _]. unfold chunk_type, type_ok.
  destruct (home_index home !! c) as [i|] eqn:E; [|lia].
  destruct (home_index_inv home c i E) as (n & -> & Hn).
  apply lookup_lt_Some in Hn. lia.
Qed.

(** What [decompress] returns on a container of [compress], for any input:
    the expansion of the types, patched with the literal chunks, trimmed. *)
Lemma decompress_compressed (gz : Gzip) (home : list (list byte)) (infile : list byte) :
  GzipLawful gz -> home_ok home ->
  Z.of_nat (length (fst (chunk_file infile))) < 2 ^ 32 ->
  Z.of_nat (length (gzip_compress gz
              (concat (snd (classify (home_index home) (fst (chunk_file infile))))))) < 2 ^ 32 ->
  let types := map (chunk_type (home_index home)) (fst (chunk_file infile)) in
  let extras := List.filter (literal (home_index home)) (fst (chunk_file infile)) in
  exists container,
    compress_with gz home infile = Ok container
    /\ forall junk,
         decompress_with gz home (container ++ junk)
         = Ok (take (length infile)
                 (patch_extras (positions_from 0 types) extras
                    (flat_map (placeholder home) types))).
Proof.
  intros Hgz Hhome Hcount Hblob.
  destruct (chunk_file_chunks infile) as (HL & Hcat & Hall & Hcnt).
  cbv zeta in HL, Hcat, Hall, Hcnt.
  set (pad := Z.to_nat ((- Z.of_nat (length infile)) mod 18)) in *.
  unfold compress_with.
  destruct (chunk_file infile) as [chunks L] eqn:Ecf. cbn [fst snd] in *. subst L.
  rewrite classify_spec in *. cbn [snd] in Hblob.
  set (idx := home_index home) in *.
  set (types := map (chunk_type idx) chunks).
  set (extras := List.filter (literal idx) chunks) in *.
  set (blob := if is_empty extras then [] else gzip_compress gz (concat extras)).
  set (stream := encode_bitstream types).
  assert (Hblob' : Z.of_nat (length blob) < 2 ^ 32).
  { unfold blob. destruct (is_empty extras); [simpl; lia|exact Hblob]. }
  rewrite (pack_le_ok 4), (pack_le_ok 8), (pack_le_ok 4); cbn [bind].
  2:{ change (256 ^ Z.of_nat 4) with (2 ^ 32). lia. }
  2:{ change (256 ^ Z.of_nat 8) with (2 ^ 64). unfold CHUNK_SIZE in Hcnt. lia. }
  2:{ change (256 ^ Z.of_nat 4) with (2 ^ 32). lia. }
  eexists. split; [reflexivity|]. intros junk.
  set (count := le_bytes 4 (Z.of_nat (length chunks))).
  set (olen := le_bytes 8 (Z.of_nat (length infile))).
  rewrite <- !app_assoc.
  set (post := le_bytes 4 (Z.of_nat (length blob)) ++ blob ++ junk).
  rewrite (app_assoc count olen).
  assert (Hlc : length count = 4%nat) by apply le_bytes_length.
  assert (Hlo : length olen = 8%nat) by apply le_bytes_length.
  assert (Hlpre : length (count ++ olen) = 12%nat) by (rewrite length_app; lia).
  assert (Htypes : Forall type_ok types).
  { unfold types. apply Forall_map, Forall_forall. intros c _.
    now apply chunk_type_ok. }
  set (container := (count ++ olen) ++ stream ++ post).
  assert (Hclen : length container = (12 + (length stream + length post))%nat).
  { unfold container. rewrite !length_app. lia. }
  destruct (decode_encoded_stream home types (count ++ olen) post (length container)
              Hhome Htypes) as (br & Hdec & Hex & Hwf & Hok & Hd & Hv & Hav & Hslen).
  { fold stream. lia. }
  fold stream in Hdec, Hd, Hv, Hav, Hslen. fold container in Hdec, Hd.
  rewrite Hlpre in Hdec.
  set (es := emitted_runs types) in *.
  set (T := total_bits (flat_map fields es)) in *.
  assert (Hcount4 : le_val (slice container 0 4) = Z.of_nat (length types)).
  { unfold slice, container. rewrite drop_0, <- !app_assoc.
    rewrite take_app_length' by (symmetry; exact Hlc).
    unfold count. rewrite le_val_le_bytes by (change (256 ^ Z.of_nat 4) with (2 ^ 32); lia).
    unfold types. now rewrite length_map. }
  assert (Holen8 : Z.to_nat (le_val (slice container 4 12)) = length infile).
  { unfold slice, container. rewrite <- !app_assoc.
    rewrite drop_app_length' by (symmetry; exact Hlc).
    rewrite take_app_length' by (symmetry; exact Hlo).
    unfold olen. rewrite le_val_le_bytes.
    - apply Nat2Z.id.
    - change (256 ^ Z.of_nat 8) with (2 ^ 64). unfold CHUNK_SIZE in Hcnt. lia. }
  unfold decompress_with, decode_container.
  assert ((length container <? 12)%nat = false) as -> by (apply Nat.ltb_ge; lia).
  rewrite Hcount4, Hdec. cbn [bind]. rewrite Holen8.
  pose proof (total_bits_nonneg _ (flat_fields_widths_ok es)) as HT. fold T in HT.
  assert (Hgap : 0 <= 8 * Z.of_nat (length stream) - T - 9) by (rewrite Hslen; div_lia).
  rewrite (read_extras_after_stream gz br (count ++ olen) stream blob junk T
             (2 ^ (8 * Z.of_nat (length stream) - T - 9) * le_val post));
    try assumption.
  2:{ pose proof (le_val_nonneg post). nia. }
  destruct (fold_expand_spec home es Hhome Hwf expansion_init) as [Hres Hposs].
  cbn [restored extras_positions expansion_init app length] in Hres, Hposs.
  rewrite Hex in Hres, Hposs.
  assert (Hextras_len : Forall (fun c => length c = CHUNK_SIZE) extras)
    by (apply filter_Forall; exact Hall).
  assert (Hfin : forall exbytes,
             chunks_of exbytes = extras ->
             Ok (finish (fold_left (expand_emitted home) es expansion_init) exbytes
                        (length infile))
             = Ok (take (length infile)
                     (patch_extras (positions_from 0 types) extras
                        (flat_map (placeholder home) types)))).
  { intros exbytes Hch. now rewrite finish_patch, Hres, Hposs, Hch. }
  unfold blob in *. destruct extras as [|e extras'] eqn:Eex.
  - cbn [is_empty]. cbn [bind]. apply Hfin. reflexivity.
  - cbn [is_empty] in *. rewrite <- Eex in *.
    destruct (Hgz (concat extras)) as [Hinv Hne].
    destruct (gzip_compress gz (concat extras)) as [|b bs] eqn:Eg; [congruence|].
    cbn [is_empty]. rewrite Hinv. cbn [bind]. apply Hfin.
    now apply chunks_of_concat.
Qed.

Lemma roundtrip_with (gz : Gzip) (home : list (list byte)) (infile : list byte) :
  GzipLawful gz -> home_ok home ->
  Forall (fun c => home_index home !! c <> Some 15) (fst (chunk_file infile)) ->
  Z.of_nat (length (fst (chunk_file infile))) < 2 ^ 32 ->
  Z.of_nat (length (gzip_compress gz
              (concat (snd (classify (home_index home) (fst (chunk_file infile))))))) < 2 ^ 32 ->
  exists container,
    compress_with gz home infile = Ok container
    /\ forall junk, decompress_with gz home (container ++ junk) = Ok infile.
Proof.
  intros Hgz Hhome Hno Hcount Hblob.
  destruct (decompress_compressed gz home infile Hgz Hhome Hcount Hblob) as (c & Hc & Hd).
  exists c. split; [exact Hc|]. intros junk. rewrite Hd. f_equal.
  destruct (chunk_file_chunks infile) as (_ & Hcat & Hall & _). cbv zeta in Hcat, Hall.
  pose proof (patch_restores home _ Hhome Hall Hno []) as Hp.
  cbn [app length] in Hp. rewrite Hp, Hcat.
  now apply take_app_length.
Qed.

Lemma no_home15_index (key : list byte) (chunks : list (list byte)) :
  Forall (fun c => c <> nth 15 (gen_home_from_key key) []) chunks ->
  Forall (fun c => home_index (gen_home_from_key key) !! c <> Some 15) chunks.
Proof.
  intros Hno. eapply Forall_impl; [exact Hno|]. intros c Hc Hidx. apply Hc.
  destruct (home_index_inv _ c 15 Hidx) as (n & Hn & Hl).
  assert (n = 15%nat) as -> by lia.
  symmetry. now apply nth_lookup_Some.
Qed.

(** The round trip holds for every input none of whose chunks is the last
    home entry, as long as the chunk count and the compressed extras fit
    their four-byte fields. *)
Theorem roundtrip_away_from_home15 (gz : Gzip) (infile world mapping key : list byte) :
  GzipLawful gz ->
  load_world world = Ok (mapping, key) ->
  let home := gen_home_from_key key in
  let chunks := fst (chunk_file infile) in
  Forall (fun c => c <> nth 15 home []) chunks ->
  Z.of_nat (length chunks) < 2 ^ 32 ->
  Z.of_nat (length (gzip_compress gz (concat (snd (classify (home_index home) chunks)))))
    < 2 ^ 32 ->
  exists container,
    compress gz infile world = Ok container
    /\ decompress gz container world = Ok infile.
Proof.
  intros Hgz Hw home chunks Hno Hcount Hblob.
  unfold compress, decompress. rewrite Hw. cbn [bind]. fold home.
  destruct (roundtrip_with gz home infile Hgz (gen_home_ok key)) as (c & Hc & Hd);
    try assumption.
  - apply (no_home15_index key). exact Hno.
  - exists c. split; [exact Hc|]. specialize (Hd []). now rewrite app_nil_r in Hd.
Qed.

Lemma roundtrip_away_from_home15_witness :
  exists container,
    compress stored_gzip sample_input world0 = Ok container
    /\ decompress stored_gzip container world0 = Ok sample_input.
Proof.
  apply (roundtrip_away_from_home15 stored_gzip sample_input world0 (zeros 16) key0).
  - exact stored_gzip_lawful.
  - reflexivity.
  - apply (bool_decide_unpack _). vm_compute. exact I.
  - vm_compute. reflexivity.
  - vm_compute. reflexivity.
Defined.

(** ** Classification against a table without repeated entries *)

Lemma home_index_NoDup (home : list (list byte)) (c : list byte) (n : nat) :
  NoDup home -> home !! n = Some c -> home_index home !! c = Some (Z.of_nat n).
Proof.
  intros Hnd Hn. apply home_index_Some; [exact Hn|].
  intros m Hm Hm'. pose proof (NoDup_lookup _ _ _ _ Hnd Hn Hm'). lia.
Qed.

(** For a key whose home table has no repeated entry: [classify] gives each
    chunk the type [chunk_type] and keeps the chunks [literal] selects; a
    chunk is kept as a literal exactly when it equals no home entry; it gets
    a type [n < 15] exactly when it equals [HomeTable[n]]; and it gets type
    15 exactly when it equals no entry or equals [HomeTable[15]]. *)
Theorem classification_by_home (key : list byte) (chunks : list (list byte)) :
  NoDup (gen_home_from_key key) ->
  let home := gen_home_from_key key in
  let index := home_index home in
  classify index chunks = (map (chunk_type index) chunks, List.filter (literal index) chunks)
  /\ forall c,
       (literal index c = true <-> ~ In c home)
       /\ (forall n, (n < 15)%nat ->
             (chunk_type index c = Z.of_nat n <-> home !! n = Some c))
       /\ (chunk_type index c = 15 <-> ~ In c home \/ home !! 15%nat = Some c).
Proof.
  intros Hnd home index. split; [apply classify_spec|]. intros c.
  assert (Hnone : index !! c = None <-> ~ In c home).
  { split.
    - intros Hidx Hin. apply list_elem_of_In, list_elem_of_lookup in Hin as [n Hn].
      unfold index in Hidx. rewrite (home_index_NoDup home c n Hnd Hn) in Hidx. discriminate.
    - apply home_index_None. }
  unfold literal, chunk_type.
  destruct (index !! c) as [i|] eqn:E.
  - destruct (home_index_inv home c i E) as (m & -> & Hm).
    assert (Hin : In c home) by (apply list_elem_of_In; eapply list_elem_of_lookup_2; exact Hm).
    split; [split; [discriminate|intros Hc; contradiction]|]. split.
    + intros n Hn. split.
      * intros Heq. apply Nat2Z.inj in Heq. now subst.
      * intros Hc. f_equal. exact (NoDup_lookup _ _ _ _ Hnd Hm Hc).
    + split.
      * intros Heq. right. assert (m = 15%nat) as <- by lia. exact Hm.
      * intros [Hc|Hc]; [contradiction|].
        rewrite (NoDup_lookup _ _ _ _ Hnd Hm Hc). reflexivity.
  - destruct Hnone as [Hnone _]. specialize (Hnone eq_refl).
    split; [split; [intros _; exact Hnone|reflexivity]|]. split.
    + intros n Hn. split; [lia|].
      intros Hc. exfalso. apply Hnone. apply list_elem_of_In.
      eapply list_elem_of_lookup_2. exact Hc.
    + split; [intros _; now left|reflexivity].
Qed.

Lemma classification_by_home_witness :
  classify (home_index home0) [nth 3 home0 []; zeros 18; nth 15 home0 []]
  = (map (chunk_type (home_index home0)) [nth 3 home0 []; zeros 18; nth 15 home0 []],
     List.filter (literal (home_index home0)) [nth 3 home0 []; zeros 18; nth 15 home0 []]).
Proof.
  apply (classification_by_home key0 [nth 3 home0 []; zeros 18; nth 15 home0 []]).
  exact home0_NoDup.
Defined.

(** ** The loop bounds of the model are never reached *)

Lemma read_extras_in_bound (gz : Gzip) (br : BitReader) :
  reader_ok br -> read_extras gz br <> Err OutOfFuel.
Proof.
  intros Hok. unfold read_extras.
  destruct (scan_marker_ends (Z.to_nat (avail br) + 1) br 0 Hok) as (flag & br' & -> & _).
  { pose proof (reader_ok_avail br Hok). lia. }
  destruct (length (data br') <? pos br' + 4)%nat; [discriminate|].
  destruct (is_empty _); [discriminate|].
  destruct (gzip_decompress gz _); discriminate.
Qed.

Lemma decompress_in_bound (gz : Gzip) (d world : list byte) :
  decompress gz d world <> Err OutOfFuel.
Proof.
  unfold decompress. destruct (load_world world) as [[mapping key]|e] eqn:Ew.
  2:{ unfold load_world in Ew. destruct (length world <? 32)%nat; [|discriminate].
      injection Ew as <-. discriminate. }
  cbn [bind]. unfold decompress_with.
  destruct (Nat.lt_ge_cases (length d) 12) as [Hlt|Hge].
  - unfold decode_container.
    assert ((length d <? 12)%nat = true) as -> by now apply Nat.ltb_lt.
    discriminate.
  - destruct (decode_container_outcome _ d (gen_home_ok key) Hge)
      as [(br & st & runs & -> & Hok & _)| ->]; [|discriminate].
    cbn [bind]. pose proof (read_extras_in_bound gz br Hok) as Hex.
    destruct (read_extras gz br) as [extras|e]; [discriminate|].
    cbn [bind]. congruence.
Qed.

(** ** The world file *)

Lemma load_world_ok (world : list byte) :
  (32 <= length world)%nat ->
  load_world world = Ok (slice world 0 16, slice world 16 32).
Proof.
  intros H. unfold load_world.
  assert ((length world <? 32)%nat = false) as -> by (apply Nat.ltb_ge; lia).
  reflexivity.
Qed.

Lemma load_world_short (world : list byte) :
  (length world < 32)%nat -> load_world world = Err WorldTooShort.
Proof.
  intros H. unfold load_world.
  assert ((length world <? 32)%nat = true) as -> by (apply Nat.ltb_lt; lia).
  reflexivity.
Qed.

Lemma compress_with_errors (gz : Gzip) (home : list (list byte)) (infile : list byte)
    (e : error) :
  compress_with gz home infile = Err e -> e = PackOverflow.
Proof.
  unfold compress_with. destruct (chunk_file infile) as [chunks orig_len].
  destruct (classify (home_index home) chunks) as [types extras].
  unfold pack_le.
  repeat match goal with
         | |- context [if ?b then Ok _ else Err _] => destruct b; cbn [bind]
         end; congruence.
Qed.

Lemma read_extras_errors (gz : Gzip) (br : BitReader) (e : error) :
  reader_ok br -> read_extras gz br = Err e ->
  e = MissingExtrasLength \/ e = GzipError.
Proof.
  intros Hok. unfold read_extras.
  destruct (scan_marker_ends (Z.to_nat (avail br) + 1) br 0 Hok) as (flag & br' & -> & _).
  { pose proof (reader_ok_avail br Hok). lia. }
  destruct (length (data br') <? pos br' + 4)%nat; [intros [= <-]; now left|].
  destruct (is_empty _); [discriminate|].
  destruct (gzip_decompress gz _); [discriminate|intros [= <-]; now right].
Qed.

Lemma decompress_with_outcome (gz : Gzip) (home : list (list byte)) (d : list byte) :
  home_ok home -> (12 <= length d)%nat ->
  (exists out, decompress_with gz home d = Ok out)
  \/ decompress_with gz home d = Err TruncatedBitstream
  \/ decompress_with gz home d = Err MissingExtrasLength
  \/ decompress_with gz home d = Err GzipError.
Proof.
  intros Hhome Hge. unfold decompress_with.
  destruct (decode_container_outcome home d Hhome Hge)
    as [(br & st & runs & -> & Hok & _)| ->]; [|right; left; reflexivity].
  cbn [bind]. pose proof (read_extras_errors gz br) as Hex.
  destruct (read_extras gz br) as [extras|e]; cbn [bind].
  - left. eexists. reflexivity.
  - destruct (Hex e Hok eq_refl) as [-> | ->]; auto.
Qed.

Lemma decompress_with_short (gz : Gzip) (home : list (list byte)) (d : list byte) :
  (length d < 12)%nat -> decompress_with gz home d = Err InputTooShort.
Proof.
  intros Hlt. unfold decompress_with, decode_container.
  assert ((length d <? 12)%nat = true) as -> by now apply Nat.ltb_lt.
  reflexivity.
Qed.

(** [compress] and [decompress] fail with the world-file error exactly
    when the world file has fewer than 32 bytes, whatever the input is; and
    of a world file of at least 32 bytes they use bytes 16..31 (the key)
    only: the mapping table in bytes 0..15 and everything from byte 32 on
    change nothing. *)
Theorem world_file_use (gz : Gzip) (infile world : list byte) :
  (compress gz infile world = Err WorldTooShort <-> (length world < 32)%nat)
  /\ (decompress gz infile world = Err WorldTooShort <-> (length world < 32)%nat)
  /\ forall world',
       (32 <= length world)%nat -> (32 <= length world')%nat ->
       slice world 16 32 = slice world' 16 32 ->
       compress gz infile world = compress gz infile world'
       /\ decompress gz infile world = decompress gz infile world'.
Proof.
  split; [|split].
  - split.
    + intros H. destruct (Nat.lt_ge_cases (length world) 32) as [Hlt|Hge]; [exact Hlt|].
      unfold compress in H. rewrite (load_world_ok world Hge) in H. cbn [bind] in H.
      apply compress_with_errors in H. discriminate.
    + intros H. unfold compress. now rewrite (load_world_short world H).
  - split.
    + intros H. destruct (Nat.lt_ge_cases (length world) 32) as [Hlt|Hge]; [exact Hlt|].
      unfold decompress in H. rewrite (load_world_ok world Hge) in H. cbn [bind] in H.
      destruct (Nat.lt_ge_cases (length infile) 12) as [Hs|Hl].
      * rewrite decompress_with_short in H by exact Hs. discriminate.
      * destruct (decompress_with_outcome gz _ infile (gen_home_ok (slice world 16 32)) Hl)
          as [[out Ho]|[Ho|[Ho|Ho]]]; rewrite Ho in H; discriminate.
    + intros H. unfold decompress. now rewrite (load_world_short world H).
  - intros world' Hw Hw' Hkey. unfold compress, decompress.
    rewrite (load_world_ok world Hw), (load_world_ok world' Hw'). cbn [bind].
    rewrite Hkey. split; reflexivity.
Qed.

(** The ways [decompress] can end: the world-file error for a world
    file shorter than 32 bytes; otherwise the input-too-short error for a
    container shorter than its 12-byte header; otherwise success, the
    truncated-stream error, the missing-extras-length error or a failure of
    [gzip.decompress]. In particular [home[t]] is never out of range. *)
Theorem decompress_outcomes (gz : Gzip) (d world : list byte) :
  ((length world < 32)%nat -> decompress gz d world = Err WorldTooShort)
  /\ ((32 <= length world)%nat -> (length d < 12)%nat ->
      decompress gz d world = Err InputTooShort)
  /\ ((32 <= length world)%nat -> (12 <= length d)%nat ->
      (exists out, decompress gz d world = Ok out)
      \/ decompress gz d world = Err TruncatedBitstream
      \/ decompress gz d world = Err MissingExtrasLength
      \/ decompress gz d world = Err GzipError)
  /\ decompress gz d world <> Err IndexError.
Proof.
  assert (H1 : (length world < 32)%nat -> decompress gz d world = Err WorldTooShort).
  { intros H. unfold decompress. now rewrite (load_world_short world H). }
  assert (H2 : (32 <= length world)%nat -> (length d < 12)%nat ->
               decompress gz d world = Err InputTooShort).
  { intros Hw Hd. unfold decompress. rewrite (load_world_ok world Hw). cbn [bind].
    now apply decompress_with_short. }
  assert (H3 : (32 <= length world)%nat -> (12 <= length d)%nat ->
      (exists out, decompress gz d world = Ok out)
      \/ decompress gz d world = Err TruncatedBitstream
      \/ decompress gz d world = Err MissingExtrasLength
      \/ decompress gz d world = Err GzipError).
  { intros Hw Hd. unfold decompress. rewrite (load_world_ok world Hw). cbn [bind].
    apply decompress_with_outcome; [apply gen_home_ok|exact Hd]. }
  split; [exact H1|]. split; [exact H2|]. split; [exact H3|].
  destruct (Nat.lt_ge_cases (length world) 32) as [Hlt|Hge].
  - rewrite (H1 Hlt). discriminate.
  - destruct (Nat.lt_ge_cases (length d) 12) as [Hs|Hl].
    + rewrite (H2 Hge Hs). discriminate.
    + destruct (H3 Hge Hl) as [[out Ho]|[Ho|[Ho|Ho]]]; rewrite Ho; discriminate.
Qed.

(** ** What compress writes *)

Lemma total_bits_fields_le (es : list emitted) :
  Forall well_formed es -> total_bits (flat_map fields es) <= 13 * Z.of_nat (length es).
Proof.
  induction 1 as [|e es He _ IH]; [simpl; lia|].
  cbn [flat_map length]. rewrite total_bits_app.
  assert (total_bits (fields e) <= 13) by (destruct e; simpl in *; [lia|contradiction|lia]).
  lia.
Qed.

Lemma length_le_sum_consumed (es : list emitted) :
  Forall well_formed es -> Z.of_nat (length es) <= sum_consumed es.
Proof.
  induction 1 as [|e es He _ IH]; [simpl; lia|].
  cbn [length]. rewrite Nat2Z.inj_succ.
  change (sum_consumed (e :: es)) with (consumed e + sum_consumed es).
  pose proof (well_formed_consumed e He). lia.
Qed.

(** The length of the encoded stream, from the sub-runs emitted. *)
Lemma encode_bitstream_length (types : list Z) :
  let es := emitted_runs types in
  let T := total_bits (flat_map fields es) in
  Forall well_formed es
  /\ expand_types es = types
  /\ Z.of_nat (length (encode_bitstream types)) = (T + 16) / 8
  /\ 8 * Z.of_nat (length es) <= T <= 13 * Z.of_nat (length es)
  /\ (length es <= length types)%nat.
Proof.
  intros es T.
  destruct (encode_types_spec types) as (es' & Hen & Hwf & Hex).
  assert (Hes : es = es') by (unfold es, emitted_runs; now rewrite Hen).
  assert (Hstream : encode_bitstream types
                    = flush_final (write_all writer_init (flat_map fields es ++ [(511, 9)]))).
  { unfold encode_bitstream. rewrite Hen, Hes. reflexivity. }
  rewrite <- Hes in Hwf, Hex. clear Hen Hes es'.
  assert (Hwf0 : Forall well_formed es).
  { eapply Forall_impl; [exact Hwf|]. now intros ? [_ ?]. }
  pose proof (flat_fields_widths_ok es) as HwF.
  assert (HwM : widths_ok [(511, 9)]) by (repeat constructor; simpl; lia).
  destruct (write_all_spec _ writer_init writer_init_ok (widths_ok_app _ _ HwF HwM))
    as (Hok & _ & Hbits).
  destruct (flush_final_spec _ Hok) as (_ & Hlen). rewrite <- Hstream in Hlen.
  change (wbits writer_init) with 0 in Hbits.
  rewrite total_bits_app in Hbits. fold T in Hbits.
  change (total_bits [(511, 9)]) with 9 in Hbits.
  split; [exact Hwf0|]. split; [exact Hex|].
  split; [rewrite Hlen, Hbits; f_equal; lia|].
  split; [split; [apply total_bits_fields_ge|apply total_bits_fields_le]; exact Hwf0|].
  pose proof (length_le_sum_consumed es Hwf0) as H1.
  rewrite <- (length_expand_types es Hwf0), Hex in H1. lia.
Qed.

Lemma Ok_inj {A} (a b : A) : Ok a = Ok b -> a = b.
Proof. congruence. Qed.

(** [compress], once the home table is there, in one equation. *)
Lemma compress_with_layout (gz : Gzip) (home : list (list byte)) (infile : list byte) :
  let chunks := fst (chunk_file infile) in
  let types := fst (classify (home_index home) chunks) in
  let extras := snd (classify (home_index home) chunks) in
  let blob := if is_empty extras then [] else gzip_compress gz (concat extras) in
  compress_with gz home infile
  = if (Z.of_nat (length chunks) <? 2 ^ 32) && (Z.of_nat (length blob) <? 2 ^ 32)
    then Ok (le_bytes 4 (Z.of_nat (length chunks)) ++ le_bytes 8 (Z.of_nat (length infile))
             ++ encode_bitstream types ++ le_bytes 4 (Z.of_nat (length blob)) ++ blob)
    else Err PackOverflow.
Proof.
  intros chunks types extras blob.
  destruct (chunk_file_chunks infile) as (HL & _ & _ & Hcnt). cbv zeta in HL, Hcnt.
  unfold compress_with. fold chunks in Hcnt. subst types extras blob chunks.
  destruct (chunk_file infile) as [chunks L]. cbn [fst snd] in *. subst L.
  destruct (classify (home_index home) chunks) as [types extras]. cbn [fst snd].
  set (blob := if is_empty extras then [] else gzip_compress gz (concat extras)).
  unfold pack_le.
  change (256 ^ Z.of_nat 4) with (2 ^ 32). change (256 ^ Z.of_nat 8) with (2 ^ 64).
  assert ((0 <=? Z.of_nat (length chunks)) = true) as -> by (apply Z.leb_le; lia).
  assert ((0 <=? Z.of_nat (length infile)) = true) as -> by (apply Z.leb_le; lia).
  assert ((0 <=? Z.of_nat (length blob)) = true) as -> by (apply Z.leb_le; lia).
  cbn [andb].
  destruct (Z.ltb_spec (Z.of_nat (length chunks)) (2 ^ 32)) as [Hc|Hc]; cbn [bind andb];
    [|reflexivity].
  assert ((Z.of_nat (length infile) <? 2 ^ 64) = true) as ->.
  { apply Z.ltb_lt. unfold CHUNK_SIZE in Hcnt. lia. }
  cbn [bind].
  destruct (Z.of_nat (length blob) <? 2 ^ 32); reflexivity.
Qed.

(** With a world file of at least 32 bytes, [compress] succeeds exactly
    when the chunk count and the length of the compressed extras fit their
    four-byte fields, and fails with the packing error otherwise. On
    success the container is the chunk count on 4 bytes, the input length
    on 8 bytes, the bit stream of the types, the length of the extras blob
    on 4 bytes, and the blob; the blob is empty when no chunk was kept as a
    literal, and [gzip.compress] of the literal chunks otherwise. *)
Theorem compress_container (gz : Gzip) (infile world : list byte) :
  (32 <= length world)%nat ->
  let home := gen_home_from_key (slice world 16 32) in
  let chunks := fst (chunk_file infile) in
  let types := fst (classify (home_index home) chunks) in
  let extras := snd (classify (home_index home) chunks) in
  let blob := if is_empty extras then [] else gzip_compress gz (concat extras) in
  (Z.of_nat (length chunks) < 2 ^ 32 /\ Z.of_nat (length blob) < 2 ^ 32 ->
   compress gz infile world
   = Ok (le_bytes 4 (Z.of_nat (length chunks)) ++ le_bytes 8 (Z.of_nat (length infile))
         ++ encode_bitstream types ++ le_bytes 4 (Z.of_nat (length blob)) ++ blob))
  /\ (2 ^ 32 <= Z.of_nat (length chunks) \/ 2 ^ 32 <= Z.of_nat (length blob) ->
      compress gz infile world = Err PackOverflow).
Proof.
  intros Hw home chunks types extras blob.
  unfold compress. rewrite (load_world_ok world Hw). cbn [bind]. fold home.
  rewrite compress_with_layout. fold chunks types extras blob.
  split.
  - intros [Hc Hb].
    apply Z.ltb_lt in Hc, Hb. now rewrite Hc, Hb.
  - intros [Hc|Hb].
    + apply Z.ltb_ge in Hc. now rewrite Hc.
    + apply Z.ltb_ge in Hb. rewrite Hb, andb_false_r. reflexivity.
Qed.

Lemma compress_container_witness :
  (32 <= length world0)%nat
  /\ compress stored_gzip sample_input world0
     = Ok (map byte_of_Z [3; 0; 0; 0; 39; 0; 0; 0; 0; 0; 0; 0; 79; 255; 1; 56; 0; 0; 0; 31; 139]
           ++ sample_input ++ zeros 15).
Proof.
  split; [vm_compute; lia|].
  destruct (compress_container stored_gzip sample_input world0) as [H _];
    [vm_compute; lia|].
  rewrite H; [vm_compute; reflexivity|].
  split; vm_compute; reflexivity.
Defined.

(** The header of a container [compress] has written: bytes 0..3 hold
    the chunk count, the input length divided by 18 and rounded up; bytes
    4..11 hold the input length; the container has at least 18 bytes (the
    header, a bit stream of two bytes or more, the extras length); and the
    input has at most 18 * (2^32 - 1) bytes. *)
Theorem compress_header (gz : Gzip) (infile world container : list byte) :
  compress gz infile world = Ok container ->
  le_val (slice container 0 4) = (Z.of_nat (length infile) + 17) / 18
  /\ le_val (slice container 4 12) = Z.of_nat (length infile)
  /\ (18 <= length container)%nat
  /\ Z.of_nat (length infile) <= 18 * (2 ^ 32 - 1).
Proof.
  intros H. unfold compress in H.
  destruct (load_world world) as [[mapping key]|e]; [|discriminate]. cbn [bind] in H.
  rewrite compress_with_layout in H.
  set (chunks := fst (chunk_file infile)) in *.
  set (types := fst (classify (home_index (gen_home_from_key key)) chunks)) in *.
  set (blob := if is_empty _ then [] else _) in *.
  destruct (Z.ltb_spec (Z.of_nat (length chunks)) (2 ^ 32)) as [Hc|Hc]; [|discriminate].
  destruct (Z.ltb_spec (Z.of_nat (length blob)) (2 ^ 32)) as [Hb|Hb]; [|discriminate].
  cbn [andb] in H. apply Ok_inj in H. subst container.
  destruct (chunk_file_chunks infile) as (_ & _ & _ & Hcnt). cbv zeta in Hcnt.
  fold chunks in Hcnt. unfold CHUNK_SIZE in Hcnt.
  set (count := le_bytes 4 (Z.of_nat (length chunks))).
  set (olen := le_bytes 8 (Z.of_nat (length infile))).
  assert (Hlc : length count = 4%nat) by apply le_bytes_length.
  assert (Hlo : length olen = 8%nat) by apply le_bytes_length.
  destruct (encode_bitstream_length types) as (_ & _ & Hlen & [Hlo8 _] & _).
  cbv zeta in Hlen, Hlo8.
  split; [|split; [|split]].
  - unfold slice. rewrite drop_0, take_app_length' by (symmetry; exact Hlc).
    unfold count. rewrite le_val_le_bytes by (change (256 ^ Z.of_nat 4) with (2 ^ 32); lia).
    div_lia.
  - unfold slice. rewrite drop_app_length' by (symmetry; exact Hlc).
    rewrite take_app_length' by (symmetry; exact Hlo).
    unfold olen. rewrite le_val_le_bytes; [reflexivity|].
    change (256 ^ Z.of_nat 8) with (2 ^ 64). lia.
  - rewrite !length_app, Hlc, Hlo, le_bytes_length.
    assert (2 <= Z.of_nat (length (encode_bitstream types))) by (rewrite Hlen; div_lia).
    lia.
  - div_lia.
Qed.

Lemma compress_header_witness :
  exists container,
    compress stored_gzip sample_input world0 = Ok container
    /\ le_val (slice container 0 4) = 3
    /\ le_val (slice container 4 12) = 39.
Proof.
  destruct (compress stored_gzip sample_input world0) as [c|e] eqn:E;
    [|vm_compute in E; discriminate].
  exists c. split; [reflexivity|].
  destruct (compress_header stored_gzip sample_input world0 c E) as (H1 & H2 & _).
  split; [rewrite H1|rewrite H2]; vm_compute; reflexivity.
Defined.

(** The bit stream [compress] builds for a sequence of [n] types has at
    least two bytes and at most [(13 * n + 16) / 8]: every sub-run takes 8
    or 13 bits and stands for at least one chunk, and the marker takes 9
    bits. *)
Theorem bitstream_size (types : list Z) :
  2 <= Z.of_nat (length (encode_bitstream types))
  /\ 8 * Z.of_nat (length (encode_bitstream types)) <= 13 * Z.of_nat (length types) + 16
  /\ (length (emitted_runs types) <= length types)%nat.
Proof.
  destruct (encode_bitstream_length types) as (_ & _ & Hlen & [Hlo Hhi] & Hn).
  cbv zeta in Hlen, Hlo, Hhi, Hn.
  split; [rewrite Hlen; div_lia|]. split; [rewrite Hlen; div_lia|exact Hn].
Qed.

(** ** A run of equal types *)

(** The sub-runs the inner loop adds for a run of [rem] chunks. *)
Lemma encode_run_log_length (fuel : nat) :
  forall (w : BitWriter) (t rem : Z) (log : list emitted),
    0 <= rem < Z.of_nat fuel ->
    Z.of_nat (length (snd (encode_run fuel w t rem log)))
    <= Z.of_nat (length log) + (if rem <=? 8 then 1 else rem / 256 + 2).
Proof.
  induction fuel as [|fuel IH]; intros w t rem log Hrem; [lia|].
  cbn [encode_run].
  destruct (Z.ltb_spec 0 rem) as [Hpos|Hz].
  2:{ cbn [snd]. destruct (rem <=? 8); div_lia. }
  destruct (Z.leb_spec rem 8) as [Hle|Hgt].
  - cbv zeta. destruct fuel as [|fuel']; [lia|].
    cbn [encode_run]. change (0 <? 0) with false. cbv iota. cbn [snd].
    rewrite length_app. cbn [length]. lia.
  - cbv zeta.
    assert ((rem <? 8) = false) as -> by (apply Z.ltb_ge; lia).
    set (M := Z.min 31 (rem / 8 - 1)).
    assert (HM : 0 <= M <= 31) by (unfold M; div_lia).
    assert ((M <? 0) = false) as -> by (apply Z.ltb_ge; lia).
    set (w' := write_bits _ M 5).
    assert (Hrem' : 0 <= rem - 8 * (M + 1) < Z.of_nat fuel) by (unfold M in *; div_lia).
    specialize (IH w' t (rem - 8 * (M + 1)) (log ++ [Extended t 8 M]) Hrem').
    rewrite length_app in IH. cbn [length] in IH.
    destruct (Z.leb_spec (rem - 8 * (M + 1)) 8) as [Hs|Hs]; unfold M in *; div_lia.
Qed.

Lemma scan_run_replicate (fuel : nat) :
  forall (n : nat) (t : Z) (j : nat),
    (j + fuel = n)%nat -> scan_run fuel (replicate n t) t j = n.
Proof.
  induction fuel as [|fuel IH]; intros n t j Hj; cbn [scan_run]; [lia|].
  rewrite lookup_replicate_2 by lia. rewrite Z.eqb_refl.
  apply IH. lia.
Qed.

Lemma encode_types_replicate (n : nat) (t : Z) :
  emitted_runs (replicate (S n) t)
  = snd (encode_run (S (S n)) writer_init t (Z.of_nat (S n)) []).
Proof.
  unfold emitted_runs, encode_types. rewrite length_replicate.
  cbn [encode_loop]. rewrite lookup_replicate_2 by lia.
  rewrite length_replicate.
  replace (S n - 1)%nat with n by lia.
  rewrite (scan_run_replicate n (S n) t 1) by lia.
  replace (S n - 0)%nat with (S n) by lia.
  rewrite Nat2Z.id.
  destruct (encode_run (S (S n)) writer_init t (Z.of_nat (S n)) []) as [w log].
  assert (Hstop : encode_loop n (replicate (S n) t) (S n) w log = (w, log)).
  { destruct n as [|n']; [reflexivity|].
    cbn [encode_loop]. rewrite lookup_ge_None_2; [reflexivity|rewrite length_replicate; lia]. }
  rewrite Hstop. reflexivity.
Qed.

(** A sequence of [n] equal types is encoded as one run: at most
    [n / 256 + 2] sub-runs, so the bit stream has at most
    [(13 * (n / 256) + 42) / 8] bytes. *)
Theorem equal_types_one_run (n : nat) (t : Z) :
  Z.of_nat (length (emitted_runs (replicate n t))) <= Z.of_nat n / 256 + 2
  /\ 8 * Z.of_nat (length (encode_bitstream (replicate n t)))
     <= 13 * (Z.of_nat n / 256) + 42.
Proof.
  assert (H : Z.of_nat (length (emitted_runs (replicate n t))) <= Z.of_nat n / 256 + 2).
  { destruct n as [|n]; [vm_compute; discriminate|].
    rewrite encode_types_replicate.
    pose proof (encode_run_log_length (S (S n)) writer_init t (Z.of_nat (S n)) []
                  ltac:(lia)) as Hl.
    cbn [length] in Hl.
    destruct (Z.of_nat (S n) <=? 8); div_lia. }
  split; [exact H|].
  destruct (encode_bitstream_length (replicate n t)) as (_ & _ & Hlen & [_ Hhi] & _).
  cbv zeta in Hlen, Hhi. rewrite Hlen. div_lia.
Qed.

(** ** The types and the extras pool of any input *)

Lemma home_index_elem (home : list (list byte)) (c : list byte) :
  In c home -> exists i, home_index home !! c = Some i.
Proof.
  induction home as [|h home IH] using rev_ind; intros Hc; [contradiction|].
  rewrite home_index_snoc. apply in_app_iff in Hc.
  destruct (decide (h = c)) as [->|Hne].
  - eexists. apply lookup_insert_eq.
  - rewrite lookup_insert_ne by exact Hne. apply IH.
    destruct Hc as [Hc|[Hc|[]]]; [exact Hc|contradiction].
Qed.

(** Whatever the key and the chunks: [compress] computes one type per
    chunk, each of them in 0..15 (so that the four bits written hold it),
    and the extras pool is made of the chunks that are byte-identical to no
    home entry, in their order. *)
Theorem classify_shape (key : list byte) (chunks : list (list byte)) :
  let home := gen_home_from_key key in
  let types := fst (classify (home_index home) chunks) in
  let extras := snd (classify (home_index home) chunks) in
  length types = length chunks
  /\ Forall type_ok types
  /\ extras = List.filter (fun c => bool_decide (c ∉ home)) chunks
  /\ (length extras <= length (List.filter (fun t : Z => (t =? 15)%Z) types))%nat.
Proof.
  intros home types extras. subst types extras. rewrite classify_spec. cbn [fst snd].
  pose proof (gen_home_ok key) as [Hlen _]. fold home in Hlen.
  split; [apply length_map|]. split; [|split].
  - apply Forall_map, Forall_forall. intros c _. unfold chunk_type, type_ok.
    destruct (home_index home !! c) as [i|] eqn:E; [|lia].
    destruct (home_index_inv home c i E) as (n & -> & Hn).
    apply lookup_lt_Some in Hn. lia.
  - apply filter_ext. intros c. unfold literal.
    destruct (home_index home !! c) as [i|] eqn:E.
    + symmetry. apply bool_decide_eq_false. intros Hc. apply Hc.
      destruct (home_index_inv home c i E) as (n & _ & Hn).
      eapply list_elem_of_lookup_2. exact Hn.
    + symmetry. apply bool_decide_eq_true. intros Hc.
      apply list_elem_of_In, home_index_elem in Hc as [i Hi]. congruence.
  - induction chunks as [|c chunks IH]; [reflexivity|].
    cbn [map List.filter]. unfold literal at 1, chunk_type at 1.
    destruct (home_index home !! c) as [i|].
    + destruct (i =? 15); cbn [length]; lia.
    + change (15 =? 15) with true. cbn [length]. lia.
Qed.

(** ** The expansion of any container *)

Lemma decoded_types_snoc (runs : list (Z * Z)) (t run : Z) :
  decoded_types (runs ++ [(t, run)]) = decoded_types runs ++ replicate (Z.to_nat run) t.
Proof.
  unfold decoded_types. rewrite flat_map_app. cbn [flat_map fst snd].
  now rewrite app_nil_r.
Qed.

Lemma expansion_of_step (home : list (list byte)) (runs : list (Z * Z)) (st st' : expansion)
    (t run : Z) :
  home_ok home -> type_ok t -> 0 <= run -> expansion_of home runs st ->
  expand_run home st t run = Ok st' ->
  expansion_of home (runs ++ [(t, run)]) st'.
Proof.
  intros Hhome Ht Hr (Hres & Hps & Hexp & Hty) Hrun.
  rewrite expand_run_spec in Hrun by assumption. apply Ok_inj in Hrun. subst st'.
  unfold expansion_of. cbn [restored extras_positions expanded].
  rewrite decoded_types_snoc.
  assert (Hlen : length (restored st) = (length (decoded_types runs) * CHUNK_SIZE)%nat).
  { rewrite Hres. now apply flat_placeholder_length. }
  split; [now rewrite flat_map_app, Hres|]. split; [|split].
  - rewrite positions_from_app, Hps, Hlen. reflexivity.
  - rewrite length_app, length_replicate, Hexp. lia.
  - apply Forall_app. split; [exact Hty|]. apply Forall_replicate. exact Ht.
Qed.

Lemma decode_runs_closed_form (fuel : nat) :
  forall (home : list (list byte)) (chunks_count : Z) (br : BitReader) (st : expansion)
         (runs : list (Z * Z)) (br' : BitReader) (st' : expansion) (runs' : list (Z * Z)),
    home_ok home -> reader_ok br -> expansion_of home runs st ->
    decode_runs fuel home chunks_count br st runs = Ok (br', st', runs') ->
    expansion_of home runs' st'
    /\ chunks_count <= expanded st'
    /\ (expanded st' < chunks_count + 256 \/ expanded st' = expanded st).
Proof.
  induction fuel as [|fuel IH]; intros home cnt br st runs br' st' runs' Hhome Hok Hinv;
    cbn [decode_runs]; (destruct (Z.ltb_spec (expanded st) cnt) as [Hlt|Hge];
      [|intros [= <- <- <-]; split; [exact Hinv|]; split; [lia|now right]]);
    [discriminate|].
  destruct (read_run br) as [[[t run]|e] br1] eqn:Er; [|discriminate].
  destruct (read_run_ok_inv br t run br1 Hok Er) as (Hok1 & _ & _ & _ & Ht & Hrun).
  destruct (expand_run home st t run) as [st1|e] eqn:Ex; [|discriminate]. cbn [bind].
  intros Hdec.
  pose proof (expansion_of_step home runs st st1 t run Hhome Ht ltac:(lia) Hinv Ex) as Hinv1.
  destruct (expand_run_ok home st t run Hhome Ht) as (st1' & Ex' & Hexp1).
  rewrite Ex in Ex'. apply Ok_inj in Ex'. subst st1'.
  destruct (IH home cnt br1 st1 _ br' st' runs' Hhome Hok1 Hinv1 Hdec) as (Hf & Hc & Hb).
  split; [exact Hf|]. split; [exact Hc|]. left. lia.
Qed.

(** What the run loop of [decompress] has built when it ends, for any
    container: with [types] the type sequence of the runs it read, the
    buffer is the concatenation, type by type, of the home entry of the
    type or of 18 zero bytes for Type 15; the recorded positions are the
    offsets of the Type-15 chunks; every type is in 0..15; and the number
    of chunks expanded is at least the chunk count of the header and less
    than that count plus 256 (the last run is not cut to fit). *)
Theorem expansion_closed_form (key d : list byte) (br : BitReader) (st : expansion)
    (runs : list (Z * Z)) :
  decode_container (gen_home_from_key key) d = Ok (br, st, runs) ->
  let home := gen_home_from_key key in
  let types := decoded_types runs in
  restored st = flat_map (placeholder home) types
  /\ extras_positions st = positions_from 0 types
  /\ expanded st = Z.of_nat (length types)
  /\ Forall type_ok types
  /\ length (restored st) = (length types * CHUNK_SIZE)%nat
  /\ le_val (slice d 0 4) <= Z.of_nat (length types) < le_val (slice d 0 4) + 256.
Proof.
  intros Hdec home types. unfold decode_container in Hdec.
  destruct (Nat.ltb_spec (length d) 12) as [Hlt|Hge]; [discriminate|].
  assert (Hinit : expansion_of home [] expansion_init).
  { repeat split. constructor. }
  destruct (decode_runs_closed_form _ _ _ _ _ _ _ _ _ (gen_home_ok key)
              (reader_start_ok d Hge) Hinit Hdec) as ((Hres & Hps & Hexp & Hty) & Hc & Hb).
  fold types in Hres, Hps, Hexp, Hty.
  split; [exact Hres|]. split; [exact Hps|]. split; [exact Hexp|]. split; [exact Hty|].
  split.
  - rewrite Hres. apply flat_placeholder_length; [apply gen_home_ok|exact Hty].
  - pose proof (le_val_nonneg (slice d 0 4)). cbn [expanded expansion_init] in Hb. lia.
Qed.

Lemma expansion_closed_form_witness :
  exists br st runs,
    decode_container (gen_home_from_key key0) home3x2_container = Ok (br, st, runs)
    /\ expanded st = Z.of_nat (length (decoded_types runs))
    /\ length (restored st) = (length (decoded_types runs) * CHUNK_SIZE)%nat.
Proof.
  destruct (decode_container (gen_home_from_key key0) home3x2_container)
    as [[[br st] runs]|e] eqn:E; [|vm_compute in E; discriminate].
  exists br, st, runs. split; [reflexivity|].
  destruct (expansion_closed_form key0 home3x2_container br st runs E)
    as (_ & _ & H3 & _ & H5 & _).
  split; [exact H3|exact H5].
Defined.

(** ** The part of the extras pool that is used *)

Lemma chunks_of_take (k : nat) :
  forall d : list byte, chunks_of (take (k * CHUNK_SIZE) d) = take k (chunks_of d).
Proof.
  induction k as [|k IH]; intros d.
  - cbn [Nat.mul]. rewrite !take_0. apply chunks_of_nil.
  - destruct d as [|b d]; [now rewrite take_nil, chunks_of_nil|].
    rewrite (chunks_of_step (b :: d)) by discriminate.
    rewrite chunks_of_step by (unfold CHUNK_SIZE; cbn; discriminate).
    rewrite (firstn_cons k (take CHUNK_SIZE (b :: d))). f_equal.
    + rewrite take_take. f_equal; unfold CHUNK_SIZE; lia.
    + rewrite <- IH. f_equal.
      replace (S k * CHUNK_SIZE)%nat with (CHUNK_SIZE + k * CHUNK_SIZE)%nat by lia.
      symmetry. apply take_drop_commute.
Qed.

Lemma patch_extras_take (ps : list nat) :
  forall (ex : list (list byte)) (out : list byte),
    patch_extras ps ex out = patch_extras ps (take (length ps) ex) out.
Proof.
  induction ps as [|p ps IH]; intros ex out; [reflexivity|].
  destruct ex as [|c ex]; [reflexivity|].
  cbn [patch_extras length take]. apply IH.
Qed.

(** Of the decompressed extras pool, [decompress] uses the first
    18 bytes for each recorded Type-15 position and nothing else: whatever
    follows them changes nothing in the output. *)
Theorem extras_prefix_used (st : expansion) (extras : list byte) (orig_len : nat) :
  finish st extras orig_len
  = finish st (take (length (extras_positions st) * CHUNK_SIZE) extras) orig_len.
Proof.
  rewrite !finish_patch, chunks_of_take, <- patch_extras_take. reflexivity.
Qed.

(** ** The bit reader *)

(** [read_bits(n)] on a reader with [avail] bits left: when [n] is at
    most [avail] it returns a value below [2^n] and leaves [avail - n] bits;
    otherwise it fails with the truncated-stream error, having taken every
    byte of the data. *)
Theorem read_bits_outcome (br : BitReader) (n : Z) :
  reader_ok br -> 0 <= n ->
  (n <= avail br ->
   exists v br',
     read_bits br n = (Ok v, br') /\ 0 <= v < 2 ^ n
     /\ avail br' = avail br - n /\ reader_ok br' /\ data br' = data br)
  /\ (avail br < n ->
      exists br',
        read_bits br n = (Err TruncatedBitstream, br')
        /\ pos br' = length (data br) /\ data br' = data br).
Proof.
  intros Hok Hn. split.
  - intros Hav.
    destruct (read_bits_enough br n Hok ltac:(lia)) as (br' & Hr & Hok' & Hd & _ & Ha & _).
    exists (rval br mod 2 ^ n), br'.
    split; [exact Hr|]. split; [apply Z.mod_pos_bound; lia|].
    split; [exact Ha|]. split; [exact Hok'|exact Hd].
  - intros Hav. destruct (read_bits_short br n Hav) as (br' & Hr & Hd & Hp).
    exists br'. split; [exact Hr|]. split; [|exact Hd].
    destruct Hok as (Hpos & _). rewrite Hp, length_drop. lia.
Qed.

Lemma read_bits_outcome_witness :
  reader_ok (mkReader [xff] 0 0 0) /\ 0 <= 4
  /\ (exists v br', read_bits (mkReader [xff] 0 0 0) 4 = (Ok v, br') /\ 0 <= v < 2 ^ 4)
  /\ (exists br', read_bits (mkReader [xff] 0 0 0) 9 = (Err TruncatedBitstream, br')
                  /\ pos br' = 1%nat).
Proof.
  assert (Hok : reader_ok (mkReader [xff] 0 0 0)) by (vm_compute; repeat split; lia + discriminate).
  split; [exact Hok|]. split; [lia|]. split.
  - destruct (read_bits_outcome (mkReader [xff] 0 0 0) 4 Hok ltac:(lia)) as [H _].
    destruct H as (v & br' & Hr & Hv & _); [vm_compute; discriminate|].
    exists v, br'. split; [exact Hr|exact Hv].
  - destruct (read_bits_outcome (mkReader [xff] 0 0 0) 9 Hok ltac:(lia)) as [_ H].
    destruct H as (br' & Hr & Hp & _); [vm_compute; reflexivity|].
    exists br'. split; [exact Hr|exact Hp].
Defined.

(** ** The empty input *)

(** The empty input, under any world file of at least 32 bytes and any
    gzip: [compress] writes the 18-byte container made of a zero chunk
    count, a zero length, the marker alone (ff 01) and a zero extras
    length, and [decompress] of that container returns the empty output. *)
Theorem empty_input (gz : Gzip) (world : list byte) :
  (32 <= length world)%nat ->
  compress gz [] world = Ok (zeros 12 ++ [xff; x01] ++ zeros 4)
  /\ decompress gz (zeros 12 ++ [xff; x01] ++ zeros 4) world = Ok [].
Proof.
  intros Hw. unfold compress, decompress. rewrite (load_world_ok world Hw). cbn [bind].
  generalize (gen_home_from_key (slice world 16 32)). intros home.
  split; reflexivity.
Qed.

Lemma empty_input_witness :
  (32 <= length world0)%nat
  /\ compress stored_gzip [] world0 = Ok (zeros 12 ++ [xff; x01] ++ zeros 4)
  /\ decompress stored_gzip (zeros 12 ++ [xff; x01] ++ zeros 4) world0 = Ok [].
Proof.
  assert (H : (32 <= length world0)%nat) by (vm_compute; lia).
  split; [exact H|]. apply (empty_input stored_gzip world0 H).
Defined.


(** ** Bytes after the container *)

(** Under the conditions of the round trip, [decompress] returns the input
    from the container followed by any bytes: it reads the header, the bit
    stream up to the marker, the extras length and that many bytes of
    blob, and nothing after them. *)
Theorem trailing_bytes_ignored (gz : Gzip) (infile world mapping key junk : list byte) :
  GzipLawful gz ->
  load_world world = Ok (mapping, key) ->
  let home := gen_home_from_key key in
  let chunks := fst (chunk_file infile) in
  Forall (fun c => c <> nth 15 home []) chunks ->
  Z.of_nat (length chunks) < 2 ^ 32 ->
  Z.of_nat (length (gzip_compress gz (concat (snd (classify (home_index home) chunks)))))
    < 2 ^ 32 ->
  exists container,
    compress gz infile world = Ok container
    /\ decompress gz (container ++ junk) world = Ok infile.
Proof.
  intros Hgz Hw home chunks Hno Hcount Hblob.
  unfold compress, decompress. rewrite Hw. cbn [bind]. fold home.
  destruct (roundtrip_with gz home infile Hgz (gen_home_ok key)) as (c & Hc & Hd);
    try assumption.
  - apply (no_home15_index key). exact Hno.
  - exists c. split; [exact Hc|apply Hd].
Qed.

Lemma trailing_bytes_ignored_witness :
  exists container,
    compress stored_gzip sample_input world0 = Ok container
    /\ decompress stored_gzip (container ++ [xff; x01; x00; x2a]) world0 = Ok sample_input.
Proof.
  apply (trailing_bytes_ignored stored_gzip sample_input world0 (zeros 16) key0).
  - exact stored_gzip_lawful.
  - reflexivity.
  - apply (bool_decide_unpack _). vm_compute. exact I.
  - vm_compute. reflexivity.
  - vm_compute. reflexivity.
Defined.

(** ** What comes back when chunks collide with the last home entry *)

Lemma positions_from_inv (types : list Z) :
  forall (base p : nat),
    In p (positions_from base types) ->
    exists j, types !! j = Some 15 /\ p = (base + j * CHUNK_SIZE)%nat.
Proof.
  induction types as [|t types IH]; intros base p Hp; [contradiction|].
  cbn [positions_from] in Hp. apply in_app_iff in Hp. destruct Hp as [Hp|Hp].
  - destruct (Z.eqb_spec t 15) as [->|]; [|contradiction].
    destruct Hp as [<-|[]]. exists 0%nat. split; [reflexivity|lia].
  - destruct (IH _ _ Hp) as (j & Hj & ->). exists (S j). split; [exact Hj|lia].
Qed.

Lemma slice_take {A} (X : list A) (L a b : nat) :
  slice (take L X) a b = take (L - a) (slice X a b).
Proof.
  unfold slice. rewrite take_take, Nat.min_comm, <- take_take. f_equal.
  destruct (Nat.le_gt_cases a L) as [Hle|Hgt].
  - replace L with (a + (L - a))%nat at 1 by lia. symmetry. apply take_drop_commute.
  - rewrite drop_ge by (rewrite length_take; lia).
    replace (L - a)%nat with 0%nat by lia. now rewrite take_0.
Qed.

(** Whatever the input, chunks equal to the last home entry included: with
    a gzip that undoes its compression and counts that fit their fields,
    [compress] succeeds, [decompress] of the container succeeds, the output
    has the length of the input, and every chunk that is byte-identical to
    a home entry other than the last comes back as it was. The damage of
    the collision with Type 15 stays in the Type-15 chunks. *)
Theorem matched_chunks_survive (gz : Gzip) (infile world mapping key : list byte) :
  GzipLawful gz ->
  load_world world = Ok (mapping, key) ->
  let home := gen_home_from_key key in
  let chunks := fst (chunk_file infile) in
  Z.of_nat (length chunks) < 2 ^ 32 ->
  Z.of_nat (length (gzip_compress gz (concat (snd (classify (home_index home) chunks)))))
    < 2 ^ 32 ->
  exists container out,
    compress gz infile world = Ok container
    /\ decompress gz container world = Ok out
    /\ length out = length infile
    /\ forall i c,
         chunks !! i = Some c -> In c home -> c <> nth 15 home [] ->
         slice out (i * CHUNK_SIZE) (i * CHUNK_SIZE + CHUNK_SIZE)
         = slice infile (i * CHUNK_SIZE) (i * CHUNK_SIZE + CHUNK_SIZE).
Proof.
  intros Hgz Hw home chunks Hcount Hblob.
  pose proof (gen_home_ok key) as Hhome. fold home in Hhome.
  unfold compress, decompress. rewrite Hw. cbn [bind]. fold home.
  destruct (decompress_compressed gz home infile Hgz Hhome Hcount Hblob) as (c & Hc & Hd).
  cbv zeta in Hd. fold chunks in Hd.
  set (idx := home_index home) in *.
  set (types := map (chunk_type idx) chunks) in *.
  set (extras := List.filter (literal idx) chunks) in *.
  set (rest := flat_map (placeholder home) types) in *.
  set (P := patch_extras (positions_from 0 types) extras rest) in *.
  exists c, (take (length infile) P).
  split; [exact Hc|]. split; [specialize (Hd []); now rewrite app_nil_r in Hd|].
  destruct (chunk_file_chunks infile) as (_ & Hcat & Hall & Hcnt).
  cbv zeta in Hcat, Hall, Hcnt. fold chunks in Hcat, Hall, Hcnt.
  set (pad := Z.to_nat ((- Z.of_nat (length infile)) mod 18)) in *.
  assert (Htypes : Forall type_ok types).
  { unfold types. apply Forall_map, Forall_forall. intros x _. now apply chunk_type_ok. }
  assert (Hrest : length rest = (length chunks * CHUNK_SIZE)%nat).
  { unfold rest. rewrite flat_placeholder_length by assumption.
    unfold types. now rewrite length_map. }
  assert (Hex : Forall (fun c => length c = CHUNK_SIZE) extras)
    by (apply filter_Forall; exact Hall).
  assert (Hfit : Forall (fun p => (p + CHUNK_SIZE <= length rest)%nat)
                   (positions_from 0 types)).
  { apply Forall_forall. intros p Hp. apply list_elem_of_In in Hp.
    destruct (positions_from_inv types 0 p Hp) as (j & Hj & ->).
    apply lookup_lt_Some in Hj. unfold types in Hj. rewrite length_map in Hj.
    rewrite Hrest. unfold CHUNK_SIZE. lia. }
  assert (HP : length P = (length infile + pad)%nat).
  { unfold P. rewrite patch_extras_length by assumption. now rewrite Hrest. }
  split; [rewrite length_take; lia|].
  intros i x Hi Hin Hne.
  assert (Hidx : idx !! x <> Some 15).
  { intros Hx. apply Hne. destruct (home_index_inv home x 15 Hx) as (n & Hn & Hl).
    assert (n = 15%nat) as -> by lia. symmetry. now apply nth_lookup_Some. }
  destruct (home_index_elem home x Hin) as [t Ht]. fold idx in Ht.
  destruct (chunk_type_spec home x Hhome Hidx) as [_ Hlit]. fold idx in Hlit.
  unfold literal in Hlit. rewrite Ht in Hlit. destruct Hlit as [Hne15 Hph].
  assert (Hti : types !! i = Some (chunk_type idx x)).
  { unfold types. now rewrite list_lookup_fmap, Hi. }
  assert (HPq : slice P (i * CHUNK_SIZE) (i * CHUNK_SIZE + CHUNK_SIZE) = x).
  { unfold P. rewrite patch_extras_frame; [|exact Hex|exact Hfit|].
    - unfold rest. rewrite flat_map_concat_map.
      apply slice_concat_chunk.
      + apply Forall_map. eapply Forall_impl; [exact Htypes|].
        intros t' Ht'. now apply placeholder_length.
      + rewrite list_lookup_fmap, Hti.
        change (Some (placeholder home (chunk_type idx x)) = Some x). now rewrite Hph.
    - apply Forall_forall. intros p Hp. apply list_elem_of_In in Hp.
      destruct (positions_from_inv types 0 p Hp) as (j & Hj & ->).
      assert (j <> i) by (intros ->; congruence).
      unfold CHUNK_SIZE. lia. }
  assert (HIq : slice (infile ++ zeros pad) (i * CHUNK_SIZE) (i * CHUNK_SIZE + CHUNK_SIZE) = x).
  { rewrite <- Hcat. now apply slice_concat_chunk. }
  rewrite slice_take, HPq, <- HIq, <- slice_take.
  now rewrite take_app_length.
Qed.

Lemma matched_chunks_survive_witness :
  exists container out,
    compress stored_gzip mixed_input world0 = Ok container
    /\ decompress stored_gzip container world0 = Ok out
    /\ length out = length mixed_input
    /\ forall i c,
         fst (chunk_file mixed_input) !! i = Some c ->
         In c (gen_home_from_key key0) -> c <> nth 15 (gen_home_from_key key0) [] ->
         slice out (i * CHUNK_SIZE) (i * CHUNK_SIZE + CHUNK_SIZE)
         = slice mixed_input (i * CHUNK_SIZE) (i * CHUNK_SIZE + CHUNK_SIZE).
Proof.
  apply (matched_chunks_survive stored_gzip mixed_input world0 (zeros 16) key0).
  - exact stored_gzip_lawful.
  - reflexivity.
  - vm_compute. reflexivity.
  - vm_compute. reflexivity.
Defined.

(** ** The bit writer *)

Lemma flush_bytes_appends (fuel : nat) :
  forall w : BitWriter, exists more, buf_bytes (flush_bytes fuel w) = buf_bytes w ++ more.
Proof.
  induction fuel as [|fuel IH]; intros w; cbn [flush_bytes].
  - exists []. now rewrite app_nil_r.
  - destruct (8 <=? w_bitlen w).
    + destruct (IH (mkWriter (buf_bytes w ++ [byte_of_Z (Z.land (w_bitbuf w) 255)])
                             (Z.shiftr (w_bitbuf w) 8) (w_bitlen w - 8))) as [more Hm].
      rewrite Hm. cbn [buf_bytes]. rewrite <- app_assoc. eexists. reflexivity.
    + exists []. now rewrite app_nil_r.
Qed.

(** [write_bits] on a writer that holds fewer than eight pending bits: it
    keeps the bytes written so far and appends [(bitlen + bits) // 8] bytes,
    leaves [(bitlen + bits) % 8] pending bits, and writes the low [bits]
    bits of the value only: the bits of the value above the width are
    dropped. *)
Theorem write_bits_shape (w : BitWriter) (value bits : Z) :
  writer_ok w -> 0 <= bits ->
  let w' := write_bits w value bits in
  (exists more,
     buf_bytes w' = buf_bytes w ++ more
     /\ Z.of_nat (length more) = (w_bitlen w + bits) / 8)
  /\ w_bitlen w' = (w_bitlen w + bits) mod 8
  /\ 0 <= w_bitbuf w' < 2 ^ w_bitlen w'
  /\ w' = write_bits w (value mod 2 ^ bits) bits.
Proof.
  intros Hok Hbits w'.
  destruct (write_bits_spec w value bits Hok Hbits) as ([Hbl Hbb] & _ & Hwb).
  fold w' in Hbl, Hbb, Hwb. unfold wbits in Hwb.
  destruct (flush_bytes_appends (Z.to_nat ((w_bitlen w + bits) / 8))
              (mkWriter (buf_bytes w)
                 (Z.lor (w_bitbuf w)
                    (Z.shiftl (Z.land value (Z.shiftl 1 bits - 1)) (w_bitlen w)))
                 (w_bitlen w + bits))) as [more Hmore].
  change (buf_bytes w' = buf_bytes w ++ more) in Hmore.
  rewrite Hmore, length_app in Hwb. destruct Hok as [Hbl0 _].
  split; [exists more; split; [exact Hmore|div_lia]|].
  split; [div_lia|]. split; [exact Hbb|].
  unfold w', write_bits. rewrite !mask_mod by exact Hbits.
  rewrite Z.mod_mod by (apply Z.pow_nonzero; lia). reflexivity.
Qed.

Lemma write_bits_shape_witness :
  writer_ok (mkWriter [] 5 3) /\ 0 <= 9
  /\ w_bitlen (write_bits (mkWriter [] 5 3) 1023 9) = 4
  /\ write_bits (mkWriter [] 5 3) 1023 9 = write_bits (mkWriter [] 5 3) 511 9.
Proof.
  assert (Hok : writer_ok (mkWriter [] 5 3)) by (vm_compute; repeat split; lia + discriminate).
  split; [exact Hok|]. split; [lia|].
  destruct (write_bits_shape (mkWriter [] 5 3) 1023 9 Hok ltac:(lia)) as (_ & Hl & _ & Hm).
  split; [exact Hl|exact Hm].
Defined.

(** ** Run lengths, encoded and then decoded *)

Lemma positions_from_In (types : list Z) :
  forall (base k : nat),
    types !! k = Some 15 -> In (base + k * CHUNK_SIZE)%nat (positions_from base types).
Proof.
  induction types as [|t types IH]; intros base k Hk; [discriminate|].
  cbn [positions_from]. apply in_app_iff. destruct k as [|k].
  - injection Hk as ->. left. left. lia.
  - right. cbn [lookup list_lookup] in Hk.
    replace (base + S k * CHUNK_SIZE)%nat with (base + CHUNK_SIZE + k * CHUNK_SIZE)%nat by lia.
    now apply IH.
Qed.

(** C3: for every Type sequence (values 0..15), the run loop of the decoder,
    run on the bitstream the encoder writes for the runs of the sequence,
    reads [(type, run)] pairs that spell out exactly the original
    Type-per-position sequence, and expands them position by position: the
    chunk at position [k] of the buffer is the home entry of the [k]-th type,
    or 18 zero bytes for Type 15, and the recorded extras positions are
    exactly the offsets of the Type-15 positions. In particular a run of 1 or
    8 is one short form, a run of 256 one extended form, a run of 9 an
    extended form of 8 and a short form of 1, and a run of 257 an extended
    form of 256 followed by a short form of length 1. *)
Theorem run_encoding_exact (key : list byte) (types : list Z) :
  Forall type_ok types ->
  (exists br st,
     decode_runs (length (encode_bitstream types)) (gen_home_from_key key)
       (Z.of_nat (length types)) (mkReader (encode_bitstream types) 0 0 0)
       expansion_init []
     = Ok (br, st, map decoded_run (emitted_runs types))
     /\ decoded_types (map decoded_run (emitted_runs types)) = types
     /\ expanded st = Z.of_nat (length types)
     /\ length (restored st) = (length types * CHUNK_SIZE)%nat
     /\ forall k t,
          types !! k = Some t ->
          slice (restored st) (k * CHUNK_SIZE) (k * CHUNK_SIZE + CHUNK_SIZE)
          = (if t =? 15 then zeros CHUNK_SIZE
             else nth (Z.to_nat t) (gen_home_from_key key) [])
          /\ (In (k * CHUNK_SIZE)%nat (extras_positions st) <-> t = 15))
  /\ (forall t, type_ok t ->
        emitted_runs (replicate 1 t) = [ShortForm t 0]
        /\ emitted_runs (replicate 8 t) = [ShortForm t 7]
        /\ emitted_runs (replicate 9 t) = [Extended t 8 0; ShortForm t 0]
        /\ emitted_runs (replicate 256 t) = [Extended t 8 31]
        /\ emitted_runs (replicate 257 t) = [Extended t 8 31; ShortForm t 0]).
Proof.
  intros Htypes. split.
  - pose proof (gen_home_ok key) as Hhome.
    destruct (decode_encoded_stream (gen_home_from_key key) types [] []
                (length (encode_bitstream types)) Hhome Htypes (le_n _))
      as (br' & Hr & Hex & _).
    cbn [app length] in Hr. rewrite app_nil_r in Hr.
    assert (Hinit : expansion_of (gen_home_from_key key) [] expansion_init).
    { repeat split. constructor. }
    assert (Hstart : reader_ok (mkReader (encode_bitstream types) 0 0 0)).
    { split; [cbn; lia|]. cbn. split; lia. }
    destruct (decode_runs_closed_form _ _ _ _ _ _ _ _ _ Hhome Hstart Hinit Hr)
      as ((Hres & Hps & Hexp & _) & _).
    rewrite decoded_types_emitted, Hex in Hres, Hps, Hexp.
    exists br'. eexists. split; [exact Hr|].
    split; [rewrite decoded_types_emitted; exact Hex|].
    split; [exact Hexp|]. split.
    { rewrite Hres. now apply flat_placeholder_length. }
    intros k t Hk. split.
    + rewrite Hres, flat_map_concat_map.
      apply slice_concat_chunk.
      * apply Forall_map. eapply Forall_impl; [exact Htypes|].
        intros t' Ht'. now apply placeholder_length.
      * rewrite list_lookup_fmap, Hk. reflexivity.
    + rewrite Hps. split.
      * intros Hin. destruct (positions_from_inv types 0 _ Hin) as (j & Hj & Hkj).
        assert (j = k) as -> by (unfold CHUNK_SIZE in Hkj; lia). congruence.
      * intros ->. apply (positions_from_In types 0 k Hk).
  - intros t Ht. each_type Ht; repeat split; vm_compute; reflexivity.
Qed.

Lemma run_encoding_exact_witness :
  let types := replicate 257 3 ++ [15; 15; 0] in
  exists br st,
    decode_runs (length (encode_bitstream types)) (gen_home_from_key [])
      (Z.of_nat (length types)) (mkReader (encode_bitstream types) 0 0 0)
      expansion_init []
    = Ok (br, st, map decoded_run (emitted_runs types))
    /\ decoded_types (map decoded_run (emitted_runs types)) = types
    /\ expanded st = Z.of_nat (length types)
    /\ length (restored st) = (length types * CHUNK_SIZE)%nat
    /\ forall k t,
         types !! k = Some t ->
         slice (restored st) (k * CHUNK_SIZE) (k * CHUNK_SIZE + CHUNK_SIZE)
         = (if t =? 15 then zeros CHUNK_SIZE
            else nth (Z.to_nat t) (gen_home_from_key []) [])
         /\ (In (k * CHUNK_SIZE)%nat (extras_positions st) <-> t = 15).
Proof.
  apply (run_encoding_exact [] (replicate 257 3 ++ [15; 15; 0])).
  apply Forall_forall. intros t Hin. apply list_elem_of_In in Hin.
  apply in_app_or in Hin as [Hin|Hin].
  - apply list_elem_of_In, elem_of_replicate in Hin as [-> _]. unfold type_ok. lia.
  - unfold type_ok. simpl in Hin. lia.
Defined.
